(** * NETCONF client core (cisco-ie/netgonf): framing, session and catalog

    A shallow embedding of [netconf/framing.go], [netconf/session.go],
    [netconf/ssh.go], [netconf/ops.go] and [netconf/const.go], followed by
    the properties of the framing codecs, the hello exchange, the RPC call
    path and the operation catalog. *)

From Stdlib Require Import ZArith Lia Strings.Byte Strings.Ascii.
From stdpp Require Import gmap strings list sorting.

Local Open Scope Z_scope.

#[global] Instance byte_eq_dec : EqDecision byte := Byte.byte_eq_dec.

(** ** Errors

    Go's sentinel errors that the package compares against or returns:
    [io.EOF], [ErrFraming], [ErrCapabilitiesExchange].  Every other error
    (a transport failure, an XML syntax or marshalling error) is an
    [ErrOther] carrying its message.  [None : option error] is Go's [nil]. *)

Inductive error : Type :=
| EOF
| ErrFraming
| ErrCapabilitiesExchange
| ErrOther (msg : string).

#[global] Instance error_eq_dec : EqDecision error.
Proof. solve_decision. Defined.

(** ** Byte constants *)

Definition NL : byte := x0a.      (* '\n' *)
Definition HASH : byte := x23.    (* '#'  *)
Definition RBRACK : byte := x5d.  (* ']'  *)
Definition GT : byte := x3e.      (* '>'  *)
Definition MINUS : byte := x2d.   (* '-'  *)

(** ** 64-bit [int]

    Go's [int] on the supported platforms is a 64-bit two's complement
    integer; arithmetic wraps around silently. *)

Definition wrap64 (z : Z) : Z := (z + 2 ^ 63) mod 2 ^ 64 - 2 ^ 63.


(** ** [strconv.Itoa]

    The decimal representation of an [int]: a minus sign for negative
    values, then the digits, most significant first, without leading
    zeros. *)

Definition digit_byte (d : Z) : byte :=
  match Byte.of_N (Z.to_N (48 + d)) with
  | Some b => b
  | None => x30
  end.

Fixpoint digits (fuel : nat) (n : Z) (acc : list byte) : list byte :=
  match fuel with
  | O => acc
  | S fuel' =>
      let acc' := digit_byte (n mod 10) :: acc in
      if n <? 10 then acc' else digits fuel' (n / 10) acc'
  end.

Definition utoa (n : Z) : list byte := digits (S (Z.to_nat (Z.log2 n))) n [].

Definition Itoa (n : Z) : list byte :=
  if n <? 0 then MINUS :: utoa (- n) else utoa n.

(** ** [io.Reader] and [io.Writer]

    The transport's read half holds the bytes the peer sends.  A [Read]
    into a buffer of [n > 0] bytes delivers between one and [n] of the
    pending bytes; how many is the transport's choice, scripted by
    [r_limits] (entry [l] caps the next read at [S l] bytes, an empty
    script means no cap).  Once the pending bytes are used up every
    [Read] returns [r_err] ([io.EOF] for a stream the peer has closed). *)

Record Reader : Type := mkReader {
  r_data : list byte;
  r_limits : list nat;
  r_err : error
}.

Definition read_count (r : Reader) (n : nat) : nat :=
  match r_limits r with
  | [] => n `min` length (r_data r)
  | l :: _ => (n `min` S l) `min` length (r_data r)
  end%nat.

Definition Reader_Read (r : Reader) (n : nat) : list byte * option error * Reader :=
  match n, r_data r with
  | O, _ => ([], None, r)
  | _, [] => ([], Some (r_err r), r)
  | _, _ =>
      let k := read_count r n in
      (take k (r_data r), None,
       mkReader (drop k (r_data r)) (tail (r_limits r)) (r_err r))
  end.

(** The write half appends to [w_out].  [w_budget = Some k] lets the next
    [k] calls of [Write] succeed and fails every later one with [w_err];
    [None] never fails. *)

Record Writer : Type := mkWriter {
  w_out : list byte;
  w_budget : option nat;
  w_err : error
}.

Definition Writer_Write (w : Writer) (p : list byte) : option error * Writer :=
  match w_budget w with
  | Some O => (Some (w_err w), w)
  | Some (S k) => (None, mkWriter (w_out w ++ p) (Some k) (w_err w))
  | None => (None, mkWriter (w_out w ++ p) None (w_err w))
  end.

(** [if err == io.EOF { err = ErrFraming }] *)
Definition eof_is_framing (e : error) : error :=
  if decide (e = EOF) then ErrFraming else e.

(** ** Framing v1.0: end-of-message marker *)

Definition eom : list byte := [RBRACK; RBRACK; GT; RBRACK; RBRACK; GT].

Definition framerV10_Write (w : Writer) (p : list byte) : option error * Writer :=
  Writer_Write w p.

Definition framerV10_Close (w : Writer) : option error * Writer :=
  Writer_Write w eom.

(** [buffer] always has [len(eom)] cells; the first [u10_len] of them hold
    bytes read from the transport and not yet delivered. *)

Record unframerV10 : Type := mkU10 {
  u10_buffer : list byte;
  u10_len : nat;
  u10_err : option error
}.

Definition newUnframerV10 : unframerV10 :=
  mkU10 (replicate (length eom) x00) 0 None.

(** [dst[at:]] receives [src] ([copy] into a slice of the buffer). *)
Definition blit (dst : list byte) (at_ : nat) (src : list byte) : list byte :=
  take at_ dst ++ src ++ drop (at_ + length src) dst.

(** The window-filling loop: [for c.len < len(c.buffer) { ... }]. *)
Fixpoint fillV10 (fuel : nat) (buffer : list byte) (len : nat) (r : Reader)
  : option (list byte * nat * option error * Reader) :=
  if decide (len < length buffer)%nat then
    match fuel with
    | O => None
    | S fuel' =>
        let '(bs, err, r') := Reader_Read r (length buffer - len) in
        match err with
        | Some e =>
            Some (buffer, len, Some (eof_is_framing e), r')
        | None => fillV10 fuel' (blit buffer len bs) (len + length bs) r'
        end
    end
  else Some (buffer, len, None, r).

(** The scan [for i = 0; i < len(c.buffer); i++]: the first [i] at which
    the rest of the window equals a prefix of the marker. *)
Fixpoint scanV10 (buffer : list byte) (i n : nat) : nat :=
  match n with
  | O => i
  | S n' =>
      if decide (drop i buffer = take (length eom - i) eom) then i
      else scanV10 buffer (S i) n'
  end.

Definition unframerV10_Read (c : unframerV10) (r : Reader) (plen : nat)
  : option (list byte * option error * unframerV10 * Reader) :=
  match u10_err c with
  | Some e => Some ([], Some e, c, r)
  | None =>
      match fillV10 (length (u10_buffer c)) (u10_buffer c) (u10_len c) r with
      | None => None
      | Some (buffer, len, Some e, r') =>
          Some ([], Some e, mkU10 buffer len (Some e), r')
      | Some (buffer, len, None, r') =>
          let i := scanV10 buffer 0 (length buffer) in
          if decide (i = 0)%nat then
            Some ([], Some EOF, mkU10 buffer len (Some EOF), r')
          else
            let n := (plen `min` i)%nat in
            let rest := drop n buffer in
            Some (take n buffer, None,
                  mkU10 (blit buffer 0 rest) (length rest) None, r')
      end
  end.

(** ** Framing v1.1: chunked *)

Definition chunk_header (n : Z) : list byte := [NL; HASH] ++ Itoa n ++ [NL].

Definition framerV11_Write (w : Writer) (p : list byte) : option error * Writer :=
  if decide (0 < length p)%nat then
    match Writer_Write w (chunk_header (Z.of_nat (length p))) with
    | (Some e, w') => (Some e, w')
    | (None, w') => Writer_Write w' p
    end
  else Writer_Write w p.

Definition framerV11_Close (w : Writer) : option error * Writer :=
  Writer_Write w [NL; HASH; HASH; NL].

Record unframerV11 : Type := mkU11 {
  u11_len : Z;
  u11_err : option error
}.

Definition newUnframerV11 : unframerV11 := mkU11 0 None.

Definition is_digit (b : byte) : bool :=
  (48 <=? Z.of_N (Byte.to_N b)) && (Z.of_N (Byte.to_N b) <=? 57).

Definition digit_val (b : byte) : Z := Z.of_N (Byte.to_N b) - 48.

(** A one-byte read into [p[:1]]: the byte now in [p[0]] and the error. *)
Definition read1 (r : Reader) : byte * option error * Reader :=
  let '(bs, err, r') := Reader_Read r 1 in (hd x00 bs, err, r').

(** The first two bytes of every header: a newline and a hash. *)
Definition headerStartV11 (r : Reader) : option error * Reader :=
  let '(b, err, r1) := read1 r in
  match err with
  | None =>
      if decide (b = NL) then
        let '(b', err', r2) := read1 r1 in
        match err' with
        | None => if decide (b' = HASH) then (None, r2) else (Some ErrFraming, r2)
        | Some e => (Some (eof_is_framing e), r2)
        end
      else (Some ErrFraming, r1)
  | Some e => (Some (eof_is_framing e), r1)
  end.

(** The loop [for err == nil { ... }] over the rest of the header.  It
    leaves with [None] through [break] (a chunk of [len] bytes follows)
    and with an error otherwise ([io.EOF] after the end-of-chunks
    marker). *)
Fixpoint headerLoopV11 (fuel : nat) (len : Z) (r : Reader)
  : option (Z * option error * Reader) :=
  match fuel with
  | O => None
  | S fuel' =>
      let '(b, err, r1) := read1 r in
      match err with
      | None =>
          if (len =? 0) && bool_decide (b = HASH) then
            let '(b', err', r2) := read1 r1 in
            match err' with
            | None =>
                if decide (b' = NL) then Some (len, Some EOF, r2)
                else Some (len, Some ErrFraming, r2)
            | Some e => Some (len, Some (eof_is_framing e), r2)
            end
          else if is_digit b then
            headerLoopV11 fuel' (wrap64 (len * 10 + digit_val b)) r1
          else if bool_decide (b = NL) && (0 <? len) then Some (len, None, r1)
          else Some (len, Some ErrFraming, r1)
      | Some e => Some (len, Some (eof_is_framing e), r1)
      end
  end.

(** The chunk header, read when no chunk is open ([c.len == 0]). *)
Definition headerV11 (c : unframerV11) (r : Reader)
  : option (Z * option error * Reader) :=
  if u11_len c =? 0 then
    match headerStartV11 r with
    | (Some e, r1) => Some (u11_len c, Some e, r1)
    | (None, r1) => headerLoopV11 (S (length (r_data r1))) (u11_len c) r1
    end
  else Some (u11_len c, None, r).

(** The chunk data: at most [c.len] bytes into [p]. *)
Definition chunkReadV11 (len : Z) (r : Reader) (plen : nat)
  : list byte * option error * unframerV11 * Reader :=
  let plen' := if len <? Z.of_nat plen then Z.to_nat len else plen in
  let '(bs, err, r') := Reader_Read r plen' in
  match err with
  | Some e => ([], Some (eof_is_framing e), mkU11 len (Some (eof_is_framing e)), r')
  | None => (bs, None, mkU11 (len - Z.of_nat (length bs)) None, r')
  end.

Definition unframerV11_Read (c : unframerV11) (r : Reader) (plen : nat)
  : option (list byte * option error * unframerV11 * Reader) :=
  if bool_decide (u11_err c ≠ None) || bool_decide (plen = 0%nat) then
    Some ([], u11_err c, c, r)
  else
    match headerV11 c r with
    | None => None
    | Some (len, Some e, r1) => Some ([], Some e, mkU11 len (Some e), r1)
    | Some (len, None, r1) => Some (chunkReadV11 len r1 plen)
    end.

(** ** [io.ReadCloser] over either codec *)

Inductive unframer : Type :=
| U10 (c : unframerV10)
| U11 (c : unframerV11).

Definition unframer_Read (u : unframer) (r : Reader) (plen : nat)
  : option (list byte * option error * unframer * Reader) :=
  match u with
  | U10 c =>
      '(bs, err, c', r') ← unframerV10_Read c r plen; Some (bs, err, U10 c', r')
  | U11 c =>
      '(bs, err, c', r') ← unframerV11_Read c r plen; Some (bs, err, U11 c', r')
  end.

(** [Close] of both unframers: read into a 16-byte dummy until an error;
    [io.EOF] is success.  Every read that does not fail takes at least one
    byte from the window or the transport, which bounds the loop. *)
Fixpoint closeLoop (fuel : nat) (u : unframer) (r : Reader)
  : option (option error * unframer * Reader) :=
  match fuel with
  | O => None
  | S fuel' =>
      '(_, err, u', r') ← unframer_Read u r 16;
      match err with
      | Some EOF => Some (None, u', r')
      | Some e => Some (Some e, u', r')
      | None => closeLoop fuel' u' r'
      end
  end.

Definition unframer_Close (u : unframer) (r : Reader)
  : option (option error * unframer * Reader) :=
  closeLoop (length (r_data r) + 7) u r.

(** Reading a message to its end with a buffer of [plen] bytes per call:
    the bytes delivered and the error that ended the reading. *)
Fixpoint readAll (fuel : nat) (u : unframer) (r : Reader) (plen : nat)
  : option (list byte * error * unframer * Reader) :=
  match fuel with
  | O => None
  | S fuel' =>
      '(bs, err, u', r') ← unframer_Read u r plen;
      match err with
      | Some e => Some ([], e, u', r')
      | None =>
          '(bs', e, u'', r'') ← readAll fuel' u' r' plen;
          Some (bs ++ bs', e, u'', r'')
      end
  end.

(** ** [encoding/xml] names and tokens *)

Record Name : Type := mkName { Space : string; Local : string }.

Record Attr : Type := mkAttr { attr_Name : Name; attr_Value : string }.

Record StartElement : Type := mkStart { se_Name : Name; se_Attr : list Attr }.

Inductive Token : Type :=
| TStartElement (e : StartElement)
| TEndElement (n : Name)
| TCharData (b : list byte)
| TComment (b : list byte)
| TProcInst (target : string) (inst : list byte)
| TDirective (b : list byte).

#[global] Instance Name_eq_dec : EqDecision Name.
Proof. solve_decision. Defined.

(** ** const.go *)

Definition NsNetconf : string := "urn:ietf:params:xml:ns:netconf:base:1.0".
Definition NsNetconfNotification : string :=
  "urn:ietf:params:xml:ns:netconf:notification:1.0".
Definition NsNetconfMonitoring : string :=
  "urn:ietf:params:xml:ns:yang:ietf-netconf-monitoring".
Definition NsTailfActions : string := "http://tail-f.com/ns/netconf/actions/1.0".
Definition NsYang1 : string := "urn:ietf:params:xml:ns:yang:1".

Definition CapNetconf10 : string := "urn:ietf:params:netconf:base:1.0".
Definition CapNetconf11 : string := "urn:ietf:params:netconf:base:1.1".

(** ** The transport: [io.ReadWriteCloser] *)

Record Transport : Type := mkTransport {
  t_in : Reader;
  t_out : Writer;
  t_closed : bool
}.

(** ** Codecs *)

Inductive codec : Type := V10 | V11.

#[global] Instance codec_eq_dec : EqDecision codec.
Proof. solve_decision. Defined.

Definition framer_Write (c : codec) : Writer → list byte → option error * Writer :=
  match c with V10 => framerV10_Write | V11 => framerV11_Write end.

Definition framer_Close (c : codec) : Writer → option error * Writer :=
  match c with V10 => framerV10_Close | V11 => framerV11_Close end.

Definition newUnframer_of (c : codec) : unframer :=
  match c with V10 => U10 newUnframerV10 | V11 => U11 newUnframerV11 end.

(** ** The hello message *)

Record Hello : Type := mkHello {
  hello_SessionID : Z;               (* uint64 *)
  hello_Capabilities : list string
}.

(** ** The XML codec as the session uses it

    [encoding/xml] is Go's library; the session needs from it an encoder
    that turns a value into the slices it writes to its [io.Writer] (or
    fails before writing; an encoder that fails after part of its output
    was flushed is not modelled, and no property rests on nothing having
    been written then), and a decoder that pulls bytes from an
    [io.ReadCloser] and hands back tokens and decoded values.  [None] is a
    decoder that does not return. *)

Inductive Outbound (Request : Type) : Type :=
| OutHello (h : Hello)
| OutRPC (element : StartElement) (request : Request).
Arguments OutHello {Request} h.
Arguments OutRPC {Request} element request.

Class XML : Type := {
  Request : Type;
  Response : Type;
  Decoder : Type;
  Marshal : Outbound Request → error + list (list byte);
  NewDecoder : Decoder;
  Decoder_Token : Decoder → unframer → Reader →
    option (option Token * option error * Decoder * unframer * Reader);
  Decoder_DecodeElement : Decoder → Response → StartElement → unframer → Reader →
    option (option error * Response * Decoder * unframer * Reader);
  Decoder_Decode : Decoder → Response → unframer → Reader →
    option (option error * Response * Decoder * unframer * Reader);
  Decoder_DecodeHello : Decoder → Hello → unframer → Reader →
    option (option error * Hello * Decoder * unframer * Reader)
}.

(** The encoder's writes go through the framer one after the other; the
    first failing write ends the encoding. *)
Fixpoint writeAll (c : codec) (w : Writer) (ps : list (list byte))
  : option error * Writer :=
  match ps with
  | [] => (None, w)
  | p :: ps' =>
      match framer_Write c w p with
      | (Some e, w') => (Some e, w')
      | (None, w') => writeAll c w' ps'
      end
  end.

Definition encodeTo (c : codec) (w : Writer) (m : error + list (list byte))
  : option error * Writer :=
  match m with
  | inl e => (Some e, w)
  | inr ps => writeAll c w ps
  end.

(** A whole message through a framer: every chunk with [Write], then
    [Close]. *)
Definition sendMessage (c : codec) (w : Writer) (chunks : list (list byte))
  : option error * Writer :=
  match writeAll c w chunks with
  | (Some e, w') => (Some e, w')
  | (None, w') => framer_Close c w'
  end.

(** ** session.go *)

Record Session : Type := mkSession {
  SessionID : Z;
  Capabilities : gmap string string;
  transport : Transport;
  newFramer : codec;
  newUnframer : codec;
  messageID : Z
}.

(** [strings.SplitN(s, "?", 2)] *)
Fixpoint SplitN2 (s : string) : list string :=
  match s with
  | EmptyString => [EmptyString]
  | String c s' =>
      if decide (c = "?"%char) then [EmptyString; s']
      else match SplitN2 s' with
           | a :: rest => String c a :: rest
           | [] => [String c EmptyString]
           end
  end.

(** The loop over [hello.Capabilities] filling [session.Capabilities]. *)
Definition parseCapability (m : gmap string string) (capability : string)
  : gmap string string :=
  match SplitN2 capability with
  | k :: v :: _ => <[k := v]> m
  | [k] => <[k := EmptyString]> m
  | [] => m
  end.

Definition parseCapabilities (caps : list string) : gmap string string :=
  foldl parseCapability ∅ caps.

Inductive opened : Type :=
| Opened (s : Session)
| Failed (e : error) (t : Transport).

Definition hello0 : Hello := mkHello 0 [CapNetconf10; CapNetconf11].

(** The part of [newSession] after the server's hello has been read:
    session-id check, capability map, version check. *)
Definition negotiate (t : Transport) (hello : Hello) : opened :=
  if decide (hello_SessionID hello = 0) then Failed ErrCapabilitiesExchange t
  else
    let caps := parseCapabilities (hello_Capabilities hello) in
    if decide (is_Some (caps !! CapNetconf11)) then
      Opened (mkSession (hello_SessionID hello) caps t V11 V11 0)
    else if decide (is_Some (caps !! CapNetconf10)) then
      Opened (mkSession (hello_SessionID hello) caps t V10 V10 0)
    else Failed ErrCapabilitiesExchange t.

Definition with_in (t : Transport) (r : Reader) : Transport :=
  mkTransport r (t_out t) (t_closed t).

Definition with_out (t : Transport) (w : Writer) : Transport :=
  mkTransport (t_in t) w (t_closed t).

(** The first half of [newSession]: send the client's hello under v1.0
    framing, then read the server's hello and close the reader.  The
    result is the first error met, or the server's hello. *)
Definition helloExchange `{XML} (t : Transport)
  : option (error * Transport + Hello * Transport) :=
  (* Send hello message *)
  match encodeTo V10 (t_out t) (Marshal (OutHello hello0)) with
  | (Some e, w) => Some (inl (e, with_out t w))
  | (None, w) =>
      match framer_Close V10 w with
      | (Some e, w') => Some (inl (e, with_out t w'))
      | (None, w') =>
          (* Retrieve and parse server's hello message *)
          let t1 := with_out t w' in
          '(err, hello, _, u, r) ←
            Decoder_DecodeHello NewDecoder (mkHello 0 []) (newUnframer_of V10) (t_in t1);
          match err with
          | Some e => Some (inl (e, with_in t1 r))
          | None =>
              '(err', _, r') ← unframer_Close u r;
              match err' with
              | Some e => Some (inl (e, with_in t1 r'))
              | None => Some (inr (hello, with_in t1 r'))
              end
          end
      end
  end.

Definition newSession `{XML} (t : Transport) : option opened :=
  x ← helloExchange t;
  match x with
  | inl (e, t') => Some (Failed e t')
  | inr (hello, t') => Some (negotiate t' hello)
  end.

(** The URI of a capability: what precedes its first question mark. *)
Definition capability_uri (capability : string) : string :=
  default EmptyString (head (SplitN2 capability)).

Definition advertises (caps : list string) (uri : string) : Prop :=
  ∃ c, c ∈ caps ∧ capability_uri c = uri.

Definition rpc_element (id : Z) : StartElement :=
  mkStart (mkName NsNetconf "rpc")
          [mkAttr (mkName "" "message-id") (String.string_of_list_byte (Itoa id))].

Definition with_transport (s : Session) (t : Transport) : Session :=
  mkSession (SessionID s) (Capabilities s) t (newFramer s) (newUnframer s) (messageID s).

(** The inner loop of [Call]: read tokens until the document root. *)
Fixpoint tokenLoop `{XML} (fuel : nat) (d : Decoder) (response : Response)
    (u : unframer) (r : Reader)
  : option (option error * bool * Response * unframer * Reader) :=
  match fuel with
  | O => None
  | S fuel' =>
      '(token, err, d', u', r') ← Decoder_Token d u r;
      match token with
      | Some (TStartElement element) =>
          if decide (Local (se_Name element) = "rpc-reply") then
            '(err', response', _, u'', r'') ←
              Decoder_DecodeElement d' response element u' r';
            Some (err', true, response', u'', r'')
          else Some (err, false, response, u', r')
      | _ =>
          match err with
          | None => tokenLoop fuel' d' response u' r'
          | Some e => Some (Some e, false, response, u', r')
          end
      end
  end.

(** The root of the next frame: the first start element its decoder
    returns, with the error returned along with it. *)
Fixpoint rootToken `{XML} (fuel : nat) (d : Decoder) (u : unframer) (r : Reader)
  : option (option StartElement * option error * Decoder * unframer * Reader) :=
  match fuel with
  | O => None
  | S fuel' =>
      '(token, err, d', u', r') ← Decoder_Token d u r;
      match token with
      | Some (TStartElement element) => Some (Some element, err, d', u', r')
      | _ =>
          match err with
          | None => rootToken fuel' d' u' r'
          | Some e => Some (None, Some e, d', u', r')
          end
      end
  end.

(** The outer loop of [Call]: read frames until an rpc-reply. *)
Fixpoint replyLoop `{XML} (fuel : nat) (c : codec) (haveReply : bool)
    (err : option error) (response : option Response) (r : Reader)
  : option (option error * option Response * Reader) :=
  match haveReply, err, response with
  | false, None, Some resp =>
      match fuel with
      | O => None
      | S fuel' =>
          '(err', haveReply', resp', u, r1) ←
            tokenLoop fuel NewDecoder resp (newUnframer_of c) r;
          '(_, _, r2) ← unframer_Close u r1;
          replyLoop fuel' c haveReply' err' (Some resp') r2
      end
  | _, _, _ => Some (err, response, r)
  end.


Record CallResult `{XML} : Type := mkCallResult {
  call_err : option error;
  call_response : option Response;
  call_session : Session;
  call_element : StartElement   (* the start element handed to the encoder *)
}.

Definition Session_Call `{XML} (fuel : nat) (s : Session) (request : Request)
    (response : option Response) : option CallResult :=
  let id := wrap64 (messageID s + 1) in
  let element := rpc_element id in
  let t := transport s in
  let '(err, w) := encodeTo (newFramer s) (t_out t) (Marshal (OutRPC element request)) in
  let '(err, w) :=
    match err with
    | None => framer_Close (newFramer s) w
    | Some e => (Some e, w)
    end in
  '(err', response', r) ← replyLoop fuel (newUnframer s) false err response (t_in t);
  Some {| call_err := err';
          call_response := response';
          call_session :=
            mkSession (SessionID s) (Capabilities s) (mkTransport r w (t_closed t))
                      (newFramer s) (newUnframer s) id;
          call_element := element |}.

(** [Receive]: decode one message and close the reader; the decoding
    error comes first, the reader's error otherwise. *)
Definition Session_Receive `{XML} (s : Session) (response : Response)
  : option (option error * Response * Session) :=
  let t := transport s in
  '(err, response', _, u, r) ←
    Decoder_Decode NewDecoder response (newUnframer_of (newUnframer s)) (t_in t);
  '(errReader, _, r') ← unframer_Close u r;
  Some (match err with None => errReader | Some e => Some e end,
        response', with_transport s (with_in t r')).

(** A run of calls on one session, with or without a response to
    fill. *)
Fixpoint Session_Calls `{XML} (fuel : nat) (s : Session)
    (calls : list (Request * option Response)) : option (list CallResult) :=
  match calls with
  | [] => Some []
  | (request, response) :: calls' =>
      res ← Session_Call fuel s request response;
      rest ← Session_Calls fuel (call_session res) calls';
      Some (res :: rest)
  end.

(** ** ssh.go *)

(** What the SSH library answers: [StdinPipe], [StdoutPipe] and
    [RequestSubsystem] may each fail; the channel is the byte stream of
    the session. *)
Record sshSession : Type := mkSsh {
  ssh_StdinPipe : option error;
  ssh_StdoutPipe : option error;
  ssh_RequestSubsystem : option error;
  ssh_channel : Transport
}.

(** [c.client.NewSession()]: a session, or [nil] and an error. *)
Record sshClient : Type := mkSshClient {
  client_NewSession : sshSession + error
}.

Definition sshSession_Close (t : Transport) : Transport :=
  mkTransport (t_in t) (t_out t) true.

Definition sshSessionTransport_init `{XML} (s : sshSession) : option opened :=
  match ssh_StdinPipe s with
  | Some e => Some (Failed e (ssh_channel s))
  | None =>
      match ssh_StdoutPipe s with
      | Some e => Some (Failed e (ssh_channel s))
      | None =>
          match ssh_RequestSubsystem s with
          | Some e => Some (Failed e (ssh_channel s))
          | None => newSession (ssh_channel s)
          end
      end
  end.

(** What a call of [NewSession] comes to.  When [c.client.NewSession()]
    fails, [s.sshSession] is the nil session returned with the error, and
    the cleanup [s.sshSession.Close()] runs on it all the same:
    [Session.Close] reads a field of its receiver, so the call ends in a
    nil dereference before [return nil, err] is reached. *)
Inductive NewSessionResult : Type :=
| NS_Session (s : Session)
| NS_Error (e : error) (t : Transport)
| NS_NilDereference (e : error).

Definition sshClient_NewSession `{XML} (c : sshClient) : option NewSessionResult :=
  match client_NewSession c with
  | inl s =>
      o ← sshSessionTransport_init s;
      match o with
      | Opened session => Some (NS_Session session)
      | Failed e t => Some (NS_Error e (sshSession_Close t))
      end
  | inr e => Some (NS_NilDereference e)
  end.

(** ** ops.go: the operation catalog *)

(** [encoding/xml] names an element after, in order of preference, the
    tag of the value's [XMLName] field, the value of that field, and the
    tag or name of the struct field the value was taken from. *)
Definition marshal_name (xmlname_tag xmlname_value field : Name) : Name :=
  if decide (Local xmlname_tag ≠ EmptyString) then xmlname_tag
  else if decide (Local xmlname_value ≠ EmptyString) then xmlname_value
  else field.

Definition no_name : Name := mkName "" "".

Module Ops.

Inductive Operation : Type :=
| Get | GetConfig | EditConfig | CopyConfig | DeleteConfig | Lock | Unlock
| KillSession | Commit | CommitConfirmed | CancelCommit | DiscardChanges
| Validate | ValidateConfig | GetSchema | CreateSubscription | Action
| TailfAction.

Definition catalog : list Operation :=
  [Get; GetConfig; EditConfig; CopyConfig; DeleteConfig; Lock; Unlock;
   KillSession; Commit; CommitConfirmed; CancelCommit; DiscardChanges;
   Validate; ValidateConfig; GetSchema; CreateSubscription; Action;
   TailfAction].

(** The [xml:"..."] tag on each type's [XMLName] field. *)
Definition XMLName (op : Operation) : Name :=
  match op with
  | Get => mkName "" "get"
  | GetConfig => mkName "" "get-config"
  | EditConfig => mkName NsNetconf "edit-config"
  | CopyConfig => mkName NsNetconf "copy-config"
  | DeleteConfig => mkName NsNetconf "delete-config"
  | Lock => mkName NsNetconf "lock"
  | Unlock => mkName NsNetconf "lock"
  | KillSession => mkName NsNetconf "kill-session"
  | Commit => mkName NsNetconf "commit"
  | CommitConfirmed => mkName NsNetconf "commit"
  | CancelCommit => mkName NsNetconf "cancel-commit"
  | DiscardChanges => mkName NsNetconf "discard-changes"
  | Validate => mkName NsNetconf "validate"
  | ValidateConfig => mkName NsNetconf "validate"
  | GetSchema => mkName NsNetconfMonitoring "get-schema"
  | CreateSubscription => mkName NsNetconfNotification "create-subscription"
  | Action => mkName NsYang1 "action"
  | TailfAction => mkName NsTailfActions "action"
  end.

(** The element each type is documented to define: the [<...>] of its
    doc comment ("Unlock defines the <unlock> operation"), in the
    namespace of the standard that defines the operation. *)
Definition documented (op : Operation) : Name :=
  match op with
  | Get => mkName NsNetconf "get"
  | GetConfig => mkName NsNetconf "get-config"
  | EditConfig => mkName NsNetconf "edit-config"
  | CopyConfig => mkName NsNetconf "copy-config"
  | DeleteConfig => mkName NsNetconf "delete-config"
  | Lock => mkName NsNetconf "lock"
  | Unlock => mkName NsNetconf "unlock"
  | KillSession => mkName NsNetconf "kill-session"
  | Commit => mkName NsNetconf "commit"
  | CommitConfirmed => mkName NsNetconf "commit"
  | CancelCommit => mkName NsNetconf "cancel-commit"
  | DiscardChanges => mkName NsNetconf "discard-changes"
  | Validate => mkName NsNetconf "validate"
  | ValidateConfig => mkName NsNetconf "validate"
  | GetSchema => mkName NsNetconfMonitoring "get-schema"
  | CreateSubscription => mkName NsNetconfNotification "create-subscription"
  | Action => mkName NsYang1 "action"
  | TailfAction => mkName NsTailfActions "action"
  end.

(** The start element of an operation encoded as [Call] does it: the
    value sits in the untagged field [Operation] of the rpc wrapper. *)
Definition encoded_name (op : Operation) : Name :=
  marshal_name (XMLName op) no_name (mkName "" "Operation").

(** The name a parser sees for a child of [<rpc xmlns="...base:1.0">]:
    an element written without a namespace inherits the default one. *)
Definition in_rpc (n : Name) : Name :=
  if decide (Space n = EmptyString) then mkName NsNetconf (Local n) else n.

End Ops.

(** An XML element tree, as handed to the encoder. *)
#[local] Unset Elimination Schemes.
Inductive Node : Type :=
| Element (name : Name) (attr : list Attr) (children : list Node)
| CharData (s : string).
#[local] Set Elimination Schemes.

(** [strings.ContainsRune] for a rune below [utf8.RuneSelf]. *)
Fixpoint ContainsRune (s : string) (c : ascii) : bool :=
  match s with
  | EmptyString => false
  | String c' s' => if decide (c' = c) then true else ContainsRune s' c
  end.

Definition Datastore : Type := string.

Definition Running : Datastore := "running".
Definition Candidate : Datastore := "candidate".

(** The value that [Datastore.MarshalXML] hands to the encoder as the
    child of [start], under the name the encoder gives it.  What the
    encoder writes for it is [Datastore_bytes] below. *)
Definition Datastore_child (d : Datastore) : Node :=
  if ContainsRune d ":"%char then
    Element (marshal_name no_name no_name (mkName NsNetconf "url")) [] [CharData d]
  else
    Element (marshal_name no_name (mkName "" d) (mkName "" "Datastore")) [] [].

Definition Datastore_MarshalXML (d : Datastore) (start : StartElement) : Node :=
  Element (se_Name start) (se_Attr start) [Datastore_child d].

(** ** A small XML codec for running the session on concrete frames

    It reads and writes documents made of start tags with double-quoted
    attributes, end tags, empty-element tags and text, pulling 4096 bytes
    at a time from its reader as [bufio] does.  A request is the encoded
    operation; a response is the list of the tokens inside the reply. *)

Module MiniXML.

Definition LT : byte := x3c.
Definition SLASH : byte := x2f.
Definition SPACE : byte := x20.
Definition QUOTE : byte := x22.
Definition EQUALS : byte := x3d.

Definition str (l : list byte) : string := String.string_of_list_byte l.
Definition bytes (s : string) : list byte := String.list_byte_of_string s.

(** The bytes before and after the first [b]. *)
Fixpoint split_at (b : byte) (l : list byte) : option (list byte * list byte) :=
  match l with
  | [] => None
  | x :: l' =>
      if decide (x = b) then Some ([], l')
      else '(pre, post) ← split_at b l'; Some (x :: pre, post)
  end.

Fixpoint skip_spaces (l : list byte) : list byte :=
  match l with
  | x :: l' => if decide (x = SPACE) then skip_spaces l' else l
  | [] => []
  end.

Fixpoint parse_attrs (fuel : nat) (l : list byte) : list Attr :=
  match fuel with
  | O => []
  | S fuel' =>
      match split_at EQUALS (skip_spaces l) with
      | Some (k, q :: v) =>
          if decide (q = QUOTE) then
            match split_at QUOTE v with
            | Some (value, rest) =>
                mkAttr (mkName "" (str k)) (str value) :: parse_attrs fuel' rest
            | None => []
            end
          else []
      | _ => []
      end
  end.

Definition xmlns_of (attrs : list Attr) : string :=
  match list_find (λ a, Local (attr_Name a) = "xmlns") attrs with
  | Some (_, a) => attr_Value a
  | None => ""
  end.

Inductive lexed : Type :=
| Lex (t : Token) (close : option Token) (rest : list byte)
| LexMore
| LexBad.

Definition lex_tag (body rest : list byte) : lexed :=
  match body with
  | [] => LexBad
  | x :: nm =>
      if decide (x = SLASH) then Lex (TEndElement (mkName "" (str nm))) None rest
      else
        let empty := bool_decide (last body = Some SLASH) in
        let body' := if empty then removelast body else body in
        let '(nm, attrbytes) :=
          match split_at SPACE body' with
          | Some (n, a) => (n, a)
          | None => (body', [])
          end in
        let attrs := parse_attrs (length attrbytes) attrbytes in
        let name := mkName (xmlns_of attrs) (str nm) in
        Lex (TStartElement (mkStart name attrs))
            (if empty then Some (TEndElement name) else None) rest
  end.

Definition lex1 (buf : list byte) : lexed :=
  match buf with
  | [] => LexMore
  | x :: buf' =>
      if decide (x = LT) then
        match split_at GT buf' with
        | Some (body, rest) => lex_tag body rest
        | None => LexMore
        end
      else
        match split_at LT buf with
        | Some (txt, rest) => Lex (TCharData txt) None (LT :: rest)
        | None => LexMore
        end
  end.

Record decoder : Type := mkDec {
  d_buf : list byte;
  d_pending : option Token
}.

Fixpoint fillToken (fuel : nat) (buf : list byte) (u : unframer) (r : Reader)
  : option (option Token * option error * decoder * unframer * Reader) :=
  match lex1 buf with
  | Lex t close rest => Some (Some t, None, mkDec rest close, u, r)
  | LexBad => Some (None, Some (ErrOther "XML syntax error"), mkDec buf None, u, r)
  | LexMore =>
      match fuel with
      | O => None
      | S fuel' =>
          '(bs, err, u', r') ← unframer_Read u r 4096;
          match err with
          | None => fillToken fuel' (buf ++ bs) u' r'
          | Some e =>
              if decide (e = EOF ∧ buf ≠ []) then
                if decide (head buf = Some LT) then
                  Some (None, Some (ErrOther "XML syntax error: unexpected EOF"),
                        mkDec buf None, u', r')
                else Some (Some (TCharData buf), None, mkDec [] None, u', r')
              else Some (None, Some e, mkDec buf None, u', r')
          end
      end
  end.

Definition token (d : decoder) (u : unframer) (r : Reader)
  : option (option Token * option error * decoder * unframer * Reader) :=
  match d_pending d with
  | Some t => Some (Some t, None, mkDec (d_buf d) None, u, r)
  | None => fillToken (length (r_data r) + 8) (d_buf d) u r
  end.

(** Tokens up to the end tag that closes the element just opened. *)
Fixpoint content (fuel : nat) (depth : nat) (acc : list Token) (d : decoder)
    (u : unframer) (r : Reader)
  : option (option error * list Token * decoder * unframer * Reader) :=
  match fuel with
  | O => None
  | S fuel' =>
      '(t, err, d', u', r') ← token d u r;
      match t, err with
      | _, Some e => Some (Some e, acc, d', u', r')
      | Some (TEndElement n), None =>
          match depth with
          | O => Some (None, acc, d', u', r')
          | S depth' => content fuel' depth' (acc ++ [TEndElement n]) d' u' r'
          end
      | Some (TStartElement e), None =>
          content fuel' (S depth) (acc ++ [TStartElement e]) d' u' r'
      | Some t', None => content fuel' depth (acc ++ [t']) d' u' r'
      | None, None => Some (Some (ErrOther "XML syntax error"), acc, d', u', r')
      end
  end.

Definition budget (d : decoder) (r : Reader) : nat :=
  (2 * (length (d_buf d) + length (r_data r)) + 8)%nat.

Definition decodeElement (d : decoder) (response : list Token)
    (element : StartElement) (u : unframer) (r : Reader)
  : option (option error * list Token * decoder * unframer * Reader) :=
  '(err, toks, d', u', r') ← content (budget d r) 0 [] d u r;
  Some (err, match err with None => toks | Some _ => response end, d', u', r').

(** Tokens up to the first start element. *)
Fixpoint root (fuel : nat) (d : decoder) (u : unframer) (r : Reader)
  : option (option StartElement * option error * decoder * unframer * Reader) :=
  match fuel with
  | O => None
  | S fuel' =>
      '(t, err, d', u', r') ← token d u r;
      match t, err with
      | _, Some e => Some (None, Some e, d', u', r')
      | Some (TStartElement e), None => Some (Some e, None, d', u', r')
      | _, None => root fuel' d' u' r'
      end
  end.

Definition decode (d : decoder) (response : list Token) (u : unframer) (r : Reader)
  : option (option error * list Token * decoder * unframer * Reader) :=
  '(e, err, d', u', r') ← root (budget d r) d u r;
  match e with
  | Some element => decodeElement d' response element u' r'
  | None => Some (err, response, d', u', r')
  end.

Fixpoint parse_uint (acc : Z) (l : list byte) : option Z :=
  match l with
  | [] => Some acc
  | b :: l' => if is_digit b then parse_uint (acc * 10 + digit_val b) l' else None
  end.

(** Fill a [Hello] from the tokens inside [<hello>]; [open] is the
    element the text belongs to. *)
Fixpoint fill_hello (toks : list Token) (open : string) (h : Hello) : error + Hello :=
  match toks with
  | [] => inr h
  | TStartElement e :: toks' => fill_hello toks' (Local (se_Name e)) h
  | TEndElement _ :: toks' => fill_hello toks' "" h
  | TCharData b :: toks' =>
      if decide (open = "session-id") then
        match parse_uint 0 b with
        | Some id =>
            if decide (b ≠ [] ∧ id < 2 ^ 64)
            then fill_hello toks' open (mkHello id (hello_Capabilities h))
            else inl (ErrOther "strconv.ParseUint: value out of range")
        | None => inl (ErrOther "strconv.ParseUint: invalid syntax")
        end
      else if decide (open = "capability") then
        fill_hello toks' open
          (mkHello (hello_SessionID h) (hello_Capabilities h ++ [str b]))
      else fill_hello toks' open h
  | _ :: toks' => fill_hello toks' open h
  end.

Definition decodeHello (d : decoder) (h : Hello) (u : unframer) (r : Reader)
  : option (option error * Hello * decoder * unframer * Reader) :=
  '(e, err, d', u', r') ← root (budget d r) d u r;
  match e with
  | Some element =>
      if decide (Local (se_Name element) = "hello") then
        '(err', toks, d'', u'', r'') ← decodeElement d' [] element u' r';
        match err' with
        | Some e' => Some (Some e', h, d'', u'', r'')
        | None =>
            match fill_hello toks "" h with
            | inl e' => Some (Some e', h, d'', u'', r'')
            | inr h' => Some (None, h', d'', u'', r'')
            end
        end
      else Some (Some (ErrOther "expected element type <hello>"), h, d', u', r')
  | None => Some (err, h, d', u', r')
  end.

Definition render_attr (a : Attr) : list byte :=
  [SPACE] ++ bytes (Local (attr_Name a)) ++ [EQUALS; QUOTE]
  ++ bytes (attr_Value a) ++ [QUOTE].

Definition render_start (e : StartElement) : list byte :=
  [LT] ++ bytes (Local (se_Name e))
  ++ render_attr (mkAttr (mkName "" "xmlns") (Space (se_Name e)))
  ++ concat (render_attr <$> se_Attr e) ++ [GT].

Definition render_end (n : Name) : list byte :=
  [LT; SLASH] ++ bytes (Local n) ++ [GT].

Definition render_capability (c : string) : list byte :=
  bytes "<capability>" ++ bytes c ++ bytes "</capability>".

Definition marshal (o : Outbound (list byte)) : error + list (list byte) :=
  match o with
  | OutHello h =>
      inr [render_start (mkStart (mkName NsNetconf "hello") [])
           ++ bytes "<capabilities>"
           ++ concat (render_capability <$> hello_Capabilities h)
           ++ bytes "</capabilities>" ++ render_end (mkName NsNetconf "hello")]
  | OutRPC element request =>
      inr [render_start element ++ request ++ render_end (se_Name element)]
  end.

#[global] Instance miniXML : XML := {|
  Request := list byte;
  Response := list Token;
  Decoder := decoder;
  Marshal := marshal;
  NewDecoder := mkDec [] None;
  Decoder_Token := token;
  Decoder_DecodeElement := decodeElement;
  Decoder_Decode := decode;
  Decoder_DecodeHello := decodeHello
|}.

End MiniXML.

(** ** Vocabulary of the properties

    The v1.1 wire format of a message sent in chunks: a header and the
    bytes for every chunk that is not empty, then the end-of-chunks
    marker. *)

Definition frameV11 (c : list byte) : list byte :=
  if decide (0 < length c)%nat then chunk_header (Z.of_nat (length c)) ++ c else c.

Definition wireV11 (chunks : list (list byte)) : list byte :=
  concat (frameV11 <$> chunks) ++ [NL; HASH; HASH; NL].

(** [pat] occurs in [l]. *)
Definition contains (pat l : list byte) : Prop := ∃ pre post, l = pre ++ pat ++ post.

(** No occurrence of the marker in [B ++ eom] starts inside [B]. *)
Definition marker_free (B : list byte) : Prop :=
  ∀ j, (j < length B)%nat → ¬ eom `prefix_of` drop j (B ++ eom).

(** The unframer's view of the transport: the undelivered bytes of the
    window followed by the bytes still on the wire. *)
Definition pendingV10 (c : unframerV10) (r : Reader) : list byte :=
  take (u10_len c) (u10_buffer c) ++ r_data r.

(** The states of a v1.0 unframer that has not failed. *)
Definition wfV10 (c : unframerV10) : Prop :=
  length (u10_buffer c) = 6%nat ∧ (u10_len c ≤ 6)%nat ∧ u10_err c = None.

(** The first error of the hello exchange: each case has every earlier
    step succeed. *)
Inductive HelloFailure `{XML} (t : Transport) : error → Prop :=
| fail_send e w :
    encodeTo V10 (t_out t) (Marshal (OutHello hello0)) = (Some e, w) →
    HelloFailure t e
| fail_terminator e w w' :
    encodeTo V10 (t_out t) (Marshal (OutHello hello0)) = (None, w) →
    framer_Close V10 w = (Some e, w') →
    HelloFailure t e
| fail_decode e w w' hello d u r :
    encodeTo V10 (t_out t) (Marshal (OutHello hello0)) = (None, w) →
    framer_Close V10 w = (None, w') →
    Decoder_DecodeHello NewDecoder (mkHello 0 []) (newUnframer_of V10) (t_in t)
    = Some (Some e, hello, d, u, r) →
    HelloFailure t e
| fail_drain e w w' hello d u r u' r' :
    encodeTo V10 (t_out t) (Marshal (OutHello hello0)) = (None, w) →
    framer_Close V10 w = (None, w') →
    Decoder_DecodeHello NewDecoder (mkHello 0 []) (newUnframer_of V10) (t_in t)
    = Some (None, hello, d, u, r) →
    unframer_Close u r = Some (Some e, u', r') →
    HelloFailure t e.

(** The first error of opening a session on an SSH session. *)
Inductive OpenFailure `{XML} (s : sshSession) : error → Prop :=
| fail_StdinPipe e :
    ssh_StdinPipe s = Some e → OpenFailure s e
| fail_StdoutPipe e :
    ssh_StdinPipe s = None → ssh_StdoutPipe s = Some e → OpenFailure s e
| fail_RequestSubsystem e :
    ssh_StdinPipe s = None → ssh_StdoutPipe s = None →
    ssh_RequestSubsystem s = Some e → OpenFailure s e
| fail_hello e :
    ssh_StdinPipe s = None → ssh_StdoutPipe s = None →
    ssh_RequestSubsystem s = None →
    HelloFailure (ssh_channel s) e → OpenFailure s e
| fail_session_id hello t :
    ssh_StdinPipe s = None → ssh_StdoutPipe s = None →
    ssh_RequestSubsystem s = None →
    helloExchange (ssh_channel s) = Some (inr (hello, t)) →
    hello_SessionID hello = 0 →
    OpenFailure s ErrCapabilitiesExchange
| fail_version hello t :
    ssh_StdinPipe s = None → ssh_StdoutPipe s = None →
    ssh_RequestSubsystem s = None →
    helloExchange (ssh_channel s) = Some (inr (hello, t)) →
    hello_SessionID hello ≠ 0 →
    ¬ advertises (hello_Capabilities hello) CapNetconf11 →
    ¬ advertises (hello_Capabilities hello) CapNetconf10 →
    OpenFailure s ErrCapabilitiesExchange.

(** ** Transports and frames for running the session

    A read half that delivers [data] and then [io.EOF], a write half that
    never fails, documents framed as one v1.1 chunk, and a server hello
    under v1.0 framing. *)

Import MiniXML.

Definition stream (data : list byte) : Reader := mkReader data [] EOF.
Definition sink : Writer := mkWriter [] None (ErrOther "write").
Definition pipe (data : list byte) : Transport := mkTransport (stream data) sink false.

Definition chunked (doc : list byte) : list byte :=
  chunk_header (Z.of_nat (length doc)) ++ doc ++ [NL; HASH; HASH; NL].

Definition reply_doc : list byte :=
  bytes "<rpc-reply xmlns=" ++ [QUOTE] ++ bytes NsNetconf ++ [QUOTE] ++ bytes "/>".
Definition foreign_reply_doc : list byte :=
  bytes "<rpc-reply xmlns=" ++ [QUOTE] ++ bytes "urn:example" ++ [QUOTE]
  ++ bytes "><ok/></rpc-reply>".
Definition notification_doc : list byte :=
  bytes "<notification><eventTime>2020-01-01T00:00:00Z</eventTime><x/></notification>".

Definition server_hello (id : string) (caps : list string) : list byte :=
  bytes "<hello>" ++ bytes id ++ bytes "<capabilities>"
  ++ concat (render_capability <$> caps) ++ bytes "</capabilities></hello>" ++ eom.

Definition session11 (inbound : list byte) : Session :=
  mkSession 42 ∅ (pipe inbound) V11 V11 0.

Definition two_calls : list (list byte * option (list Token)) :=
  [(bytes "<get/>", Some []); (bytes "<get/>", Some [])].

Definition hello_v11 : list byte :=
  server_hello "<session-id>42</session-id>" [CapNetconf10; CapNetconf11].
Definition hello_no_id : list byte := server_hello "" [CapNetconf10; CapNetconf11].

Definition ssh_client (inbound : list byte) : sshClient :=
  mkSshClient (inl (mkSsh None None None (pipe inbound))).

(** ** Vocabulary of the further properties

    The states an unframer can be in: a window of six cells of which at
    most six are in use; a chunk length that is not negative, unless the
    unframer has failed. *)
Definition unframer_ok (u : unframer) : Prop :=
  match u with
  | U10 c => length (u10_buffer c) = 6%nat ∧ (u10_len c ≤ 6)%nat
  | U11 c => u11_err c = None → 0 ≤ u11_len c
  end.

(** The error an unframer holds. *)
Definition unframer_err (u : unframer) : option error :=
  match u with
  | U10 c => u10_err c
  | U11 c => u11_err c
  end.

(** The bytes an unframer has yet to look at: those in its window and
    those on the transport. *)
Definition unread (u : unframer) (r : Reader) : nat :=
  match u with
  | U10 c => (u10_len c + length (r_data r))%nat
  | U11 c => length (r_data r)
  end.

(** The bytes of a message on the wire, for either codec. *)
Definition wire (c : codec) (chunks : list (list byte)) : list byte :=
  match c with
  | V10 => concat chunks ++ eom
  | V11 => wireV11 chunks
  end.

(** What one [Write] through a framer puts on the wire, and what [Close]
    ends the message with. *)
Definition frame (c : codec) (p : list byte) : list byte :=
  match c with
  | V10 => p
  | V11 => frameV11 p
  end.

Definition terminator (c : codec) : list byte :=
  match c with
  | V10 => eom
  | V11 => [NL; HASH; HASH; NL]
  end.

(** The sending half of [Call]: the request through the encoder and the
    session's framer, then [writer.Close()] if the encoding went well. *)
Definition Call_send `{XML} (s : Session) (request : Request) : option error * Writer :=
  match encodeTo (newFramer s) (t_out (transport s))
          (Marshal (OutRPC (rpc_element (wrap64 (messageID s + 1))) request)) with
  | (None, w) => framer_Close (newFramer s) w
  | (Some e, w) => (Some e, w)
  end.

(** The parameters of a capability: what follows its first question
    mark, the value [newSession] stores under the URI. *)
Definition capability_params (capability : string) : string :=
  match SplitN2 capability with
  | _ :: v :: _ => v
  | _ => EmptyString
  end.

(** ** [CallSimple] and [Close]

    The [rpc-error] element of ops.go and its [Error] method. *)
Record RPCErrorInfo : Type := mkErrorInfo {
  BadElement : string;
  BadAttribute : string;
  BadNamespace : string;
  ErrorSessionID : string;
  InnerXML : list byte
}.

Record RPCError : Type := mkRPCError {
  ErrorType : string;
  ErrorTag : string;
  ErrorSeverity : string;
  ErrorAppTag : string;
  ErrorPath : string;
  ErrorMessage : string;
  ErrorInfo : RPCErrorInfo
}.

Definition RPCError_Error (e : RPCError) : string :=
  "NETCONF RPC error " +:+ ErrorTag e +:+ ": " +:+ ErrorMessage e.

(** The [error] values [CallSimple] returns: what [Call] returned, or a
    pointer to the first [rpc-error] of the reply. *)
Inductive call_error : Type :=
| CallError (e : error)
| ReplyError (e : RPCError).

(** [sshSessionTransport.Close]: the writer is closed, then the SSH
    session, whose answer is returned. *)
Definition sshSessionTransport_Close (t : Transport) (answer : option error)
  : option error * Transport :=
  (answer, sshSession_Close t).

Section CallSimple.
Context `{XML}.

(** The response type is [RPCReply] here: [RPCReply0] is the value
    [&RPCReply{}], [reply_RPCError] the field [RPCError] of a decoded
    reply, [closeSession] the request of [Close]. *)
Variable RPCReply0 : Response.
Variable reply_RPCError : Response → list RPCError.
Variable closeSession : Request.

Definition Session_CallSimple (fuel : nat) (s : Session) (request : Request)
  : option (option call_error * Session) :=
  res ← Session_Call fuel s request (Some RPCReply0);
  let err :=
    match call_err res, call_response res with
    | Some e, _ => Some (CallError e)
    | None, Some reply =>
        match reply_RPCError reply with
        | e :: _ => Some (ReplyError e)
        | [] => None
        end
    | None, None => None
    end in
  Some (err, call_session res).

Definition Session_Close (fuel : nat) (s : Session) (answer : option error)
  : option (option call_error * Session) :=
  '(err, s') ← Session_CallSimple fuel s closeSession;
  let '(errTransport, t) := sshSessionTransport_Close (transport s') answer in
  Some (match err with
        | None => CallError <$> errTransport
        | Some e => Some e
        end,
        with_transport s' t).

End CallSimple.

(** The rpc-errors of a reply held as its tokens: one for each
    [rpc-error] start element. *)
Definition token_errors (toks : list Token) : list RPCError :=
  omap (λ t, match t with
             | TStartElement e =>
                 if decide (Local (se_Name e) = "rpc-error")
                 then Some (mkRPCError "" "" "" "" "" "" (mkErrorInfo "" "" "" "" []))
                 else None
             | _ => None
             end) toks.

Definition error_reply_doc : list byte :=
  bytes "<rpc-reply xmlns=" ++ [QUOTE] ++ bytes NsNetconf ++ [QUOTE]
  ++ bytes "><rpc-error></rpc-error></rpc-reply>".

(** ** What the encoder writes for a datastore

    [MarshalXML] hands the encoder a value; what reaches the wire is what
    the printer of [encoding/xml] writes for it, and the printer checks
    of a name only that it is not empty.  The session's encoders are
    created without indentation.

    [utf8.DecodeRune]: the rune at the head of [p] and its width.  An
    encoding that is not valid or is cut short is [RuneError] of width
    one. *)
Definition byte_val (b : byte) : Z := Z.of_N (Byte.to_N b).

Definition RuneError : Z := 0xFFFD.

Definition in_range (lo hi x : Z) : bool := (lo <=? x) && (x <=? hi).

(** The table [first] with [acceptRanges]: the size of the encoding a
    first byte announces and the range of its second byte. *)
Definition first_byte (p0 : Z) : option (nat * Z * Z) :=
  if in_range 0xC2 0xDF p0 then Some (2%nat, 0x80, 0xBF)
  else if p0 =? 0xE0 then Some (3%nat, 0xA0, 0xBF)
  else if in_range 0xE1 0xEC p0 then Some (3%nat, 0x80, 0xBF)
  else if p0 =? 0xED then Some (3%nat, 0x80, 0x9F)
  else if in_range 0xEE 0xEF p0 then Some (3%nat, 0x80, 0xBF)
  else if p0 =? 0xF0 then Some (4%nat, 0x90, 0xBF)
  else if in_range 0xF1 0xF3 p0 then Some (4%nat, 0x80, 0xBF)
  else if p0 =? 0xF4 then Some (4%nat, 0x80, 0x8F)
  else None.

Definition DecodeRune (p : list byte) : Z * nat :=
  match p with
  | [] => (RuneError, 0%nat)
  | b0 :: _ =>
      let p0 := byte_val b0 in
      if p0 <? 0x80 then (p0, 1%nat)
      else
        match first_byte p0 with
        | None => (RuneError, 1%nat)
        | Some (sz, lo, hi) =>
            let b i := byte_val (default x00 (p !! i)) in
            if (length p <? sz)%nat then (RuneError, 1%nat)
            else if negb (in_range lo hi (b 1%nat)) then (RuneError, 1%nat)
            else if (sz <=? 2)%nat then
              (Z.lor (Z.shiftl (Z.land p0 0x1F) 6) (Z.land (b 1%nat) 0x3F), 2%nat)
            else if negb (in_range 0x80 0xBF (b 2%nat)) then (RuneError, 1%nat)
            else if (sz <=? 3)%nat then
              (Z.lor (Z.shiftl (Z.land p0 0x0F) 12)
                 (Z.lor (Z.shiftl (Z.land (b 1%nat) 0x3F) 6) (Z.land (b 2%nat) 0x3F)),
               3%nat)
            else if negb (in_range 0x80 0xBF (b 3%nat)) then (RuneError, 1%nat)
            else
              (Z.lor (Z.shiftl (Z.land p0 0x07) 18)
                 (Z.lor (Z.shiftl (Z.land (b 1%nat) 0x3F) 12)
                    (Z.lor (Z.shiftl (Z.land (b 2%nat) 0x3F) 6) (Z.land (b 3%nat) 0x3F))),
               4%nat)
        end
  end.

Definition isInCharacterRange (r : Z) : bool :=
  (r =? 0x09) || (r =? 0x0A) || (r =? 0x0D)
  || in_range 0x20 0xD7FF r || in_range 0xE000 0xFFFD r
  || in_range 0x10000 0x10FFFF r.

(** The replacement the printer's [EscapeString] writes for a rune, if
    any. *)
Definition escape_of (r : Z) (width : nat) : option (list byte) :=
  if r =? 34 then Some (bytes "&#34;")
  else if r =? 39 then Some (bytes "&#39;")
  else if r =? 38 then Some (bytes "&amp;")
  else if r =? 60 then Some (bytes "&lt;")
  else if r =? 62 then Some (bytes "&gt;")
  else if r =? 9 then Some (bytes "&#x9;")
  else if r =? 10 then Some (bytes "&#xA;")
  else if r =? 13 then Some (bytes "&#xD;")
  else if negb (isInCharacterRange r) || ((r =? RuneError) && (width =? 1)%nat)
  then Some [xef; xbf; xbd]
  else None.

Fixpoint EscapeString_loop (fuel : nat) (s : list byte) : list byte :=
  match fuel, s with
  | S fuel', _ :: _ =>
      let '(r, width) := DecodeRune s in
      match escape_of r width with
      | Some esc => esc
      | None => take width s
      end ++ EscapeString_loop fuel' (drop width s)
  | _, _ => []
  end.

Definition EscapeString (s : string) : list byte :=
  EscapeString_loop (length (bytes s)) (bytes s).

(** [writeStart] and [writeEnd] around [content], for an element
    without attributes whose name is not empty. *)
Definition printer_element (name : Name) (content : list byte) : list byte :=
  [LT] ++ bytes (Local name)
  ++ (if decide (Space name ≠ EmptyString)
      then bytes " xmlns=" ++ [QUOTE] ++ EscapeString (Space name) ++ [QUOTE]
      else [])
  ++ [GT] ++ content ++ [LT; SLASH] ++ bytes (Local name) ++ [GT].

(** The bytes [Datastore.MarshalXML] has the encoder write between the
    start and the end tag of [start]. *)
Definition Datastore_bytes (d : Datastore) : list byte :=
  if ContainsRune d ":"%char then
    printer_element (marshal_name no_name no_name (mkName NsNetconf "url"))
                    (EscapeString d)
  else
    printer_element (marshal_name no_name (mkName "" d) (mkName "" "Datastore")) [].

(** How a parser reads an element that has no attributes and no
    content, names being XML names of ASCII characters without a
    prefix: a start tag [<name>] and the end tag [</name>], each with
    optional white space before [>]. *)
Definition is_name_start (b : byte) : bool :=
  let v := byte_val b in
  in_range 65 90 v || in_range 97 122 v || (v =? 95).

Definition is_name_byte (b : byte) : bool :=
  let v := byte_val b in
  is_name_start b || in_range 48 57 v || (v =? 45) || (v =? 46).

Definition is_space (b : byte) : bool :=
  let v := byte_val b in
  (v =? 0x20) || (v =? 0x09) || (v =? 0x0D) || (v =? 0x0A).

Fixpoint name_run (l : list byte) : list byte * list byte :=
  match l with
  | b :: l' =>
      if is_name_byte b then let '(n, r) := name_run l' in (b :: n, r)
      else ([], l)
  | [] => ([], [])
  end.

Fixpoint skip_space (l : list byte) : list byte :=
  match l with
  | b :: l' => if is_space b then skip_space l' else l
  | [] => []
  end.

(** A name, white space, [>]: the name and what follows the tag. *)
Definition read_tag (l : list byte) : option (list byte * list byte) :=
  let '(n, r) := name_run l in
  match n, skip_space r with
  | b :: _, c :: r' =>
      if is_name_start b && bool_decide (c = GT) then Some (n, r') else None
  | _, _ => None
  end.

Definition read_empty_element (l : list byte) : option string :=
  match l with
  | b :: l1 =>
      if bool_decide (b = LT) then
        '(n1, r1) ← read_tag l1;
        match r1 with
        | c1 :: c2 :: l2 =>
            if bool_decide (c1 = LT) && bool_decide (c2 = SLASH) then
              '(n2, r2) ← read_tag l2;
              if bool_decide (n1 = n2) && bool_decide (r2 = []) then Some (str n1)
              else None
            else None
        | _ => None
        end
      else None
  | [] => None
  end.

(** The XML names of ASCII characters that hold no colon. *)
Definition name_bytes (l : list byte) : bool :=
  match l with
  | b :: l' => is_name_start b && forallb is_name_byte l'
  | [] => false
  end.

Definition is_name (s : string) : bool := name_bytes (bytes s).

(** Characters the printer writes as they are. *)
Definition is_plain (s : string) : bool :=
  forallb (λ b, let v := byte_val b in
                in_range 0x20 0x7E v
                && negb ((v =? 34) || (v =? 38) || (v =? 39) || (v =? 60) || (v =? 62)))
          (bytes s).

(** * Properties *)

(** * Readers *)

Lemma Reader_Read_data n b data lim e :
  (0 < n)%nat →
  ∃ k, (1 ≤ k ≤ n)%nat ∧ (k ≤ length (b :: data))%nat ∧
    Reader_Read (mkReader (b :: data) lim e) n
    = (take k (b :: data), None, mkReader (drop k (b :: data)) (tail lim) e).
Proof.
  intros Hn. destruct n as [|n]; [lia|].
  exists (read_count (mkReader (b :: data) lim e) (S n)).
  unfold Reader_Read, read_count. cbn [r_data r_limits r_err].
  destruct lim as [|l lim]; cbn [length]; repeat split; lia.
Qed.

Lemma Reader_Read_nil n lim e :
  (0 < n)%nat → Reader_Read (mkReader [] lim e) n = ([], Some e, mkReader [] lim e).
Proof. intros Hn. destruct n; [lia|]. reflexivity. Qed.

Lemma read1_cons b data lim e :
  read1 (mkReader (b :: data) lim e) = (b, None, mkReader data (tail lim) e).
Proof.
  unfold read1, Reader_Read, read_count. cbn [r_data r_limits r_err].
  destruct lim as [|l lim]; cbn [length].
  - replace (1 `min` S (length data))%nat with 1%nat by lia. reflexivity.
  - replace ((1 `min` S l) `min` S (length data))%nat with 1%nat by lia. reflexivity.
Qed.

Lemma read1_nil lim e : read1 (mkReader [] lim e) = (x00, Some e, mkReader [] lim e).
Proof. reflexivity. Qed.

(** * Decimal digits *)

Lemma digit_byte_spec d :
  0 ≤ d < 10 →
  is_digit (digit_byte d) = true ∧ digit_val (digit_byte d) = d
  ∧ digit_byte d ≠ HASH ∧ digit_byte d ≠ NL.
Proof.
  intros Hd.
  assert (d = 0 ∨ d = 1 ∨ d = 2 ∨ d = 3 ∨ d = 4 ∨ d = 5 ∨ d = 6 ∨ d = 7 ∨ d = 8 ∨ d = 9)
    as Hc by lia.
  repeat (destruct Hc as [->|Hc]); try subst d; vm_compute; repeat split; congruence.
Qed.

Lemma wrap64_small z : - 2 ^ 63 ≤ z < 2 ^ 63 → wrap64 z = z.
Proof. intros Hz. unfold wrap64. rewrite Z.mod_small; lia. Qed.

Lemma headerLoopV11_fuel fuel fuel' len r :
  (length (r_data r) < fuel)%nat → (length (r_data r) < fuel')%nat →
  headerLoopV11 fuel len r = headerLoopV11 fuel' len r.
Proof.
  revert fuel' len r. induction fuel as [|fuel IH]; intros fuel' len r H1 H2; [lia|].
  destruct fuel' as [|fuel']; [lia|].
  destruct r as [data lim e]. cbn [r_data] in *.
  destruct data as [|b data].
  - cbn [headerLoopV11]. rewrite read1_nil. reflexivity.
  - cbn [headerLoopV11]. rewrite read1_cons.
    destruct ((len =? 0) && bool_decide (b = HASH)); [reflexivity|].
    destruct (is_digit b); [|reflexivity].
    apply IH; cbn [r_data length] in *; lia.
Qed.

Lemma headerLoopV11_digit fuel len d data lim e :
  0 ≤ d < 10 →
  headerLoopV11 (S fuel) len (mkReader (digit_byte d :: data) lim e)
  = headerLoopV11 fuel (wrap64 (len * 10 + d)) (mkReader data (tail lim) e).
Proof.
  intros Hd. destruct (digit_byte_spec d Hd) as (Hdig & Hval & Hh & Hn).
  cbn [headerLoopV11]. rewrite read1_cons.
  rewrite (bool_decide_eq_false_2 _ Hh), andb_false_r, Hdig, Hval. reflexivity.
Qed.

Lemma digits_length f : ∀ n acc, (length acc ≤ length (digits f n acc))%nat.
Proof.
  induction f as [|f IH]; intros n acc; cbn [digits]; [lia|].
  destruct (n <? 10); cbn [length]; [lia|].
  etrans; [|apply IH]. cbn [length]. lia.
Qed.

Lemma headerLoopV11_digits f : ∀ n acc rest lim e fuel,
  0 < n < 2 ^ 63 → n < 10 ^ Z.of_nat f →
  (length (digits f n acc ++ rest) < fuel)%nat →
  ∃ lim', headerLoopV11 fuel 0 (mkReader (digits f n acc ++ rest) lim e)
          = headerLoopV11 fuel n (mkReader (acc ++ rest) lim' e).
Proof.
  induction f as [|f IH]; intros n acc rest lim e fuel Hn Hf Hfuel.
  { cbn in Hf. lia. }
  cbn [digits] in *.
  assert (0 ≤ n mod 10 < 10) as Hmod by (apply Z.mod_pos_bound; lia).
  destruct (n <? 10) eqn:Hlt.
  - apply Z.ltb_lt in Hlt. rewrite Z.mod_small by lia.
    rewrite Z.mod_small in Hfuel by lia.
    destruct fuel as [|fuel]; [cbn in Hfuel; lia|].
    cbn [app]. rewrite headerLoopV11_digit by lia.
    rewrite wrap64_small by lia. exists (tail lim).
    apply headerLoopV11_fuel; cbn [r_data app length] in *; lia.
  - apply Z.ltb_ge in Hlt.
    assert (0 < n / 10 < 2 ^ 63) as Hq.
    { split; [apply Z.div_str_pos; lia|]. apply Z.div_lt_upper_bound; lia. }
    assert (n / 10 < 10 ^ Z.of_nat f) as Hqf.
    { apply Z.div_lt_upper_bound; [lia|].
      rewrite Nat2Z.inj_succ, Z.pow_succ_r in Hf by lia. lia. }
    destruct (IH (n / 10) (digit_byte (n mod 10) :: acc) rest lim e fuel Hq Hqf Hfuel)
      as [lim' ->].
    destruct fuel as [|fuel].
    { exfalso. clear -Hfuel. lia. }
    cbn [app]. rewrite headerLoopV11_digit by lia.
    assert (n / 10 * 10 + n mod 10 = n) as -> by (pose proof (Z.div_mod n 10); lia).
    rewrite wrap64_small by lia. exists (tail lim').
    apply headerLoopV11_fuel; cbn [r_data].
    all: pose proof (digits_length f (n / 10) (digit_byte (n mod 10) :: acc)) as Hl;
      rewrite length_app in *; cbn [length] in *; lia.
Qed.

Lemma utoa_digits n : 0 < n → n < 10 ^ Z.of_nat (S (Z.to_nat (Z.log2 n))).
Proof.
  intros Hn. destruct (Z.log2_spec n Hn) as [_ Hlt].
  pose proof (Z.log2_nonneg n) as Hlog.
  rewrite Nat2Z.inj_succ, Z2Nat.id by lia.
  eapply Z.lt_le_trans; [exact Hlt|].
  apply Z.pow_le_mono_l. lia.
Qed.

(** The header of a chunk of [n] bytes is read back as [n]. *)
Lemma headerLoopV11_Itoa n rest lim e fuel :
  0 < n < 2 ^ 63 →
  (length (Itoa n ++ NL :: rest) < fuel)%nat →
  ∃ lim', headerLoopV11 fuel 0 (mkReader (Itoa n ++ NL :: rest) lim e)
          = Some (n, None, mkReader rest lim' e).
Proof.
  intros Hn Hfuel. unfold Itoa in *.
  destruct (n <? 0) eqn:Hneg; [apply Z.ltb_lt in Hneg; lia|].
  unfold utoa in *.
  destruct (headerLoopV11_digits _ n [] (NL :: rest) lim e fuel Hn
              (utoa_digits n ltac:(lia)) Hfuel) as [lim' ->].
  destruct fuel as [|fuel]; [lia|].
  cbn [app headerLoopV11]. rewrite read1_cons.
  assert ((n =? 0) = false) as -> by (apply Z.eqb_neq; lia).
  assert ((0 <? n) = true) as -> by (apply Z.ltb_lt; lia).
  exists (tail lim'). reflexivity.
Qed.

Lemma Writer_Write_unlimited out e p :
  Writer_Write (mkWriter out None e) p = (None, mkWriter (out ++ p) None e).
Proof. reflexivity. Qed.

Lemma framerV11_Write_unlimited out e p :
  framerV11_Write (mkWriter out None e) p = (None, mkWriter (out ++ frameV11 p) None e).
Proof.
  unfold framerV11_Write, frameV11. case_decide; rewrite !Writer_Write_unlimited;
    [rewrite <- app_assoc|]; reflexivity.
Qed.

Lemma sendMessage_V11 chunks : ∀ out e,
  sendMessage V11 (mkWriter out None e) chunks
  = (None, mkWriter (out ++ wireV11 chunks) None e).
Proof.
  unfold sendMessage, wireV11.
  induction chunks as [|c chunks IH]; intros out e.
  - reflexivity.
  - cbn [writeAll framer_Write fmap list_fmap concat].
    rewrite framerV11_Write_unlimited.
    specialize (IH (out ++ frameV11 c) e).
    destruct (writeAll V11 _ chunks) as [[e'|] w']; [discriminate|].
    rewrite IH. rewrite <- !app_assoc. reflexivity.
Qed.

(** * Reading chunks back *)

Lemma chunkReadV11_in_chunk cur rest lim e plen :
  cur ≠ [] → (0 < plen)%nat →
  ∃ k lim', (1 ≤ k ≤ length cur)%nat ∧
    chunkReadV11 (Z.of_nat (length cur)) (mkReader (cur ++ rest) lim e) plen
    = (take k cur, None, mkU11 (Z.of_nat (length (drop k cur))) None,
       mkReader (drop k cur ++ rest) lim' e).
Proof.
  intros Hcur Hplen. destruct cur as [|b cur]; [done|].
  unfold chunkReadV11.
  set (plen' := if _ <? _ then _ else _).
  assert (0 < plen' ≤ length (b :: cur))%nat as Hp.
  { subst plen'. destruct (Z.ltb_spec (Z.of_nat (length (b :: cur))) (Z.of_nat plen));
      cbn [length] in *; lia. }
  cbn [app].
  destruct (Reader_Read_data plen' b (cur ++ rest) lim e ltac:(lia)) as (k & Hk & _ & ->).
  exists k, (tail lim). split; [lia|].
  change (b :: cur ++ rest) with ((b :: cur) ++ rest).
  rewrite take_app_le, drop_app_le by lia.
  rewrite length_take, length_drop.
  do 3 f_equal. lia.
Qed.

Lemma headerStartV11_ok data lim e :
  headerStartV11 (mkReader (NL :: HASH :: data) lim e)
  = (None, mkReader data (tail (tail lim)) e).
Proof. unfold headerStartV11. rewrite !read1_cons. reflexivity. Qed.

(** One [Read] with the reader at a chunk boundary. *)
Lemma unframerV11_Read_boundary chunks : ∀ rest lim e plen,
  Forall (λ c, Z.of_nat (length c) < 2 ^ 63) chunks → (0 < plen)%nat →
  (concat chunks = [] ∧
   ∃ lim', unframerV11_Read (mkU11 0 None) (mkReader (wireV11 chunks ++ rest) lim e) plen
           = Some ([], Some EOF, mkU11 0 (Some EOF), mkReader rest lim' e))
  ∨ (∃ bs cur chunks' lim',
       bs ≠ [] ∧ bs ++ cur ++ concat chunks' = concat chunks ∧
       Forall (λ c, Z.of_nat (length c) < 2 ^ 63) chunks' ∧
       unframerV11_Read (mkU11 0 None) (mkReader (wireV11 chunks ++ rest) lim e) plen
       = Some (bs, None, mkU11 (Z.of_nat (length cur)) None,
               mkReader (cur ++ wireV11 chunks' ++ rest) lim' e)).
Proof.
  induction chunks as [|c chunks IH]; intros rest lim e plen Hall Hplen.
  - left. split; [done|]. exists (tail (tail (tail (tail lim)))).
    unfold unframerV11_Read, headerV11. cbn [u11_err u11_len].
    rewrite bool_decide_eq_false_2 by (intros Hc; by apply Hc).
    rewrite bool_decide_eq_false_2 by lia.
    cbn [orb Z.eqb wireV11 fmap list_fmap concat app].
    rewrite headerStartV11_ok. cbn [r_data length headerLoopV11].
    rewrite !read1_cons. reflexivity.
  - apply Forall_cons in Hall as [Hc Hall]. cbn beta in Hc.
    destruct c as [|b c].
    + destruct (IH rest lim e plen Hall Hplen) as [[Hnil H]|H]; [left|right]; done.
    + right. set (n := Z.of_nat (length (b :: c))) in *.
      assert (0 < n < 2 ^ 63) as Hn by (subst n; cbn [length] in *; lia).
      unfold unframerV11_Read, headerV11. cbn [u11_err u11_len].
      rewrite bool_decide_eq_false_2 by (intros Hc'; by apply Hc').
      rewrite bool_decide_eq_false_2 by lia.
      cbn [orb Z.eqb].
      assert (wireV11 ((b :: c) :: chunks) ++ rest
              = NL :: HASH :: Itoa n ++ NL :: ((b :: c) ++ wireV11 chunks ++ rest)) as ->.
      { unfold wireV11 at 1. cbn [fmap list_fmap concat]. unfold frameV11 at 1.
        rewrite decide_True by (cbn [length]; lia).
        unfold chunk_header. fold n. unfold wireV11.
        repeat (progress (rewrite <- ?app_assoc; cbn [app])). reflexivity. }
      rewrite headerStartV11_ok. cbn [r_data].
      destruct (headerLoopV11_Itoa n ((b :: c) ++ wireV11 chunks ++ rest)
                  (tail (tail lim)) e
                  (S (length (Itoa n ++ NL :: (b :: c) ++ wireV11 chunks ++ rest)))
                  Hn (Nat.lt_succ_diag_r _)) as [lim1 ->].
      destruct (chunkReadV11_in_chunk (b :: c) (wireV11 chunks ++ rest) lim1 e plen
                  ltac:(done) Hplen) as (k & lim2 & Hk & Hrd).
      fold n in Hrd. rewrite Hrd.
      exists (take k (b :: c)), (drop k (b :: c)), chunks, lim2.
      split; [|split; [|split]].
      * destruct k; [lia|]. done.
      * cbn [concat]. rewrite !app_assoc, take_drop. reflexivity.
      * done.
      * reflexivity.
Qed.

(** One [Read] in any state reached while reading a message. *)
Lemma unframerV11_Read_step cur chunks rest lim e plen :
  Forall (λ c, Z.of_nat (length c) < 2 ^ 63) chunks → (0 < plen)%nat →
  (cur ++ concat chunks = [] ∧
   ∃ lim', unframerV11_Read (mkU11 (Z.of_nat (length cur)) None)
             (mkReader (cur ++ wireV11 chunks ++ rest) lim e) plen
           = Some ([], Some EOF, mkU11 0 (Some EOF), mkReader rest lim' e))
  ∨ (∃ bs cur' chunks' lim',
       bs ≠ [] ∧ bs ++ cur' ++ concat chunks' = cur ++ concat chunks ∧
       Forall (λ c, Z.of_nat (length c) < 2 ^ 63) chunks' ∧
       unframerV11_Read (mkU11 (Z.of_nat (length cur)) None)
         (mkReader (cur ++ wireV11 chunks ++ rest) lim e) plen
       = Some (bs, None, mkU11 (Z.of_nat (length cur')) None,
               mkReader (cur' ++ wireV11 chunks' ++ rest) lim' e)).
Proof.
  intros Hall Hplen. destruct cur as [|b cur].
  - cbn [app length Z.of_nat].
    destruct (unframerV11_Read_boundary chunks rest lim e plen Hall Hplen)
      as [H|(bs & cur' & chunks' & lim' & H)]; [left; exact H|right].
    exists bs, cur', chunks', lim'. exact H.
  - right.
    destruct (chunkReadV11_in_chunk (b :: cur) (wireV11 chunks ++ rest) lim e plen
                ltac:(done) Hplen) as (k & lim2 & Hk & Hrd).
    exists (take k (b :: cur)), (drop k (b :: cur)), chunks, lim2.
    split; [|split; [|split]].
    + destruct k; [lia|]. done.
    + rewrite !app_assoc, take_drop. reflexivity.
    + done.
    + unfold unframerV11_Read, headerV11. cbn [u11_err u11_len].
      rewrite bool_decide_eq_false_2 by (intros Hc'; by apply Hc').
      rewrite bool_decide_eq_false_2 by lia.
      cbn [orb].
      destruct (Z.eqb_spec (Z.of_nat (length (b :: cur))) 0) as [H0|_];
        [cbn [length] in H0; lia|].
      rewrite Hrd. reflexivity.
Qed.

Lemma readAll_V11 fuel : ∀ cur chunks rest lim e plen,
  Forall (λ c, Z.of_nat (length c) < 2 ^ 63) chunks → (0 < plen)%nat →
  (length (cur ++ concat chunks) < fuel)%nat →
  ∃ lim', readAll fuel (U11 (mkU11 (Z.of_nat (length cur)) None))
            (mkReader (cur ++ wireV11 chunks ++ rest) lim e) plen
          = Some (cur ++ concat chunks, EOF, U11 (mkU11 0 (Some EOF)),
                  mkReader rest lim' e).
Proof.
  induction fuel as [|fuel IH]; intros cur chunks rest lim e plen Hall Hplen Hfuel; [lia|].
  cbn [readAll unframer_Read].
  destruct (unframerV11_Read_step cur chunks rest lim e plen Hall Hplen)
    as [(Hnil & lim' & ->)|(bs & cur' & chunks' & lim' & Hbs & Heq & Hall' & ->)].
  - exists lim'. cbn. rewrite Hnil. reflexivity.
  - cbn [mbind option_bind].
    assert (length (cur' ++ concat chunks') < fuel)%nat as Hfuel'.
    { rewrite <- Heq, length_app in Hfuel. destruct bs; [done|]. cbn [length] in Hfuel. lia. }
    destruct (IH cur' chunks' rest lim' e plen Hall' Hplen Hfuel') as [lim'' ->].
    exists lim''. cbn. rewrite Heq. reflexivity.
Qed.

(** C1.  A message sent through the v1.1 framer as any list of chunks
    (each of a length an [int] can hold), then closed, reads back through
    the v1.1 unframer as the concatenation of the chunks followed by
    [io.EOF]: whatever sizes the transport's reads come in, whatever bytes
    follow the message on the wire, and for every buffer size of the
    caller.  The reading stops at the end of the message: the bytes after
    it are left on the transport, and the unframer stays at [io.EOF]. *)
Theorem v11_roundtrip chunks rest lim rerr werr plen fuel :
  Forall (λ c, Z.of_nat (length c) < 2 ^ 63) chunks →
  (0 < plen)%nat → (length (concat chunks) < fuel)%nat →
  ∃ wire lim',
    sendMessage V11 (mkWriter [] None werr) chunks = (None, mkWriter wire None werr)
    ∧ readAll fuel (U11 newUnframerV11) (mkReader (wire ++ rest) lim rerr) plen
      = Some (concat chunks, EOF, U11 (mkU11 0 (Some EOF)), mkReader rest lim' rerr).
Proof.
  intros Hall Hplen Hfuel.
  destruct (readAll_V11 fuel [] chunks rest lim rerr plen Hall Hplen Hfuel) as [lim' H].
  exists (wireV11 chunks), lim'. split.
  - apply sendMessage_V11.
  - exact H.
Qed.

Lemma length_blit dst i src :
  (i + length src ≤ length dst)%nat → length (blit dst i src) = length dst.
Proof. intros H. unfold blit. rewrite !length_app, length_take, length_drop. lia. Qed.

Lemma take_blit dst i src :
  (i + length src ≤ length dst)%nat → take (i + length src) (blit dst i src) = take i dst ++ src.
Proof.
  intros H. unfold blit. rewrite app_assoc.
  rewrite take_app_le by (rewrite length_app, length_take; lia).
  rewrite take_ge by (rewrite length_app, length_take; lia). reflexivity.
Qed.

Lemma fillV10_spec fuel : ∀ buffer len data lim e,
  length buffer = 6%nat → (len ≤ 6)%nat → (6 - len ≤ fuel)%nat →
  (6 ≤ len + length data)%nat →
  ∃ lim', fillV10 fuel buffer len (mkReader data lim e)
          = Some (take 6 (take len buffer ++ data), 6%nat, None,
                  mkReader (drop (6 - len) data) lim' e).
Proof.
  induction fuel as [|fuel IH]; intros buffer len data lim e Hb Hlen Hfuel Hdata.
  - assert (len = 6)%nat as -> by lia. exists lim. cbn [fillV10].
    rewrite decide_False by lia.
    rewrite take_app_le, take_take by (rewrite length_take; lia).
    rewrite take_ge by lia. reflexivity.
  - cbn [fillV10]. case_decide as Hlt.
    + rewrite Hb. destruct data as [|b data]; [cbn [length] in Hdata; lia|].
      destruct (Reader_Read_data (6 - len) b data lim e ltac:(lia)) as (k & Hk & Hk' & ->).
      set (bs := take k (b :: data)).
      assert (length bs = k) as Hbs by (subst bs; rewrite length_take; lia).
      destruct (IH (blit buffer len bs) (len + length bs)%nat (drop k (b :: data))
                  (tail lim) e) as [lim' ->].
      * rewrite length_blit; lia.
      * lia.
      * lia.
      * rewrite length_drop. lia.
      * exists lim'. rewrite take_blit by lia. rewrite <- app_assoc.
        subst bs. rewrite take_drop, drop_drop, Hbs.
        do 3 f_equal. f_equal. lia.
    + assert (len = 6)%nat as -> by lia. exists lim.
      rewrite take_app_le, take_take by (rewrite length_take; lia).
      rewrite take_ge by lia. reflexivity.
Qed.

Lemma scanV10_spec W n : ∀ i,
  (i + n = 6)%nat → length W = 6%nat →
  let j := scanV10 W i n in
  (i ≤ j ≤ 6)%nat ∧ drop j W = take (6 - j) eom
  ∧ ∀ j', (i ≤ j' < j)%nat → drop j' W ≠ take (6 - j') eom.
Proof.
  induction n as [|n IH]; intros i Hi HW; cbn [scanV10].
  - assert (i = 6)%nat as -> by lia. split; [lia|]. split.
    + rewrite drop_ge by lia. reflexivity.
    + intros j' ?. lia.
  - change (length eom) with 6%nat. case_decide as Hd.
    + split; [lia|]. split; [done|]. intros j' ?. lia.
    + destruct (IH (S i) ltac:(lia) HW) as (Hj & Hdrop & Hmin).
      split; [lia|]. split; [done|].
      intros j' Hj'. destruct (decide (j' = i)) as [->|]; [done|]. apply Hmin. lia.
Qed.

(** What one [Read] does, in terms of the pending bytes. *)
Lemma unframerV10_Read_spec c r plen :
  wfV10 c → (6 ≤ length (pendingV10 c r))%nat →
  let S := pendingV10 c r in
  let W := take 6 S in
  let j := scanV10 W 0 6 in
  ∃ lim',
    let r' := mkReader (drop 6 S) lim' (r_err r) in
    unframerV10_Read c r plen
    = if decide (j = 0)%nat then Some ([], Some EOF, mkU10 W 6 (Some EOF), r')
      else
        let n := (plen `min` j)%nat in
        Some (take n S, None, mkU10 (blit W 0 (drop n W)) (6 - n) None, r').
Proof.
  intros (Hb & Hlen & Herr) HS. destruct c as [buffer len err], r as [data lim e].
  unfold pendingV10 in *. cbn [u10_buffer u10_len u10_err r_data r_err] in *. subst err.
  rewrite length_app, length_take in HS.
  destruct (fillV10_spec 6 buffer len data lim e Hb Hlen ltac:(lia) ltac:(lia)) as [lim' Hfill].
  exists lim'. unfold unframerV10_Read. cbn [u10_err u10_buffer u10_len].
  rewrite Hb, Hfill.
  assert (length (take 6 (take len buffer ++ data)) = 6%nat) as HW.
  { rewrite length_take, length_app, length_take. lia. }
  rewrite HW.
  assert (drop 6 (take len buffer ++ data) = drop (6 - len) data) as ->.
  { rewrite drop_app_ge by (rewrite length_take; lia). rewrite length_take.
    f_equal. lia. }
  case_decide; [reflexivity|].
  pose proof (scanV10_spec _ 6 0%nat eq_refl HW) as (Hj & _).
  rewrite take_take. rewrite length_drop, HW.
  do 4 f_equal. f_equal. lia.
Qed.

Lemma pending_after_read W n tail_ :
  length W = 6%nat → (n ≤ 6)%nat →
  take (6 - n) (blit W 0 (drop n W)) ++ tail_ = drop n (W ++ tail_).
Proof.
  intros HW Hn.
  change (blit W 0 (drop n W)) with (drop n W ++ drop (length (drop n W)) W).
  assert (length (drop n W) = 6 - n)%nat as Hd by (rewrite length_drop; lia).
  rewrite take_app_le by lia. rewrite take_ge by lia.
  rewrite drop_app_le by lia. reflexivity.
Qed.

Lemma marker_free_drop B n : marker_free B → marker_free (drop n B).
Proof.
  intros HB j Hj. rewrite length_drop in Hj.
  specialize (HB (n + j)%nat ltac:(lia)).
  rewrite <- drop_drop in HB. rewrite drop_app_le in HB by lia. exact HB.
Qed.

Lemma unframerV10_Read_step c r B rest plen :
  wfV10 c → pendingV10 c r = B ++ eom ++ rest → marker_free B → (0 < plen)%nat →
  (B = [] ∧ ∃ lim',
     unframerV10_Read c r plen
     = Some ([], Some EOF, mkU10 eom 6 (Some EOF), mkReader rest lim' (r_err r)))
  ∨ (∃ n c' r', (1 ≤ n ≤ length B)%nat ∧
       unframerV10_Read c r plen = Some (take n B, None, c', r') ∧
       wfV10 c' ∧ pendingV10 c' r' = drop n B ++ eom ++ rest ∧ r_err r' = r_err r).
Proof.
  intros Hwf HS Hfree Hplen.
  assert (6 ≤ length (pendingV10 c r))%nat as Hlen.
  { rewrite HS, !length_app. change (length eom) with 6%nat. lia. }
  destruct (unframerV10_Read_spec c r plen Hwf Hlen) as [lim' Hread].
  cbn zeta in Hread. rewrite HS in Hread.
  set (W := take 6 (B ++ eom ++ rest)) in *.
  assert (length W = 6%nat) as HW.
  { subst W. rewrite length_take, !length_app. change (length eom) with 6%nat. lia. }
  assert (W = take 6 (B ++ eom)) as HWB.
  { subst W. rewrite (app_assoc B eom rest).
    rewrite take_app_le; [done|]. rewrite length_app. change (length eom) with 6%nat. lia. }
  destruct (scanV10_spec W 6 0%nat eq_refl HW) as (Hj & Hdrop & Hmin).
  set (j := scanV10 W 0 6) in *.
  destruct B as [|b B].
  - left. split; [done|]. exists lim'.
    assert (W = eom) as HWe by (rewrite HWB; reflexivity).
    assert (j = 0)%nat as Hj0.
    { destruct (decide (j = 0)%nat) as [|Hne]; [done|]. exfalso.
      apply (Hmin 0%nat); [lia|]. rewrite HWe. reflexivity. }
    rewrite Hj0 in Hread. rewrite decide_True in Hread by done.
    rewrite Hread, HWe. cbn [app]. reflexivity.
  - right.
    assert (j ≠ 0)%nat as Hj0.
    { intros Hj0. rewrite Hj0, drop_0 in Hdrop.
      apply (Hfree 0%nat); [cbn [length]; lia|].
      rewrite drop_0. exists (drop 6 ((b :: B) ++ eom)).
      rewrite <- (take_drop 6 ((b :: B) ++ eom)) at 1. rewrite <- HWB, Hdrop. reflexivity. }
    assert (j ≤ length (b :: B))%nat as HjB.
    { destruct (decide (j ≤ length (b :: B))%nat) as [|Hgt]; [done|]. exfalso.
      apply (Hmin (length (b :: B))); [lia|].
      rewrite HWB, take_app_ge by lia. rewrite drop_app_length. reflexivity. }
    rewrite decide_False in Hread by done.
    set (n := (plen `min` j)%nat) in *.
    assert (1 ≤ n ≤ 6)%nat as Hn by lia.
    eexists n, _, _. split; [lia|]. split; [|split; [|split]].
    + rewrite Hread. rewrite take_app_le by lia. reflexivity.
    + split; [|split]; cbn [u10_buffer u10_len u10_err]; [|lia|done].
      rewrite length_blit; [done|]. cbn [Nat.add]. rewrite length_drop. lia.
    + unfold pendingV10. cbn [u10_buffer u10_len r_data].
      rewrite pending_after_read by lia.
      subst W. rewrite take_drop. rewrite drop_app_le by lia. reflexivity.
    + reflexivity.
Qed.

Lemma readAll_V10 fuel : ∀ c r B rest plen,
  wfV10 c → pendingV10 c r = B ++ eom ++ rest → marker_free B → (0 < plen)%nat →
  (length B < fuel)%nat →
  ∃ lim', readAll fuel (U10 c) r plen
          = Some (B, EOF, U10 (mkU10 eom 6 (Some EOF)), mkReader rest lim' (r_err r)).
Proof.
  induction fuel as [|fuel IH]; intros c r B rest plen Hwf HS Hfree Hplen Hfuel; [lia|].
  cbn [readAll unframer_Read].
  destruct (unframerV10_Read_step c r B rest plen Hwf HS Hfree Hplen)
    as [(-> & lim' & ->)|(n & c' & r' & Hn & -> & Hwf' & HS' & He)].
  - exists lim'. reflexivity.
  - cbn [mbind option_bind].
    destruct (IH c' r' (drop n B) rest plen Hwf' HS' (marker_free_drop B n Hfree) Hplen)
      as [lim' ->].
    { rewrite length_drop. lia. }
    exists lim'. cbn. rewrite take_drop, He. reflexivity.
Qed.

Lemma marker_free_intro B :
  ¬ contains eom B → ¬ [RBRACK; RBRACK; GT] `suffix_of` B → marker_free B.
Proof.
  intros Hc Hs j Hj [k Hk].
  rewrite drop_app_le in Hk by lia.
  pose proof (take_drop j B) as HB.
  assert (length (drop j B) ≠ 0)%nat as Hlen by (rewrite length_drop; lia).
  destruct (drop j B) as [|t1 [|t2 [|t3 [|t4 [|t5 [|t6 T]]]]]];
    unfold eom in *; simplify_eq/=.
  - apply Hs. exists (take j B). symmetry. exact HB.
  - apply Hc. exists (take j B), T. symmetry. exact HB.
Qed.

Lemma writeAll_V10 chunks : ∀ out e,
  writeAll V10 (mkWriter out None e) chunks
  = (None, mkWriter (out ++ concat chunks) None e).
Proof.
  induction chunks as [|c chunks IH]; intros out e; cbn [writeAll concat].
  - rewrite app_nil_r. reflexivity.
  - cbn [framer_Write]. unfold framerV10_Write. rewrite Writer_Write_unlimited.
    rewrite IH, <- app_assoc. reflexivity.
Qed.

Lemma sendMessage_V10 chunks out e :
  sendMessage V10 (mkWriter out None e) chunks
  = (None, mkWriter (out ++ concat chunks ++ eom) None e).
Proof.
  unfold sendMessage. rewrite writeAll_V10. cbn [framer_Close].
  unfold framerV10_Close. rewrite Writer_Write_unlimited, <- app_assoc. reflexivity.
Qed.

(** C2, amended.  A message whose bytes [B] neither contain the marker
    [eom] nor end with its first half reads back through the v1.0 unframer
    as [B] followed by [io.EOF], with the bytes after the marker left on
    the transport. *)
Theorem v10_roundtrip chunks rest lim rerr werr plen fuel :
  let B := concat chunks in
  ¬ contains eom B → ¬ [RBRACK; RBRACK; GT] `suffix_of` B →
  (0 < plen)%nat → (length B < fuel)%nat →
  ∃ wire lim',
    sendMessage V10 (mkWriter [] None werr) chunks = (None, mkWriter wire None werr)
    ∧ readAll fuel (U10 newUnframerV10) (mkReader (wire ++ rest) lim rerr) plen
      = Some (B, EOF, U10 (mkU10 eom 6 (Some EOF)), mkReader rest lim' rerr).
Proof.
  intros B Hc Hs Hplen Hfuel.
  destruct (readAll_V10 fuel newUnframerV10 (mkReader ((B ++ eom) ++ rest) lim rerr)
              B rest plen) as [lim' H].
  - repeat split; cbn; lia.
  - unfold pendingV10. cbn. rewrite <- app_assoc. reflexivity.
  - by apply marker_free_intro.
  - done.
  - done.
  - exists (B ++ eom), lim'. split; [|exact H].
    rewrite sendMessage_V10. reflexivity.
Qed.

(** C2, amended, at a four-byte message written in two parts and read
    from a transport with short reads. *)
Lemma v10_roundtrip_witness :
  ∃ wire lim',
    sendMessage V10 (mkWriter [] None EOF) [[x3c; x61]; [x2f; x3e]]
    = (None, mkWriter wire None EOF)
    ∧ readAll 5 (U10 newUnframerV10) (mkReader (wire ++ [NL]) [0%nat; 2%nat] EOF) 16
      = Some ([x3c; x61; x2f; x3e], EOF, U10 (mkU10 eom 6 (Some EOF)),
              mkReader [NL] lim' EOF).
Proof.
  apply (v10_roundtrip [[x3c; x61]; [x2f; x3e]] [NL] [0%nat; 2%nat] EOF EOF 16 5).
  - intros (pre & post & H). apply (f_equal length) in H.
    rewrite !length_app in H. cbn in H. lia.
  - intros [k H]. apply (f_equal reverse) in H.
    rewrite reverse_app in H. vm_compute in H. discriminate.
  - lia.
  - cbn. lia.
Defined.

(** C2 as stated fails: the three bytes of half a marker do not contain
    the marker, yet they read back as the empty message, and stay on the
    transport. *)
Lemma v10_partial_marker_counterexample :
  let B := [RBRACK; RBRACK; GT] in
  ¬ contains eom B
  ∧ sendMessage V10 (mkWriter [] None EOF) [B] = (None, mkWriter (B ++ eom) None EOF)
  ∧ readAll 5 (U10 newUnframerV10) (mkReader (B ++ eom) [] EOF) 16
    = Some ([], EOF, U10 (mkU10 eom 6 (Some EOF)), mkReader B [] EOF)
  ∧ B ≠ [].
Proof.
  cbv zeta. split; [|split; [|split]].
  - intros (pre & post & H). apply (f_equal length) in H.
    rewrite !length_app in H. cbn in H. lia.
  - reflexivity.
  - vm_compute. reflexivity.
  - discriminate.
Qed.

(** * Every [Read] returns *)

Lemma Reader_Read_cases r n :
  (0 < n)%nat →
  (r_data r = [] ∧ Reader_Read r n = ([], Some (r_err r), r))
  ∨ (∃ k, (1 ≤ k ≤ n)%nat ∧ (k ≤ length (r_data r))%nat ∧
       Reader_Read r n
       = (take k (r_data r), None, mkReader (drop k (r_data r)) (tail (r_limits r)) (r_err r))).
Proof.
  intros Hn. destruct r as [[|b data] lim e].
  - left. split; [done|]. by apply Reader_Read_nil.
  - right. exact (Reader_Read_data n b data lim e Hn).
Qed.

Lemma headerLoopV11_total fuel : ∀ len r,
  (length (r_data r) < fuel)%nat → is_Some (headerLoopV11 fuel len r).
Proof.
  induction fuel as [|fuel IH]; intros len [data lim e] Hfuel; [lia|].
  cbn [r_data] in Hfuel. cbn [headerLoopV11].
  destruct data as [|b data]; [rewrite read1_nil; done|].
  rewrite read1_cons.
  destruct ((len =? 0) && bool_decide (b = HASH)).
  { destruct data as [|b' data]; [rewrite read1_nil; done|].
    rewrite read1_cons. case_decide; done. }
  destruct (is_digit b).
  { apply IH. cbn [r_data length] in *. lia. }
  destruct (bool_decide (b = NL) && (0 <? len)); done.
Qed.

Lemma unframerV11_Read_total c r plen : is_Some (unframerV11_Read c r plen).
Proof.
  unfold unframerV11_Read, headerV11.
  destruct (bool_decide (u11_err c ≠ None) || bool_decide (plen = 0%nat)); [done|].
  destruct (u11_len c =? 0); [|done].
  destruct (headerStartV11 r) as [[e|] r1]; [done|].
  destruct (headerLoopV11_total (S (length (r_data r1))) (u11_len c) r1)
    as [[[len [e|]] r2] ->]; [lia|done|done].
Qed.

Lemma fillV10_total fuel : ∀ buffer len r,
  (length buffer - len ≤ fuel)%nat → is_Some (fillV10 fuel buffer len r).
Proof.
  induction fuel as [|fuel IH]; intros buffer len r Hfuel; cbn [fillV10].
  - rewrite decide_False by lia. done.
  - case_decide as Hlt; [|done].
    destruct (Reader_Read_cases r (length buffer - len) ltac:(lia))
      as [[_ ->]|(k & Hk & Hk' & ->)]; [done|].
    apply IH. rewrite length_blit; rewrite length_take; lia.
Qed.

Lemma unframerV10_Read_total c r plen : is_Some (unframerV10_Read c r plen).
Proof.
  unfold unframerV10_Read. destruct (u10_err c); [done|].
  destruct (fillV10_total (length (u10_buffer c)) (u10_buffer c) (u10_len c) r)
    as [[[[buffer len] [e|]] r'] ->]; [lia|done|].
  case_decide; done.
Qed.

Lemma unframer_Read_total u r plen : is_Some (unframer_Read u r plen).
Proof.
  destruct u as [c|c]; cbn [unframer_Read].
  - destruct (unframerV10_Read_total c r plen) as [[[[bs err] c'] r'] ->]. done.
  - destruct (unframerV11_Read_total c r plen) as [[[[bs err] c'] r'] ->]. done.
Qed.

(** Once a [Read] has returned an error, every later [Read] returns it
    again and takes nothing from the transport. *)
Lemma unframer_Read_error_sticky u r plen bs e u' r' plen' r'' :
  unframer_Read u r plen = Some (bs, Some e, u', r') →
  unframer_Read u' r'' plen' = Some ([], Some e, u', r'').
Proof.
  destruct u as [c|c]; cbn [unframer_Read]; intros Hread.
  - destruct (unframerV10_Read c r plen) as [[[[bs0 err0] c0] r0]|] eqn:Hc; [|done].
    cbn in Hread. simplify_eq. cbn [unframer_Read].
    assert (u10_err c0 = Some e) as He.
    { unfold unframerV10_Read in Hc. destruct (u10_err c) eqn:Hce.
      - by simplify_eq.
      - destruct (fillV10 _ _ _ _) as [[[[buffer len] [e'|]] r1]|]; [| |done].
        + by simplify_eq.
        + case_decide; by simplify_eq. }
    unfold unframerV10_Read. rewrite He. reflexivity.
  - destruct (unframerV11_Read c r plen) as [[[[bs0 err0] c0] r0]|] eqn:Hc; [|done].
    cbn in Hread. simplify_eq. cbn [unframer_Read].
    assert (u11_err c0 = Some e) as He.
    { unfold unframerV11_Read in Hc.
      destruct (bool_decide (u11_err c ≠ None) || bool_decide (plen = 0%nat)).
      - by simplify_eq.
      - destruct (headerV11 c r) as [[[len [e'|]] r1]|]; [| |done].
        + by simplify_eq.
        + unfold chunkReadV11 in Hc.
          destruct (Reader_Read r1 _) as [[bs1 [e1|]] r2]; by simplify_eq. }
    unfold unframerV11_Read. rewrite He.
    rewrite bool_decide_eq_true_2 by done. reflexivity.
Qed.

(** * Where the unframers report the end of a message *)

Lemma eof_is_framing_not_EOF e : eof_is_framing e ≠ EOF.
Proof. unfold eof_is_framing. case_decide; [discriminate|done]. Qed.

Ltac not_eof H :=
  exfalso; injection H; intros; eapply eof_is_framing_not_EOF; eassumption.

Lemma read1_cases r :
  (r_data r = [] ∧ read1 r = (x00, Some (r_err r), r))
  ∨ (∃ b data, r_data r = b :: data ∧
       read1 r = (b, None, mkReader data (tail (r_limits r)) (r_err r))).
Proof.
  destruct r as [[|b data] lim e]; [left|right].
  - split; [done|]. apply read1_nil.
  - exists b, data. split; [done|]. apply read1_cons.
Qed.

(** The header loop ends in [io.EOF] only after digits, a hash and a
    newline, with the length still at zero. *)
Lemma headerLoopV11_EOF fuel : ∀ len r len' r',
  headerLoopV11 fuel len r = Some (len', Some EOF, r') →
  len' = 0 ∧ r_err r' = r_err r
  ∧ ∃ ds, r_data r = ds ++ HASH :: NL :: r_data r'
          ∧ Forall (λ b, is_digit b = true) ds.
Proof.
  induction fuel as [|fuel IH]; intros len r len' r' Hloop; [done|].
  cbn [headerLoopV11] in Hloop.
  destruct (read1_cases r) as [[_ Hr]|(b & data & Hdata & Hr)]; rewrite Hr in Hloop.
  { not_eof Hloop. }
  destruct ((len =? 0) && bool_decide (b = HASH)) eqn:Hhash.
  - apply andb_true_iff in Hhash as [Hlen Hb].
    apply Z.eqb_eq in Hlen. apply bool_decide_eq_true_1 in Hb. subst b.
    destruct (read1_cases (mkReader data (tail (r_limits r)) (r_err r)))
      as [[_ Hr2]|(b2 & data2 & Hdata2 & Hr2)]; rewrite Hr2 in Hloop.
    { not_eof Hloop. }
    cbn [r_data r_limits r_err] in *. case_decide; simplify_eq.
    split; [done|]. split; [done|]. exists []. cbn [r_data app]. split; [|constructor].
    rewrite Hdata. reflexivity.
  - destruct (is_digit b) eqn:Hdig.
    + apply IH in Hloop as (Hlen' & Herr & ds & Hds & Hall).
      split; [done|]. split; [done|]. exists (b :: ds).
      cbn [r_data app] in *. rewrite Hdata, Hds. split; [done|]. by constructor.
    + destruct (bool_decide (b = NL) && (0 <? len)); simplify_eq.
Qed.

(** A v1.1 [Read] reports the end of the message only when the transport
    held a newline, a hash, digits (none, in a well-formed marker), a hash
    and a newline. *)
Lemma unframerV11_Read_EOF c r plen bs c' r' :
  u11_err c = None → unframerV11_Read c r plen = Some (bs, Some EOF, c', r') →
  u11_len c = 0
  ∧ ∃ ds, r_data r = NL :: HASH :: ds ++ HASH :: NL :: r_data r'
          ∧ Forall (λ b, is_digit b = true) ds.
Proof.
  intros Hc Hread. unfold unframerV11_Read in Hread. rewrite Hc in Hread.
  rewrite bool_decide_eq_false_2 in Hread by (intros H; by apply H).
  cbn [orb] in Hread. case_bool_decide; [done|].
  unfold headerV11 in Hread.
  destruct (Z.eqb_spec (u11_len c) 0) as [Hlen|Hlen].
  - split; [done|]. unfold headerStartV11 in Hread.
    destruct (read1_cases r) as [[_ Hr]|(b & data & Hdata & Hr)]; rewrite Hr in Hread.
    { not_eof Hread. }
    case_decide; [subst b|simplify_eq].
    destruct (read1_cases (mkReader data (tail (r_limits r)) (r_err r)))
      as [[_ Hr2]|(b2 & data2 & Hdata2 & Hr2)]; rewrite Hr2 in Hread.
    { not_eof Hread. }
    cbn [r_data r_limits r_err] in *. case_decide; [subst b2|simplify_eq].
    destruct (headerLoopV11 _ _ _) as [[[len [e|]] r1]|] eqn:Hloop; [| |done].
    + simplify_eq. apply headerLoopV11_EOF in Hloop as (_ & _ & ds & Hds & Hall).
      cbn [r_data] in Hds. exists ds. rewrite Hdata, Hds. done.
    + unfold chunkReadV11 in Hread.
      destruct (Reader_Read r1 _) as [[bs1 [e1|]] r2]; [not_eof Hread|done].
  - unfold chunkReadV11 in Hread.
    destruct (Reader_Read r _) as [[bs1 [e1|]] r2]; [not_eof Hread|done].
Qed.

(** What the window-filling loop keeps: the pending bytes. *)
Lemma fillV10_pending fuel : ∀ buffer len r buffer' len' err r',
  (len ≤ length buffer)%nat →
  fillV10 fuel buffer len r = Some (buffer', len', err, r') →
  length buffer' = length buffer ∧ (len' ≤ length buffer)%nat
  ∧ take len' buffer' ++ r_data r' = take len buffer ++ r_data r
  ∧ (err = None → len' = length buffer)
  ∧ (∀ e, err = Some e → e ≠ EOF ∧ (len' < length buffer)%nat ∧ r_data r' = []).
Proof.
  induction fuel as [|fuel IH]; intros buffer len r buffer' len' err r' Hlen Hfill;
    cbn [fillV10] in Hfill.
  - case_decide; simplify_eq. repeat split; try done; lia.
  - case_decide as Hlt; [|simplify_eq; repeat split; try done; lia].
    destruct (Reader_Read_cases r (length buffer - len) ltac:(lia))
      as [[Hnil Hr]|(k & Hk & Hk' & Hr)]; rewrite Hr in Hfill.
    + simplify_eq. split; [done|]. split; [lia|]. split; [done|]. split; [done|].
      intros e0 He0. simplify_eq. split; [apply eof_is_framing_not_EOF|]. split; [lia|done].
    + set (bs := take k (r_data r)) in *.
      assert (length bs = k) as Hbs by (subst bs; rewrite length_take; lia).
      apply IH in Hfill; [|rewrite length_blit; lia].
      destruct Hfill as (Hb & Hl & Hp & Hn & He).
      rewrite length_blit in * by lia.
      split; [done|]. split; [done|]. split; [|split; [done|]].
      * rewrite Hp. cbn [r_data]. rewrite take_blit by lia.
        rewrite <- app_assoc. subst bs. rewrite take_drop. reflexivity.
      * intros e Hee. destruct (He e Hee) as (? & ? & ?). done.
Qed.

(** A v1.0 [Read] reports the end of the message only when the pending
    bytes start with the marker. *)
Lemma unframerV10_Read_EOF c r plen bs c' r' :
  wfV10 c → unframerV10_Read c r plen = Some (bs, Some EOF, c', r') →
  pendingV10 c r = eom ++ r_data r'.
Proof.
  intros (Hb & Hlen & Herr) Hread. unfold unframerV10_Read in Hread.
  rewrite Herr in Hread.
  destruct (fillV10 _ _ _ _) as [[[[buffer len] err] r1]|] eqn:Hfill; [|done].
  apply fillV10_pending in Hfill as (Hb' & Hl & Hp & Hn & He); [|lia].
  destruct err as [e|].
  { simplify_eq. by destruct (He EOF eq_refl). }
  specialize (Hn eq_refl). subst len. case_decide as Hi; simplify_eq.
  unfold pendingV10. rewrite <- Hp. f_equal.
  destruct (scanV10_spec buffer 6 0%nat eq_refl ltac:(lia)) as (_ & Hdrop & _).
  rewrite Hb', Hb in Hi. rewrite Hi, drop_0 in Hdrop.
  rewrite take_ge by lia. exact Hdrop.
Qed.

(** On a transport that ends with [io.EOF], the only errors of a [Read]
    are [io.EOF] and [ErrFraming]. *)
Lemma headerLoopV11_errors fuel : ∀ len r len' e r',
  r_err r = EOF → headerLoopV11 fuel len r = Some (len', Some e, r') →
  e = EOF ∨ e = ErrFraming.
Proof.
  induction fuel as [|fuel IH]; intros len r len' e r' Hr Hloop; [done|].
  cbn [headerLoopV11] in Hloop.
  destruct (read1_cases r) as [[_ Hr1]|(b & data & Hdata & Hr1)]; rewrite Hr1 in Hloop.
  { simplify_eq. rewrite Hr. by right. }
  destruct ((len =? 0) && bool_decide (b = HASH)).
  - destruct (read1_cases (mkReader data (tail (r_limits r)) (r_err r)))
      as [[_ Hr2]|(b2 & data2 & Hdata2 & Hr2)]; rewrite Hr2 in Hloop.
    + simplify_eq. cbn [r_err]. rewrite Hr. by right.
    + case_decide; simplify_eq; auto.
  - destruct (is_digit b).
    + eapply IH; [|exact Hloop]. done.
    + destruct (bool_decide (b = NL) && (0 <? len)); simplify_eq. by right.
Qed.

(** * Call: selection of the reply *)

Lemma tokenLoop_rootToken `{XML} fuel : ∀ d resp u r,
  tokenLoop fuel d resp u r
  = '(root, err, d', u', r') ← rootToken fuel d u r;
    match root with
    | Some element =>
        if decide (Local (se_Name element) = "rpc-reply") then
          '(err', resp', _, u'', r'') ← Decoder_DecodeElement d' resp element u' r';
          Some (err', true, resp', u'', r'')
        else Some (err, false, resp, u', r')
    | None => Some (err, false, resp, u', r')
    end.
Proof.
  induction fuel as [|fuel IH]; intros d resp u r; [reflexivity|].
  cbn [tokenLoop rootToken].
  destruct (Decoder_Token d u r) as [[[[[token err] d'] u'] r']|]; [|reflexivity].
  cbn [mbind option_bind].
  destruct token as [[element| | | | |]|]; try (destruct err; [reflexivity|apply IH]).
  reflexivity.
Qed.


(** * Message ids *)

Lemma Session_Call_messageID `{XML} fuel s request response res :
  Session_Call fuel s request response = Some res →
  messageID (call_session res) = wrap64 (messageID s + 1)
  ∧ call_element res = rpc_element (wrap64 (messageID s + 1)).
Proof.
  unfold Session_Call. intros Hcall.
  destruct (encodeTo _ _ _) as [err w].
  destruct (match err with None => _ | Some e => _ end) as [err1 w1].
  destruct (replyLoop _ _ _ _ _ _) as [[[err' response'] r]|]; [|discriminate].
  cbn in Hcall. injection Hcall as <-. split; reflexivity.
Qed.



Lemma newSession_messageID `{XML} t s :
  newSession t = Some (Opened s) → messageID s = 0.
Proof.
  unfold newSession. destruct (helloExchange t) as [[[e t']|[hello t']]|]; try done.
  cbn [mbind option_bind]. unfold negotiate.
  repeat case_decide; intros Hs; by simplify_eq.
Qed.


(** * Capabilities *)

Lemma SplitN2_shape s :
  (∃ k, SplitN2 s = [k]) ∨ (∃ k v, SplitN2 s = [k; v]).
Proof.
  induction s as [|c s IH]; cbn [SplitN2]; [left; eauto|].
  case_decide; [right; eauto|].
  destruct IH as [[k ->]|(k & v & ->)]; [left|right]; eauto.
Qed.

Lemma parseCapability_insert m c :
  ∃ v, parseCapability m c = <[capability_uri c := v]> m.
Proof.
  unfold parseCapability, capability_uri.
  destruct (SplitN2_shape c) as [[k ->]|(k & v & ->)]; cbn; eauto.
Qed.

Lemma parseCapabilities_lookup caps uri : ∀ m,
  is_Some (foldl parseCapability m caps !! uri)
  ↔ is_Some (m !! uri) ∨ advertises caps uri.
Proof.
  unfold advertises.
  induction caps as [|c caps IH]; intros m; cbn [foldl].
  - split; [auto|]. intros [?|(c & Hc & _)]; [done|]. by apply elem_of_nil in Hc.
  - rewrite IH. destruct (parseCapability_insert m c) as [v ->].
    rewrite lookup_insert_is_Some. split.
    + intros [[Hc|[_ ?]]|(c' & Hc' & Hu)]; [right|left|right].
      * exists c. split; [left|done].
      * done.
      * exists c'. split; [by right|done].
    + intros [Hm|(c' & Hc' & Hu)].
      * destruct (decide (capability_uri c = uri)); [left; by left|left; right; done].
      * apply elem_of_cons in Hc' as [Heq|Hc']; [subst c'; left; by left|right; eauto].
Qed.

Lemma advertises_spec caps uri :
  is_Some (parseCapabilities caps !! uri) ↔ advertises caps uri.
Proof.
  unfold parseCapabilities. rewrite parseCapabilities_lookup, lookup_empty.
  split; [intros [[? ?]|?]; done|auto].
Qed.

(** C4.  After a hello exchange that returned the server's hello with a
    session id other than zero, [newSession] yields a session whose framer
    and unframer are v1.1 exactly when a capability of the hello has the
    URI of base:1.1, and v1.0 otherwise; it yields one whenever base:1.1
    or base:1.0 is advertised, and fails with [ErrCapabilitiesExchange]
    when neither is. *)
Theorem codec_selection_after_hello `{XML} t hello t' :
  helloExchange t = Some (inr (hello, t')) → hello_SessionID hello ≠ 0 →
  let caps := hello_Capabilities hello in
  (∀ s, newSession t = Some (Opened s) →
        (newFramer s = V11 ∧ newUnframer s = V11 ↔ advertises caps CapNetconf11)
        ∧ (newFramer s = V10 ∧ newUnframer s = V10 ↔ ¬ advertises caps CapNetconf11))
  ∧ (advertises caps CapNetconf11 →
     ∃ s, newSession t = Some (Opened s) ∧ newFramer s = V11 ∧ newUnframer s = V11)
  ∧ (¬ advertises caps CapNetconf11 → advertises caps CapNetconf10 →
     ∃ s, newSession t = Some (Opened s) ∧ newFramer s = V10 ∧ newUnframer s = V10)
  ∧ (¬ advertises caps CapNetconf11 → ¬ advertises caps CapNetconf10 →
     newSession t = Some (Failed ErrCapabilitiesExchange t')).
Proof.
  intros Hex Hid caps. unfold newSession. rewrite Hex. cbn [mbind option_bind].
  unfold negotiate. rewrite decide_False by done. fold caps.
  pose proof (advertises_spec caps CapNetconf11) as H11.
  pose proof (advertises_spec caps CapNetconf10) as H10.
  destruct (decide (is_Some (parseCapabilities caps !! CapNetconf11))) as [Y11|N11].
  - apply H11 in Y11. split; [|split; [|split]].
    + intros s Hs. simplify_eq. cbn [newFramer newUnframer].
      split; (split; [|intros Hn]); [done|done|by intros [? _]|by destruct Hn].
    + intros _. eexists. split; [reflexivity|]. done.
    + done.
    + done.
  - rewrite H11 in N11.
    destruct (decide (is_Some (parseCapabilities caps !! CapNetconf10))) as [Y10|N10].
    + apply H10 in Y10. split; [|split; [|split]].
      * intros s Hs. simplify_eq. cbn [newFramer newUnframer].
        split; (split; [|intros Hn]); [by intros [? _]|by destruct N11|done|done].
      * done.
      * intros _ _. eexists. split; [reflexivity|]. done.
      * done.
    + rewrite H10 in N10. split; [|split; [|split]]; try done.
Qed.

(** * Opening a session over SSH *)

Lemma helloExchange_failure `{XML} t e :
  (∃ t', helloExchange t = Some (inl (e, t'))) ↔ HelloFailure t e.
Proof.
  unfold helloExchange. split.
  - intros [t' Hex].
    destruct (encodeTo V10 (t_out t) _) as [[e1|] w] eqn:Hsend.
    { simplify_eq. by eapply fail_send. }
    destruct (framer_Close V10 w) as [[e2|] w'] eqn:Hclose.
    { simplify_eq. by eapply fail_terminator. }
    cbn [with_out t_in] in Hex.
    destruct (Decoder_DecodeHello _ _ _ _) as [[[[[err hello] d] u] r]|] eqn:Hdec;
      [|discriminate].
    cbn [mbind option_bind] in Hex. destruct err as [e3|].
    { simplify_eq. by eapply fail_decode. }
    destruct (unframer_Close u r) as [[[err' u'] r']|] eqn:Hdrain; [|discriminate].
    cbn [mbind option_bind] in Hex. destruct err' as [e4|]; [|discriminate].
    simplify_eq. by eapply fail_drain.
  - intros [e' w Hs|e' w w' Hs Hc|e' w w' hello d u r Hs Hc Hd
            |e' w w' hello d u r u' r' Hs Hc Hd Hdr];
      rewrite Hs; [eauto|rewrite Hc; eauto| |].
    + rewrite Hc. cbn [with_out t_in]. rewrite Hd. cbn. eauto.
    + rewrite Hc. cbn [with_out t_in]. rewrite Hd. cbn. rewrite Hdr. cbn. eauto.
Qed.

Lemma negotiate_failure t hello e t' :
  negotiate t hello = Failed e t' →
  e = ErrCapabilitiesExchange ∧ t' = t
  ∧ (hello_SessionID hello = 0
     ∨ (hello_SessionID hello ≠ 0
        ∧ ¬ advertises (hello_Capabilities hello) CapNetconf11
        ∧ ¬ advertises (hello_Capabilities hello) CapNetconf10)).
Proof.
  unfold negotiate. rewrite <- !advertises_spec.
  repeat case_decide; intros Hn; simplify_eq; auto 10.
Qed.

Lemma init_failure `{XML} s e t :
  sshSessionTransport_init s = Some (Failed e t) → OpenFailure s e.
Proof.
  unfold sshSessionTransport_init.
  destruct (ssh_StdinPipe s) as [e1|] eqn:H1.
  { intros; simplify_eq. by apply fail_StdinPipe. }
  destruct (ssh_StdoutPipe s) as [e2|] eqn:H2.
  { intros; simplify_eq. by apply fail_StdoutPipe. }
  destruct (ssh_RequestSubsystem s) as [e3|] eqn:H3.
  { intros; simplify_eq. by apply fail_RequestSubsystem. }
  unfold newSession.
  destruct (helloExchange (ssh_channel s)) as [[[e4 t4]|[hello t4]]|] eqn:Hex;
    cbn [mbind option_bind]; [| |discriminate].
  - intros; simplify_eq. apply fail_hello; try done.
    apply helloExchange_failure. eauto.
  - intros Hn. injection Hn as Hn.
    apply negotiate_failure in Hn as (-> & -> & [Hid|(Hid & H11 & H10)]).
    + by eapply fail_session_id.
    + by eapply fail_version.
Qed.

Lemma init_failure_complete `{XML} s e :
  OpenFailure s e → ∃ t, sshSessionTransport_init s = Some (Failed e t).
Proof.
  unfold sshSessionTransport_init, newSession.
  intros [e' H1|e' H1 H2|e' H1 H2 H3|e' H1 H2 H3 Hh|hello t H1 H2 H3 Hex Hid
          |hello t H1 H2 H3 Hex Hid H11 H10];
    rewrite H1; [eauto|rewrite H2; eauto|rewrite H2, H3; eauto| | |];
    rewrite H2, H3.
  - apply helloExchange_failure in Hh as [t' ->]. cbn. eauto.
  - rewrite Hex. cbn. unfold negotiate. rewrite decide_True by done. eauto.
  - rewrite Hex. cbn. unfold negotiate. rewrite decide_False by done.
    rewrite <- advertises_spec in H11, H10.
    rewrite !decide_False by done. eauto.
Qed.

(** The failures of [NewSession] on an SSH session it was given.
    Whenever [NewSession] of the SSH client returns an error, the
    SSH session is closed and the error is that of the first step that
    failed; and every failure of a step on the SSH session, the earlier
    ones having succeeded, is returned so: a pipe or the subsystem
    request, the four steps of the hello exchange, a session id of zero
    and a hello without base:1.0 and base:1.1, the last two as
    [ErrCapabilitiesExchange]. *)
Theorem failed_open_closes_transport `{XML} c :
  (∀ e t, sshClient_NewSession c = Some (NS_Error e t) →
          t_closed t = true
          ∧ ∃ s, client_NewSession c = inl s ∧ OpenFailure s e)
  ∧ (∀ s e, client_NewSession c = inl s → OpenFailure s e →
            ∃ t, sshClient_NewSession c = Some (NS_Error e t) ∧ t_closed t = true).
Proof.
  unfold sshClient_NewSession. split.
  - intros e t Hopen. destruct (client_NewSession c) as [s|e0]; [|discriminate].
    destruct (sshSessionTransport_init s) as [[session|e' t']|] eqn:Hinit;
      cbn [mbind option_bind] in Hopen; simplify_eq.
    split; [reflexivity|]. exists s. split; [done|]. by eapply init_failure.
  - intros s e -> Hfail. apply init_failure_complete in Hfail as [t ->].
    cbn. eauto.
Qed.

(** C3.  The header of a chunk of length zero followed by a hash and a
    newline is no chunk header and no end-of-chunks marker, yet the v1.1
    unframer takes it for the end of the message: [Read] returns [io.EOF],
    not [ErrFraming]. *)
Theorem v11_zero_length_header_ends_message :
  unframerV11_Read newUnframerV11 (stream [NL; HASH; x30; HASH; NL]) 16
  = Some ([], Some EOF, mkU11 0 (Some EOF), stream []).
Proof. vm_compute. reflexivity. Qed.

Lemma unframerV11_Read_sticky c r plen e :
  u11_err c = Some e → unframerV11_Read c r plen = Some ([], Some e, c, r).
Proof.
  intros He. unfold unframerV11_Read. rewrite He.
  rewrite bool_decide_eq_true_2 by done. reflexivity.
Qed.

Lemma unframerV10_Read_sticky c r plen e :
  u10_err c = Some e → unframerV10_Read c r plen = Some ([], Some e, c, r).
Proof. intros He. unfold unframerV10_Read. rewrite He. reflexivity. Qed.

(** C9.  A reply in the base:1.0 namespace that arrives without the
    end-of-chunks marker: closing the reader meets the end of the
    transport inside the frame and returns [ErrFraming]; [Call] drops that
    error and returns [nil], where [Receive] on the same bytes returns
    it. *)
Theorem Call_drops_the_reader_close_error :
  let s := session11 (chunk_header (Z.of_nat (length reply_doc)) ++ reply_doc) in
  (call_err <$> Session_Call 2 s (bytes "<get/>") (Some [])) = Some None
  ∧ (λ x, x.1.1) <$> Session_Receive s [] = Some (Some ErrFraming).
Proof. vm_compute. split; reflexivity. Qed.

Example Call_skips_notification :
  let s := session11 (chunked notification_doc ++ chunked foreign_reply_doc) in
  (λ res, (call_err res, call_response res, r_data (t_in (transport (call_session res)))))
    <$> Session_Call 3 s (bytes "<get/>") (Some [])
  = Some (None, Some [TStartElement (mkStart (mkName "" "ok") []);
                      TEndElement (mkName "" "ok")], []).
Proof. vm_compute. reflexivity. Qed.

(** C6.  [Unlock] is encoded with the element name of [Lock], not the
    [<unlock>] its documentation names; every other operation of the
    catalog is encoded, as a child of [<rpc>], under its documented name
    and namespace. *)
Theorem Unlock_encodes_as_lock :
  Ops.encoded_name Ops.Unlock = mkName NsNetconf "lock"
  ∧ Ops.documented Ops.Unlock = mkName NsNetconf "unlock"
  ∧ ∀ op, op ≠ Ops.Unlock → Ops.in_rpc (Ops.encoded_name op) = Ops.documented op.
Proof.
  split; [reflexivity|]. split; [reflexivity|].
  intros [] Hop; try reflexivity. done.
Qed.

(** * What the encoder writes for a datastore *)

Lemma name_run_app n c r :
  forallb is_name_byte n = true → is_name_byte c = false →
  name_run (n ++ c :: r) = (n, c :: r).
Proof.
  intros Hn Hc. induction n as [|b n IH]; cbn [app name_run forallb] in *.
  - by rewrite Hc.
  - apply andb_true_iff in Hn as [Hb Hn]. rewrite Hb, IH by done. done.
Qed.

Lemma name_run_spec l n r :
  name_run l = (n, r) → l = n ++ r ∧ forallb is_name_byte n = true.
Proof.
  revert n r. induction l as [|b l IH]; intros n r; cbn [name_run].
  - intros ?; by simplify_eq.
  - destruct (is_name_byte b) eqn:Hb; [|intros ?; by simplify_eq].
    destruct (name_run l) as [n' r']. intros ?; simplify_eq.
    destruct (IH n' r eq_refl) as [-> Hn]. cbn [forallb app]. by rewrite Hb, Hn.
Qed.

Lemma name_bytes_all n :
  name_bytes n = true → forallb is_name_byte n = true.
Proof.
  destruct n as [|b n]; [done|]. cbn [name_bytes forallb].
  intros [Hb Hn]%andb_true_iff. unfold is_name_byte at 1. by rewrite Hb, Hn.
Qed.

Lemma read_tag_name n r :
  name_bytes n = true → read_tag (n ++ GT :: r) = Some (n, r).
Proof.
  intros Hn. unfold read_tag.
  rewrite name_run_app by (by apply name_bytes_all || done). cbn [skip_space].
  replace (is_space GT) with false by reflexivity.
  destruct n as [|b n]; [done|]. cbn [name_bytes] in Hn.
  apply andb_true_iff in Hn as [Hb _].
  rewrite Hb, bool_decide_true by done. done.
Qed.

Lemma bytes_str l : bytes (str l) = l.
Proof. apply String.list_byte_of_string_of_list_byte. Qed.

Lemma str_bytes s : str (bytes s) = s.
Proof. apply String.string_of_list_byte_of_string. Qed.

Lemma is_name_nonempty d : is_name d = true → d ≠ EmptyString.
Proof. by intros H ->. Qed.

(** The printer's output for a datastore that holds no colon and is not
    empty. *)
Lemma Datastore_bytes_plain (d : Datastore) :
  ContainsRune d ":"%char = false → d ≠ EmptyString →
  Datastore_bytes d = [LT] ++ bytes d ++ [GT; LT; SLASH] ++ bytes d ++ [GT].
Proof.
  intros Hc Hd. unfold Datastore_bytes, marshal_name, printer_element.
  rewrite Hc. cbn [no_name Local].
  rewrite decide_False by (intros Hn; by apply Hn).
  rewrite decide_True by done. cbn [Local Space].
  rewrite decide_False by (intros Hn; by apply Hn). done.
Qed.

Lemma read_empty_element_name n :
  name_bytes n = true →
  read_empty_element ([LT] ++ n ++ [GT; LT; SLASH] ++ n ++ [GT]) = Some (str n).
Proof.
  intros Hn. cbn [app read_empty_element].
  rewrite bool_decide_true by done.
  rewrite (read_tag_name n (LT :: SLASH :: n ++ [GT])) by done.
  cbn [mbind option_bind]. rewrite !bool_decide_true by done. cbn [andb].
  rewrite (read_tag_name n []) by done. cbn [mbind option_bind].
  by rewrite !bool_decide_true.
Qed.

(** A datastore that is a name without a colon is written as the start
    and end tag of that name, which read back as the element of that
    name. *)
Lemma Datastore_bytes_name (d : Datastore) :
  ContainsRune d ":"%char = false → is_name d = true →
  Datastore_bytes d = [LT] ++ bytes d ++ [GT; LT; SLASH] ++ bytes d ++ [GT]
  ∧ read_empty_element (Datastore_bytes d) = Some d.
Proof.
  intros Hc Hn. pose proof (is_name_nonempty d Hn) as Hd.
  rewrite Datastore_bytes_plain by done. split; [done|].
  rewrite read_empty_element_name by done. by rewrite str_bytes.
Qed.

Lemma read_tag_inv l n r :
  read_tag l = Some (n, r) → name_bytes n = true.
Proof.
  unfold read_tag. destruct (name_run l) as [n0 r0] eqn:Hrun.
  destruct n0 as [|b n0]; [done|]. destruct (skip_space r0) as [|c r']; [done|].
  destruct (is_name_start b && bool_decide (c = GT)) eqn:Hb; [|done].
  intros ?; simplify_eq. apply andb_true_iff in Hb as [Hb _].
  apply name_run_spec in Hrun as [_ Hall]. cbn [forallb] in Hall.
  apply andb_true_iff in Hall as [_ Hall]. cbn [name_bytes]. by rewrite Hb, Hall.
Qed.

(** What reads as an empty element has a name. *)
Lemma read_empty_element_is_name l s :
  read_empty_element l = Some s → is_name s = true.
Proof.
  destruct l as [|b l1]; [done|]. cbn [read_empty_element].
  case_bool_decide as Hb; [|done]. subst b.
  destruct (read_tag l1) as [[n1 r1]|] eqn:Htag; [|done].
  cbn [mbind option_bind].
  destruct r1 as [|c1 [|c2 l2]]; [done|done|].
  destruct (bool_decide (c1 = LT) && bool_decide (c2 = SLASH)); [|done].
  destruct (read_tag l2) as [[n2 r2]|]; [|done]. cbn [mbind option_bind].
  destruct (bool_decide (n1 = n2) && bool_decide (r2 = [])); [|done].
  intros ?; simplify_eq. unfold is_name. rewrite bytes_str.
  by eapply read_tag_inv.
Qed.

(** Plain characters are written as they are. *)
Lemma EscapeString_loop_plain l : ∀ fuel,
  (length l ≤ fuel)%nat →
  forallb (λ b, let v := byte_val b in
                in_range 0x20 0x7E v
                && negb ((v =? 34) || (v =? 38) || (v =? 39) || (v =? 60) || (v =? 62)))
          l = true →
  EscapeString_loop fuel l = l.
Proof.
  induction l as [|b l IH]; intros fuel Hfuel Hl; [by destruct fuel|].
  destruct fuel as [|fuel]; [cbn in Hfuel; lia|].
  cbn [forallb] in Hl. apply andb_true_iff in Hl as [Hb Hl].
  cbn zeta in Hb. apply andb_true_iff in Hb as [Hr Hx].
  unfold in_range in Hr. apply andb_true_iff in Hr as [Hlo Hhi].
  apply Z.leb_le in Hlo, Hhi. apply negb_true_iff in Hx.
  repeat (apply orb_false_iff in Hx as [Hx ?]).
  cbn [EscapeString_loop]. unfold DecodeRune.
  replace (byte_val b <? 128) with true by (symmetry; apply Z.ltb_lt; lia).
  assert (escape_of (byte_val b) 1 = None) as ->.
  { unfold escape_of. rewrite Hx.
    repeat match goal with H : (_ =? _) = false |- _ => rewrite H; clear H end.
    replace (byte_val b =? 9) with false by (symmetry; apply Z.eqb_neq; lia).
    replace (byte_val b =? 10) with false by (symmetry; apply Z.eqb_neq; lia).
    replace (byte_val b =? 13) with false by (symmetry; apply Z.eqb_neq; lia).
    replace (byte_val b =? RuneError) with false
      by (symmetry; apply Z.eqb_neq; unfold RuneError; lia).
    unfold isInCharacterRange, in_range.
    replace (32 <=? byte_val b) with true by (symmetry; apply Z.leb_le; lia).
    replace (byte_val b <=? 55295) with true by (symmetry; apply Z.leb_le; lia).
    cbn. by rewrite !orb_true_r. }
  cbn [take drop app]. rewrite take_0, drop_0. cbn [app].
  f_equal. apply IH; [cbn in Hfuel; lia|done].
Qed.

Lemma EscapeString_plain s : is_plain s = true → EscapeString s = bytes s.
Proof. intros Hs. by apply EscapeString_loop_plain. Qed.

Lemma name_has_no_colon_bytes s :
  forallb is_name_byte (bytes s) = true → ContainsRune s ":"%char = false.
Proof.
  induction s as [|c s IH]; [done|].
  change (bytes (String c s)) with (byte_of_ascii c :: bytes s).
  cbn [forallb ContainsRune]. intros [Hc Hs]%andb_true_iff.
  case_decide as Hcolon; [by subst c|]. by apply IH.
Qed.

Lemma is_name_no_colon d : is_name d = true → ContainsRune d ":"%char = false.
Proof. intros Hn. apply name_has_no_colon_bytes. by apply name_bytes_all. Qed.

(** A datastore that holds a colon is written as a [url] element that
    declares the base:1.0 namespace, which does not read as an empty
    element. *)
Lemma Datastore_bytes_url (d : Datastore) :
  ContainsRune d ":"%char = true →
  Datastore_bytes d
  = bytes "<url xmlns=" ++ [QUOTE] ++ bytes NsNetconf ++ [QUOTE; GT]
    ++ EscapeString d ++ bytes "</url>"
  ∧ read_empty_element (Datastore_bytes d) = None.
Proof.
  intros Hc. unfold Datastore_bytes. rewrite Hc.
  assert (printer_element (marshal_name no_name no_name (mkName NsNetconf "url"))
            (EscapeString d)
          = bytes "<url xmlns=" ++ [QUOTE] ++ bytes NsNetconf ++ [QUOTE; GT]
            ++ EscapeString d ++ bytes "</url>") as ->.
  { unfold printer_element, marshal_name. cbn [no_name Local].
    rewrite !decide_False by (intros Hn; by apply Hn).
    cbn [Local Space]. rewrite decide_True by done.
    rewrite (EscapeString_plain NsNetconf) by reflexivity.
    repeat (progress (rewrite <- ?app_assoc; cbn [app])). reflexivity. }
  split; [done|]. reflexivity.
Qed.


(** The printer does not check the name it is given: a datastore string
    that ends with a space is written as it is and reads back as the
    element of the name before the space, and one that holds a space
    inside does not read back as an element at all. *)
Lemma datastore_names_are_not_checked :
  str (Datastore_bytes "a ") = "<a ></a >"
  ∧ read_empty_element (Datastore_bytes "a ") = Some "a"
  ∧ read_empty_element (Datastore_bytes "a") = Some "a"
  ∧ str (Datastore_bytes "a b") = "<a b></a b>"
  ∧ read_empty_element (Datastore_bytes "a b") = None.
Proof. repeat split. Qed.



(** C1 at a message of two chunks over a transport that delivers one
    byte at a time. *)
Lemma v11_roundtrip_witness :
  ∃ wire lim',
    sendMessage V11 (mkWriter [] None EOF) [[x3c; x61]; [x2f; x3e]]
    = (None, mkWriter wire None EOF)
    ∧ readAll 5 (U11 newUnframerV11) (mkReader (wire ++ [NL]) [0%nat; 0%nat; 0%nat; 0%nat; 0%nat] EOF) 16
      = Some (concat [[x3c; x61]; [x2f; x3e]], EOF, U11 (mkU11 0 (Some EOF)),
              mkReader [NL] lim' EOF).
Proof.
  apply (v11_roundtrip [[x3c; x61]; [x2f; x3e]] [NL] _ EOF EOF 16 5).
  - repeat constructor; cbn; lia.
  - lia.
  - cbn. lia.
Defined.



(** C4 at a server hello with session id 42 that advertises both
    versions. *)
Lemma codec_selection_witness :
  ∃ hello t',
    helloExchange (pipe hello_v11) = Some (inr (hello, t'))
    ∧ hello_SessionID hello = 42
    ∧ ∃ s, newSession (pipe hello_v11) = Some (Opened s)
           ∧ newFramer s = V11 ∧ newUnframer s = V11.
Proof.
  do 2 eexists. split; [vm_compute; reflexivity|]. split; [reflexivity|].
  eapply (codec_selection_after_hello (H := miniXML) (pipe hello_v11)).
  - vm_compute. reflexivity.
  - discriminate.
  - exists CapNetconf11. split; [|reflexivity]. cbn. right. left.
Defined.

(** Without an SSH session there is no transport to close: the cleanup
    runs on the nil session. *)
Lemma NewSession_without_channel `{XML} e :
  sshClient_NewSession (mkSshClient (inr e)) = Some (NS_NilDereference e).
Proof. reflexivity. Qed.

(** C8.  When the SSH library cannot give an SSH session, [NewSession]
    does not return its error: the cleanup calls [Close] on the nil
    session that came with the error, and the call ends in a nil
    dereference before [return nil, err] is reached.  No error and no
    session reach the caller. *)
Theorem NewSession_loses_the_first_error `{XML} e :
  let c := mkSshClient (inr e) in
  sshClient_NewSession c = Some (NS_NilDereference e)
  ∧ (∀ e' t, sshClient_NewSession c ≠ Some (NS_Error e' t))
  ∧ (∀ s, sshClient_NewSession c ≠ Some (NS_Session s)).
Proof. cbv zeta. repeat split; intros; discriminate. Qed.

(** A failed opening at a server hello without a session id. *)
Lemma failed_open_witness :
  ∃ t, sshClient_NewSession (ssh_client hello_no_id)
       = Some (NS_Error ErrCapabilitiesExchange t)
       ∧ t_closed t = true
       ∧ ∃ s, client_NewSession (ssh_client hello_no_id) = inl s
              ∧ OpenFailure s ErrCapabilitiesExchange.
Proof.
  eexists. split; [vm_compute; reflexivity|].
  apply (proj1 (failed_open_closes_transport (H := miniXML) (ssh_client hello_no_id))).
  vm_compute. reflexivity.
Defined.

(** * The contract of [Read] *)

Lemma headerLoopV11_reader fuel : ∀ len r len' err r',
  headerLoopV11 fuel len r = Some (len', err, r') →
  r_err r' = r_err r ∧ (length (r_data r') ≤ length (r_data r))%nat
  ∧ (err = None → 0 < len').
Proof.
  induction fuel as [|fuel IH]; intros len r len' err r' Hloop; [done|].
  cbn [headerLoopV11] in Hloop.
  destruct (read1_cases r) as [[_ Hr]|(b & data & Hdata & Hr)]; rewrite Hr in Hloop.
  { by simplify_eq. }
  destruct ((len =? 0) && bool_decide (b = HASH)).
  - destruct (read1_cases (mkReader data (tail (r_limits r)) (r_err r)))
      as [[_ Hr2]|(b2 & data2 & Hdata2 & Hr2)]; rewrite Hr2 in Hloop;
      cbn [r_data r_limits r_err] in *.
    + simplify_eq. cbn [r_data r_err]. rewrite Hdata. cbn [length].
      split; [done|]. split; [lia|done].
    + case_decide; simplify_eq; cbn [r_data r_err]; rewrite Hdata; cbn [length];
        (split; [done|]; split; [lia|done]).
  - destruct (is_digit b).
    + apply IH in Hloop as (He & Hl & Hn). cbn [r_data r_err] in *.
      rewrite Hdata. cbn [length]. split; [done|]. split; [lia|done].
    + destruct (bool_decide (b = NL) && (0 <? len)) eqn:Hnl; simplify_eq;
        cbn [r_data r_err]; rewrite Hdata; cbn [length].
      * apply andb_true_iff in Hnl as [_ Hpos]. apply Z.ltb_lt in Hpos.
        split; [done|]. split; [lia|done].
      * split; [done|]. split; [lia|done].
Qed.

Lemma headerStartV11_reader r err r' :
  headerStartV11 r = (err, r') →
  r_err r' = r_err r ∧ (length (r_data r') ≤ length (r_data r))%nat.
Proof.
  unfold headerStartV11. intros Hs.
  destruct (read1_cases r) as [[_ Hr]|(b & data & Hdata & Hr)]; rewrite Hr in Hs.
  { by simplify_eq. }
  case_decide.
  - destruct (read1_cases (mkReader data (tail (r_limits r)) (r_err r)))
      as [[_ Hr2]|(b2 & data2 & Hdata2 & Hr2)]; rewrite Hr2 in Hs;
      cbn [r_data r_limits r_err] in *.
    + simplify_eq. cbn [r_data r_err]. rewrite Hdata. cbn [length]. split; [done|lia].
    + case_decide; simplify_eq; cbn [r_data r_err]; rewrite Hdata; cbn [length];
        (split; [done|lia]).
  - simplify_eq. cbn [r_data r_err]. rewrite Hdata. cbn [length]. split; [done|lia].
Qed.

Lemma headerV11_reader c r len err r' :
  0 ≤ u11_len c → headerV11 c r = Some (len, err, r') →
  r_err r' = r_err r ∧ (length (r_data r') ≤ length (r_data r))%nat
  ∧ (err = None → 0 < len).
Proof.
  intros Hc. unfold headerV11. destruct (Z.eqb_spec (u11_len c) 0) as [H0|H0].
  - destruct (headerStartV11 r) as [[e|] r1] eqn:Hs; intros Hh.
    + simplify_eq. apply headerStartV11_reader in Hs as [? ?]. done.
    + apply headerStartV11_reader in Hs as [He Hl].
      apply headerLoopV11_reader in Hh as (He' & Hl' & Hn).
      split; [congruence|]. split; [lia|done].
  - intros Hh. simplify_eq. split; [done|]. split; [lia|]. intros _. lia.
Qed.

Lemma chunkReadV11_contract len r plen bs err c' r' :
  0 < len → (0 < plen)%nat → chunkReadV11 len r plen = (bs, err, c', r') →
  0 ≤ u11_len c' ∧ (length bs ≤ plen)%nat
  ∧ (err = None → bs ≠ [] ∧ u11_err c' = None
                  ∧ (length (r_data r') < length (r_data r))%nat)
  ∧ (∀ e, err = Some e → bs = [] ∧ u11_err c' = Some e ∧ e = eof_is_framing (r_err r))
  ∧ r_err r' = r_err r ∧ (length (r_data r') ≤ length (r_data r))%nat.
Proof.
  intros Hlen Hplen. unfold chunkReadV11.
  set (plen' := if _ <? _ then _ else _).
  assert ((0 < plen' ≤ plen)%nat ∧ Z.of_nat plen' ≤ len) as [Hp Hple].
  { subst plen'. destruct (Z.ltb_spec len (Z.of_nat plen)); lia. }
  destruct (Reader_Read_cases r plen' (proj1 Hp)) as [[Hnil ->]|(k & Hk & Hk' & ->)];
    intros Hc; simplify_eq; cbn [u11_len u11_err r_data r_err length].
  - split; [lia|]. split; [lia|]. split; [done|]. split; [|split; [done|lia]].
    intros e He. by simplify_eq.
  - rewrite length_take, length_drop.
    split; [lia|]. split; [lia|]. split; [|split; [done|split; [done|lia]]].
    intros _. split; [|split; [done|lia]].
    intros Hnil. apply (f_equal length) in Hnil. rewrite length_take in Hnil.
    cbn [length] in Hnil. lia.
Qed.

Lemma eof_is_framing_cases e :
  eof_is_framing e = ErrFraming ∨ (eof_is_framing e = e ∧ e ≠ EOF).
Proof. destruct e; cbn; auto. Qed.

Lemma headerLoopV11_error_set fuel : ∀ len r len' e r',
  headerLoopV11 fuel len r = Some (len', Some e, r') →
  e = EOF ∨ e = ErrFraming ∨ (e = r_err r ∧ r_err r ≠ EOF).
Proof.
  induction fuel as [|fuel IH]; intros len r len' e r' Hl; [done|].
  cbn [headerLoopV11] in Hl.
  destruct (read1_cases r) as [[_ Hr1]|(b & data & Hdata & Hr1)]; rewrite Hr1 in Hl.
  { simplify_eq. destruct (eof_is_framing_cases (r_err r')) as [->|[-> ?]]; auto. }
  destruct ((len =? 0) && bool_decide (b = HASH)).
  - destruct (read1_cases (mkReader data (tail (r_limits r)) (r_err r)))
      as [[_ Hr2]|(b2 & data2 & Hdata2 & Hr2)]; rewrite Hr2 in Hl; cbn [r_err] in *.
    + simplify_eq. destruct (eof_is_framing_cases (r_err r)) as [->|[-> ?]]; auto.
    + case_decide; simplify_eq; auto.
  - destruct (is_digit b).
    + apply IH in Hl. cbn [r_err] in Hl. done.
    + destruct (bool_decide (b = NL) && (0 <? len)); simplify_eq; auto.
Qed.

Lemma headerStartV11_error_set r e r' :
  headerStartV11 r = (Some e, r') →
  e = ErrFraming ∨ (e = r_err r ∧ r_err r ≠ EOF).
Proof.
  unfold headerStartV11.
  destruct (read1_cases r) as [[_ Hr1]|(b & data & Hdata & Hr1)]; rewrite Hr1.
  { intros ?; simplify_eq. destruct (eof_is_framing_cases (r_err r')) as [->|[-> ?]]; auto. }
  case_decide; [|intros ?; simplify_eq; auto].
  destruct (read1_cases (mkReader data (tail (r_limits r)) (r_err r)))
    as [[_ Hr2]|(b2 & data2 & Hdata2 & Hr2)]; rewrite Hr2; cbn [r_err].
  { intros ?; simplify_eq. destruct (eof_is_framing_cases (r_err r)) as [->|[-> ?]]; auto. }
  case_decide; intros ?; simplify_eq; auto.
Qed.

Lemma headerV11_error_set c r len e r' :
  headerV11 c r = Some (len, Some e, r') →
  e = EOF ∨ e = ErrFraming ∨ (e = r_err r ∧ r_err r ≠ EOF).
Proof.
  unfold headerV11. destruct (u11_len c =? 0); [|intros; simplify_eq].
  destruct (headerStartV11 r) as [[e1|] r1] eqn:Hs.
  - intros ?; simplify_eq. apply headerStartV11_error_set in Hs. tauto.
  - intros Hl. apply headerStartV11_reader in Hs as [Hr _].
    apply headerLoopV11_error_set in Hl. rewrite Hr in Hl. done.
Qed.

Lemma headerV11_reader_err c r len err r' :
  headerV11 c r = Some (len, err, r') →
  r_err r' = r_err r ∧ (length (r_data r') ≤ length (r_data r))%nat.
Proof.
  unfold headerV11. destruct (u11_len c =? 0); [|intros; by simplify_eq].
  destruct (headerStartV11 r) as [[e1|] r1] eqn:Hs.
  - intros ?; simplify_eq. by apply headerStartV11_reader in Hs.
  - intros Hl. apply headerStartV11_reader in Hs as [Hr ?].
    apply headerLoopV11_reader in Hl as (? & ? & _). split; [congruence|lia].
Qed.

Lemma unframerV11_Read_contract c r plen bs err c' r' :
  (u11_err c = None → 0 ≤ u11_len c) → (0 < plen)%nat →
  unframerV11_Read c r plen = Some (bs, err, c', r') →
  (u11_err c' = None → 0 ≤ u11_len c') ∧ (length bs ≤ plen)%nat
  ∧ (err = None → bs ≠ [] ∧ u11_err c' = None
                  ∧ (length (r_data r') < length (r_data r))%nat)
  ∧ (∀ e, err = Some e → bs = [] ∧ u11_err c' = Some e)
  ∧ r_err r' = r_err r
  ∧ (u11_err c = None → ∀ e, err = Some e →
       e = EOF ∨ e = ErrFraming ∨ (e = r_err r ∧ r_err r ≠ EOF)).
Proof.
  intros Hc Hplen. unfold unframerV11_Read.
  destruct (u11_err c) as [e0|] eqn:He0.
  { rewrite bool_decide_true by done. cbn [orb]. intros ?; simplify_eq.
    cbn [length]. rewrite He0. split; [done|]. split; [lia|]. split; [done|].
    split; [|split; [done|done]]. intros e He. by simplify_eq. }
  specialize (Hc eq_refl).
  rewrite bool_decide_false by (intros Hn; by apply Hn).
  rewrite bool_decide_false by lia. cbn [orb].
  destruct (headerV11 c r) as [[[len [e|]] r1]|] eqn:Hh; [| |done].
  - intros ?; simplify_eq. cbn [u11_len u11_err length].
    pose proof (headerV11_reader_err _ _ _ _ _ Hh) as [Hr _].
    pose proof (headerV11_error_set _ _ _ _ _ Hh) as He.
    split; [done|]. split; [lia|]. split; [done|].
    split; [intros e' ?; by simplify_eq|]. split; [done|].
    intros _ e' ?. by simplify_eq.
  - intros Hch. pose proof (headerV11_reader _ _ _ _ _ Hc Hh) as (Hr & Hl & Hn).
    specialize (Hn eq_refl). injection Hch as Hch.
    pose proof (chunkReadV11_contract _ _ _ _ _ _ _ Hn Hplen Hch)
      as (H1 & H2 & H3 & H4 & H5 & H6).
    split; [done|]. split; [done|].
    split; [intros He; destruct (H3 He) as (? & ? & ?); repeat split; [done|done|lia]|].
    split; [intros e He; destruct (H4 e He) as (? & ? & ?); done|].
    split; [congruence|].
    intros _ e He. destruct (H4 e He) as (_ & _ & ->). rewrite Hr.
    destruct (eof_is_framing_cases (r_err r)) as [->|[-> ?]]; auto.
Qed.

Lemma fillV10_reader fuel : ∀ buffer len r buffer' len' err r',
  fillV10 fuel buffer len r = Some (buffer', len', err, r') →
  r_err r' = r_err r ∧ (∀ e, err = Some e → e = eof_is_framing (r_err r)).
Proof.
  induction fuel as [|fuel IH]; intros buffer len r buffer' len' err r' Hf;
    cbn [fillV10] in Hf; case_decide; try done; try (by simplify_eq).
  destruct (Reader_Read_cases r (length buffer - len) ltac:(lia))
    as [[_ Hr]|(k & _ & _ & Hr)]; rewrite Hr in Hf.
  - simplify_eq. split; [done|]. intros e ?. by simplify_eq.
  - apply IH in Hf as [He Hs]. cbn [r_err] in *. done.
Qed.

Lemma unframerV10_Read_contract c r plen bs err c' r' :
  length (u10_buffer c) = 6%nat → (u10_len c ≤ 6)%nat → (0 < plen)%nat →
  unframerV10_Read c r plen = Some (bs, err, c', r') →
  length (u10_buffer c') = 6%nat ∧ (u10_len c' ≤ 6)%nat ∧ (length bs ≤ plen)%nat
  ∧ (err = None → bs ≠ [] ∧ u10_err c' = None
                  ∧ pendingV10 c r = bs ++ pendingV10 c' r')
  ∧ (∀ e, err = Some e → bs = [] ∧ u10_err c' = Some e)
  ∧ r_err r' = r_err r
  ∧ (u10_err c = None → ∀ e, err = Some e →
       e = EOF ∨ e = ErrFraming ∨ (e = r_err r ∧ r_err r ≠ EOF))
  ∧ (u10_err c = None → err = Some EOF → pendingV10 c r = eom ++ r_data r').
Proof.
  intros Hb Hl Hplen. unfold unframerV10_Read.
  destruct (u10_err c) as [e0|] eqn:He0.
  { intros ?; simplify_eq. rewrite He0. cbn [length].
    repeat split; try done; try lia. }
  assert (Hle : (u10_len c ≤ length (u10_buffer c))%nat) by lia.
  destruct (fillV10 _ _ _ r) as [[[[buffer len] [e|]] r1]|] eqn:Hf; [| |done].
  - intros ?; simplify_eq. cbn [u10_buffer u10_len u10_err length].
    pose proof (fillV10_pending _ _ _ _ _ _ _ _ Hle Hf) as (H1 & H2 & H3 & H4 & H5).
    pose proof (fillV10_reader _ _ _ _ _ _ _ _ Hf) as [Hr He].
    specialize (He _ eq_refl). destruct (H5 _ eq_refl) as (Hne & _ & _).
    split; [lia|]. split; [lia|]. split; [lia|]. split; [done|].
    split; [intros e' ?; by simplify_eq|]. split; [done|].
    split; [|intros _ ?; by simplify_eq].
    intros _ e' ?; simplify_eq.
    destruct (eof_is_framing_cases (r_err r)) as [->|[-> ?]]; auto.
  - pose proof (fillV10_pending _ _ _ _ _ _ _ _ Hle Hf) as (H1 & H2 & H3 & H4 & H5).
    pose proof (fillV10_reader _ _ _ _ _ _ _ _ Hf) as [Hr _].
    specialize (H4 eq_refl). rewrite Hb in *. subst len.
    rewrite H1.
    pose proof (scanV10_spec buffer 6 0%nat eq_refl H1) as (Hj & Hdrop & _).
    cbn zeta in Hj, Hdrop. set (j := scanV10 buffer 0 6) in *.
    rewrite (take_ge buffer 6) in H3 by lia.
    case_decide as Hj0.
    + intros ?; simplify_eq. cbn [u10_buffer u10_len u10_err length].
      split; [done|]. split; [lia|]. split; [lia|]. split; [done|].
      split; [intros e' ?; by simplify_eq|]. split; [done|].
      split; [intros _ e' ?; simplify_eq; auto|].
      intros _ _. unfold pendingV10. rewrite <- H3. f_equal.
      rewrite Hj0 in Hdrop. by rewrite drop_0 in Hdrop.
    + intros ?; simplify_eq. cbn [u10_buffer u10_len u10_err].
      set (n := (plen `min` j)%nat) in *.
      assert (1 ≤ n ≤ 6)%nat by lia.
      rewrite length_blit by (rewrite length_drop; cbn; lia).
      rewrite length_take, length_drop.
      split; [done|]. split; [lia|]. split; [lia|].
      split; [|split; [done|split; [done|split; [done|done]]]].
      intros _. split.
      { intros Hnil. apply (f_equal length) in Hnil. rewrite length_take in Hnil.
        cbn [length] in Hnil. lia. }
      split; [done|]. unfold pendingV10 at 2. cbn [u10_buffer u10_len r_data].
      rewrite H1. unfold pendingV10. rewrite <- H3.
      rewrite (pending_after_read buffer n (r_data r')) by (done || lia).
      rewrite drop_app_le by lia. rewrite app_assoc. by rewrite take_drop.
Qed.

Lemma unread_pending c r :
  (u10_len c ≤ length (u10_buffer c))%nat →
  unread (U10 c) r = length (pendingV10 c r).
Proof.
  intros. unfold unread, pendingV10. rewrite length_app, length_take. lia.
Qed.

Lemma unframer_Read_progress u r plen bs err u' r' :
  unframer_ok u → (0 < plen)%nat →
  unframer_Read u r plen = Some (bs, err, u', r') →
  unframer_ok u' ∧ (err = None → (unread u' r' < unread u r)%nat).
Proof.
  intros Hok Hplen Hread. destruct u as [c|c]; cbn in Hread.
  - destruct (unframerV10_Read c r plen) as [[[[bs0 err0] c0] r0]|] eqn:Hr; [|done].
    cbn in Hread. simplify_eq. destruct Hok as [Hb Hl].
    pose proof (unframerV10_Read_contract _ _ _ _ _ _ _ Hb Hl Hplen Hr)
      as (H1 & H2 & H3 & H4 & H5 & _).
    split; [done|]. intros He. destruct (H4 He) as (Hne & He' & Hp).
    rewrite !unread_pending by lia. rewrite Hp, length_app.
    destruct bs; [done|cbn; lia].
  - destruct (unframerV11_Read c r plen) as [[[[bs0 err0] c0] r0]|] eqn:Hr; [|done].
    cbn in Hread. simplify_eq.
    pose proof (unframerV11_Read_contract _ _ _ _ _ _ _ Hok Hplen Hr)
      as (H1 & H2 & H3 & H4 & _).
    split; [done|]. intros He. by destruct (H3 He) as (Hne & He' & Hp).
Qed.

(** X1.  The contract of [Read] for both unframers, in every state they
    can be in and for every buffer that is not empty: a call never returns
    more bytes than the buffer holds; when it returns no error it returns
    at least one byte and the unframer has not failed; when it returns an
    error it returns no byte, and the unframer holds that error. *)
Theorem unframer_Read_contract u r plen bs err u' r' :
  unframer_ok u → (0 < plen)%nat →
  unframer_Read u r plen = Some (bs, err, u', r') →
  (length bs ≤ plen)%nat
  ∧ (err = None → (1 ≤ length bs)%nat ∧ unframer_err u' = None)
  ∧ (err ≠ None → bs = [] ∧ unframer_err u' = err).
Proof.
  intros Hok Hplen Hread. destruct u as [c|c]; cbn in Hread.
  - destruct (unframerV10_Read c r plen) as [[[[bs0 err0] c0] r0]|] eqn:Hr; [|done].
    cbn in Hread. simplify_eq. destruct Hok as [Hb Hl].
    pose proof (unframerV10_Read_contract _ _ _ _ _ _ _ Hb Hl Hplen Hr)
      as (H1 & H2 & H3 & H4 & H5 & H6 & _).
    split; [done|]. split.
    + intros He. destruct (H4 He) as (Hne & He' & Hp).
      split; [destruct bs; [done|cbn; lia]|done].
    + intros He. destruct err as [e|]; [|done]. by destruct (H5 e eq_refl).
  - destruct (unframerV11_Read c r plen) as [[[[bs0 err0] c0] r0]|] eqn:Hr; [|done].
    cbn in Hread. simplify_eq.
    pose proof (unframerV11_Read_contract _ _ _ _ _ _ _ Hok Hplen Hr)
      as (H1 & H2 & H3 & H4 & H5 & _).
    split; [done|]. split.
    + intros He. destruct (H3 He) as (Hne & He' & Hp).
      split; [destruct bs; [done|cbn; lia]|]. done.
    + intros He. destruct err as [e|]; [|done]. by destruct (H4 e eq_refl).
Qed.

(** X4.  The errors of [Read], for an unframer that has not failed: the
    end of the message [io.EOF], [ErrFraming], or the transport's own
    error, which is never [io.EOF]: the end of the transport inside a
    message is reported as [ErrFraming]. *)
Theorem unframer_Read_error_set u r plen bs e u' r' :
  unframer_ok u → unframer_err u = None → (0 < plen)%nat →
  unframer_Read u r plen = Some (bs, Some e, u', r') →
  e = EOF ∨ e = ErrFraming ∨ (e = r_err r ∧ r_err r ≠ EOF).
Proof.
  intros Hok Herr Hplen Hread. destruct u as [c|c]; cbn in Hread, Herr.
  - destruct (unframerV10_Read c r plen) as [[[[bs0 err0] c0] r0]|] eqn:Hr; [|done].
    cbn in Hread. simplify_eq. destruct Hok as [Hb Hl].
    pose proof (unframerV10_Read_contract _ _ _ _ _ _ _ Hb Hl Hplen Hr)
      as (_ & _ & _ & _ & _ & _ & H & _). by apply H.
  - destruct (unframerV11_Read c r plen) as [[[[bs0 err0] c0] r0]|] eqn:Hr; [|done].
    cbn in Hread. simplify_eq.
    pose proof (unframerV11_Read_contract _ _ _ _ _ _ _ Hok Hplen Hr)
      as (_ & _ & _ & _ & _ & H). by apply H.
Qed.

(** * What a v1.0 unframer delivers from any transport *)

Lemma unframerV10_Read_failure c r plen bs e c' r' :
  wfV10 c → (0 < plen)%nat →
  unframerV10_Read c r plen = Some (bs, Some e, c', r') →
  pendingV10 c' r' = pendingV10 c r
  ∧ (e = EOF → pendingV10 c r = eom ++ r_data r')
  ∧ (e ≠ EOF → (length (pendingV10 c r) < 6)%nat ∧ e = eof_is_framing (r_err r)).
Proof.
  intros (Hb & Hl & He0) Hplen. unfold unframerV10_Read. rewrite He0.
  assert (Hle : (u10_len c ≤ length (u10_buffer c))%nat) by lia.
  destruct (fillV10 _ _ _ r) as [[[[buffer len] [e1|]] r1]|] eqn:Hf; [| |done].
  - intros ?; simplify_eq.
    pose proof (fillV10_pending _ _ _ _ _ _ _ _ Hle Hf) as (H1 & H2 & H3 & H4 & H5).
    pose proof (fillV10_reader _ _ _ _ _ _ _ _ Hf) as [Hr He].
    specialize (He _ eq_refl). destruct (H5 _ eq_refl) as (Hne & Hlt & Hnil).
    unfold pendingV10 at 1. cbn [u10_buffer u10_len].
    split; [done|]. split; [done|]. intros _. split; [|done].
    unfold pendingV10. rewrite <- H3, Hnil, length_app, length_take. cbn [length]. lia.
  - pose proof (fillV10_pending _ _ _ _ _ _ _ _ Hle Hf) as (H1 & H2 & H3 & H4 & H5).
    specialize (H4 eq_refl). rewrite Hb in *. subst len. rewrite H1.
    pose proof (scanV10_spec buffer 6 0%nat eq_refl H1) as (Hj & Hdrop & _).
    cbn zeta in Hj, Hdrop. set (j := scanV10 buffer 0 6) in *.
    case_decide as Hj0; intros ?; simplify_eq.
    unfold pendingV10 at 1. cbn [u10_buffer u10_len].
    split; [done|]. split; [|done]. intros _.
    unfold pendingV10. rewrite <- H3. f_equal.
    rewrite (take_ge buffer 6) by lia.
    rewrite Hj0 in Hdrop. by rewrite drop_0 in Hdrop.
Qed.

(** X5.  What the v1.0 unframer delivers from any transport, well framed
    or not: the bytes read until the first error are a prefix of the bytes
    that were pending.  If that error is [io.EOF], the marker follows them
    and the transport is left right after the marker.  If it is another
    error, the transport has failed with fewer than six bytes undelivered,
    and the error is the transport's, [io.EOF] turned into [ErrFraming]. *)
Theorem readAll_V10_sound fuel : ∀ c r plen bs e u' r',
  wfV10 c → (0 < plen)%nat →
  readAll fuel (U10 c) r plen = Some (bs, e, u', r') →
  ∃ c', u' = U10 c'
    ∧ pendingV10 c r = bs ++ pendingV10 c' r'
    ∧ (e = EOF → pendingV10 c' r' = eom ++ r_data r')
    ∧ (e ≠ EOF → (length (pendingV10 c' r') < 6)%nat ∧ e = eof_is_framing (r_err r)).
Proof.
  induction fuel as [|fuel IH]; intros c r plen bs e u' r' Hwf Hplen Hall; [done|].
  cbn [readAll unframer_Read] in Hall.
  destruct (unframerV10_Read c r plen) as [[[[bs0 err0] c0] r0]|] eqn:Hr; [|done].
  cbn [mbind option_bind] in Hall.
  destruct err0 as [e0|].
  - simplify_eq.
    pose proof (unframerV10_Read_failure _ _ _ _ _ _ _ Hwf Hplen Hr) as (Hp & H1 & H2).
    exists c0. split; [done|]. cbn [app]. split; [done|].
    rewrite Hp. done.
  - destruct Hwf as (Hb & Hl & He0).
    pose proof (unframerV10_Read_contract _ _ _ _ _ _ _ Hb Hl Hplen Hr)
      as (H1 & H2 & H3 & H4 & H5 & H6 & _).
    destruct (H4 eq_refl) as (Hne & He' & Hp).
    destruct (readAll fuel (U10 c0) r0 plen) as [[[[bs1 e1] u1] r1]|] eqn:Hrest; [|done].
    cbn [mbind option_bind] in Hall. simplify_eq.
    apply IH in Hrest as (c' & -> & Hp' & HE & HN); [|done|done].
    exists c'. split; [done|]. rewrite Hp, Hp', app_assoc.
    split; [done|]. split; [done|]. rewrite <- H6. done.
Qed.

(** * [Close] *)

Lemma closeLoop_V10 fuel : ∀ c r B rest,
  wfV10 c → pendingV10 c r = B ++ eom ++ rest → marker_free B →
  (length B < fuel)%nat →
  ∃ lim', closeLoop fuel (U10 c) r
          = Some (None, U10 (mkU10 eom 6 (Some EOF)), mkReader rest lim' (r_err r)).
Proof.
  induction fuel as [|fuel IH]; intros c r B rest Hwf Hp Hfree Hfuel; [lia|].
  cbn [closeLoop unframer_Read].
  destruct (unframerV10_Read_step c r B rest 16 Hwf Hp Hfree ltac:(lia))
    as [(-> & lim' & ->)|(n & c' & r' & Hn & -> & Hwf' & Hp' & Hr')].
  - exists lim'. done.
  - cbn [mbind option_bind].
    destruct (IH c' r' (drop n B) rest Hwf' Hp' (marker_free_drop _ _ Hfree))
      as (lim' & ->); [rewrite length_drop; lia|].
    exists lim'. by rewrite Hr'.
Qed.

(** X6.  [Close] of the v1.0 unframer skips what is left of the message:
    in every state reached by reading part of a message [B] that is free
    of the marker, it returns [nil] and leaves the transport at the first
    byte after the marker. *)
Theorem unframerV10_Close_drains c r B rest :
  wfV10 c → pendingV10 c r = B ++ eom ++ rest → marker_free B →
  ∃ lim', unframer_Close (U10 c) r
          = Some (None, U10 (mkU10 eom 6 (Some EOF)), mkReader rest lim' (r_err r)).
Proof.
  intros Hwf Hp Hfree. apply (closeLoop_V10 _ c r B rest Hwf Hp Hfree).
  apply (f_equal length) in Hp. unfold pendingV10 in Hp.
  rewrite !length_app, length_take in Hp. cbn [length eom] in Hp.
  destruct Hwf as (? & ? & ?). lia.
Qed.

Lemma closeLoop_V11 fuel : ∀ cur chunks rest lim e,
  Forall (λ c, Z.of_nat (length c) < 2 ^ 63) chunks →
  (length (cur ++ concat chunks) < fuel)%nat →
  ∃ lim', closeLoop fuel (U11 (mkU11 (Z.of_nat (length cur)) None))
            (mkReader (cur ++ wireV11 chunks ++ rest) lim e)
          = Some (None, U11 (mkU11 0 (Some EOF)), mkReader rest lim' e).
Proof.
  induction fuel as [|fuel IH]; intros cur chunks rest lim e Hc Hfuel; [lia|].
  cbn [closeLoop unframer_Read].
  destruct (unframerV11_Read_step cur chunks rest lim e 16 Hc ltac:(lia))
    as [(Hnil & lim' & ->)|(bs & cur' & chunks' & lim' & Hbs & Heq & Hc' & ->)].
  - exists lim'. done.
  - cbn [mbind option_bind].
    destruct (IH cur' chunks' rest lim' e Hc') as (lim'' & ->).
    { rewrite <- Heq in Hfuel. rewrite length_app in Hfuel.
      destruct bs; [done|]. cbn [length] in Hfuel. lia. }
    exists lim''. done.
Qed.

Lemma length_wireV11 chunks : (length (concat chunks) ≤ length (wireV11 chunks))%nat.
Proof.
  unfold wireV11. rewrite length_app.
  enough (length (concat chunks) ≤ length (concat (frameV11 <$> chunks)))%nat by lia.
  induction chunks as [|c chunks IH]; [done|].
  cbn [fmap list_fmap concat]. rewrite !length_app.
  enough (length c ≤ length (frameV11 c))%nat by lia.
  unfold frameV11. case_decide; [|done]. rewrite length_app. lia.
Qed.

(** X7.  [Close] of the v1.1 unframer skips what is left of the message:
    with [cur] left of the open chunk and the chunks [chunks] to come, it
    returns [nil] and leaves the transport at the first byte after the
    end-of-chunks marker. *)
Theorem unframerV11_Close_drains cur chunks rest lim e :
  Forall (λ c, Z.of_nat (length c) < 2 ^ 63) chunks →
  ∃ lim', unframer_Close (U11 (mkU11 (Z.of_nat (length cur)) None))
            (mkReader (cur ++ wireV11 chunks ++ rest) lim e)
          = Some (None, U11 (mkU11 0 (Some EOF)), mkReader rest lim' e).
Proof.
  intros Hc. apply closeLoop_V11; [done|]. cbn [r_data].
  rewrite !length_app. pose proof (length_wireV11 chunks). lia.
Qed.

Lemma closeLoop_returns fuel : ∀ u r,
  unframer_ok u → (unread u r < fuel)%nat →
  ∃ err u' r', closeLoop fuel u r = Some (err, u', r')
    ∧ err ≠ Some EOF ∧ unframer_err u' ≠ None ∧ r_err r' = r_err r.
Proof.
  induction fuel as [|fuel IH]; intros u r Hok Hfuel; [lia|].
  cbn [closeLoop].
  destruct (unframer_Read_total u r 16) as [[[[bs err] u'] r'] Hr]. rewrite Hr.
  cbn [mbind option_bind].
  pose proof (unframer_Read_progress _ _ _ _ _ _ _ Hok (Nat.lt_0_succ 15) Hr) as [Hok' Hdec].
  assert (Hsticky : ∀ e, err = Some e → unframer_err u' = Some e ∧ r_err r' = r_err r).
  { intros e ->. clear -Hr Hok. destruct u as [c|c]; cbn in Hr.
    - destruct (unframerV10_Read c r 16) as [[[[bs0 err0] c0] r0]|] eqn:Hr0; [|done].
      cbn in Hr. simplify_eq. destruct Hok as [Hb Hl].
      pose proof (unframerV10_Read_contract _ _ _ _ _ _ _ Hb Hl (Nat.lt_0_succ 15) Hr0)
        as (_ & _ & _ & _ & H5 & H6 & _). by destruct (H5 e eq_refl).
    - destruct (unframerV11_Read c r 16) as [[[[bs0 err0] c0] r0]|] eqn:Hr0; [|done].
      cbn in Hr. simplify_eq.
      pose proof (unframerV11_Read_contract _ _ _ _ _ _ _ Hok (Nat.lt_0_succ 15) Hr0)
        as (_ & _ & _ & H4 & H5 & _). by destruct (H4 e eq_refl). }
  destruct err as [e|].
  - destruct (Hsticky e eq_refl) as [Hu' Hr'].
    destruct e; eexists _, u', r'; (split; [done|]);
      (split; [done|]); (split; [by rewrite Hu'|done]).
  - specialize (Hdec eq_refl).
    destruct (IH u' r' Hok' ltac:(lia)) as (err & u'' & r'' & -> & ? & ? & Hr'').
    exists err, u'', r''. split; [done|]. split; [done|]. split; [done|].
    rewrite Hr''. clear -Hr Hok. destruct u as [c|c]; cbn in Hr.
    + destruct (unframerV10_Read c r 16) as [[[[bs0 err0] c0] r0]|] eqn:Hr0; [|done].
      cbn in Hr. simplify_eq. destruct Hok as [Hb Hl].
      by pose proof (unframerV10_Read_contract _ _ _ _ _ _ _ Hb Hl (Nat.lt_0_succ 15) Hr0)
        as (_ & _ & _ & _ & _ & H6 & _).
    + destruct (unframerV11_Read c r 16) as [[[[bs0 err0] c0] r0]|] eqn:Hr0; [|done].
      cbn in Hr. simplify_eq.
      by pose proof (unframerV11_Read_contract _ _ _ _ _ _ _ Hok (Nat.lt_0_succ 15) Hr0)
        as (_ & _ & _ & _ & H5 & _).
Qed.

(** X8.  [Close] returns on every transport and from every state of the
    unframer: the loop over [Read] ends, since every read that succeeds
    uses up a byte.  It never returns [io.EOF], and it leaves the unframer
    failed, so that later reads return nothing. *)
Theorem unframer_Close_returns u r :
  unframer_ok u →
  ∃ err u' r', unframer_Close u r = Some (err, u', r')
    ∧ err ≠ Some EOF ∧ unframer_err u' ≠ None.
Proof.
  intros Hok. destruct (closeLoop_returns (length (r_data r) + 7) u r Hok)
    as (err & u' & r' & H & ? & ? & _).
  { destruct u as [c|c]; cbn [unread]; [destruct Hok|]; lia. }
  by exists err, u', r'.
Qed.

(** * Failed unframers *)

(** X2.  An unframer that holds an error does nothing more: [Read]
    returns no byte and that error without touching the transport, and
    [Close] returns at once, [nil] if the error is [io.EOF] and the error
    otherwise, the transport untouched. *)
Theorem failed_unframer_is_inert u e r plen :
  unframer_err u = Some e →
  unframer_Read u r plen = Some ([], Some e, u, r)
  ∧ unframer_Close u r = Some (if decide (e = EOF) then None else Some e, u, r).
Proof.
  intros He.
  assert (Hread : ∀ n, unframer_Read u r n = Some ([], Some e, u, r)).
  { intros n. destruct u as [c|c]; cbn in He |- *.
    - unfold unframerV10_Read. by rewrite He.
    - unfold unframerV11_Read. rewrite He.
      rewrite bool_decide_true by done. done. }
  split; [done|]. unfold unframer_Close.
  replace (length (r_data r) + 7)%nat with (S (length (r_data r) + 6)) by lia.
  cbn [closeLoop]. rewrite Hread. cbn [mbind option_bind].
  destruct e; done.
Qed.

(** X3.  [Read] returns [io.EOF] only at a terminator.  Under v1.0 the
    bytes not yet delivered start with the marker, and the transport is
    left right after it.  Under v1.1 no chunk is open and the transport
    held a newline, a hash, digits (none for the marker proper), a hash
    and a newline, and is left right after them. *)
Theorem EOF_only_at_a_terminator u r plen bs u' r' :
  unframer_ok u → unframer_err u = None →
  unframer_Read u r plen = Some (bs, Some EOF, u', r') →
  match u with
  | U10 c => pendingV10 c r = eom ++ r_data r'
  | U11 c =>
      u11_len c = 0
      ∧ ∃ ds, r_data r = [NL; HASH] ++ ds ++ [HASH; NL] ++ r_data r'
              ∧ Forall (λ b, is_digit b = true) ds
  end.
Proof.
  intros Hok Herr Hread. destruct u as [c|c]; cbn in Hread, Herr.
  - destruct (unframerV10_Read c r plen) as [[[[bs0 err0] c0] r0]|] eqn:Hr; [|done].
    cbn in Hread. simplify_eq. destruct Hok as [Hb Hl].
    by eapply unframerV10_Read_EOF.
  - destruct (unframerV11_Read c r plen) as [[[[bs0 err0] c0] r0]|] eqn:Hr; [|done].
    cbn in Hread. simplify_eq. by eapply unframerV11_Read_EOF.
Qed.

(** * Writing a message *)

Lemma wire_frames c chunks : wire c chunks = concat (frame c <$> chunks) ++ terminator c.
Proof.
  destruct c; [|done]. unfold wire. f_equal. f_equal.
  induction chunks as [|p ps IH]; [done|]. cbn. by rewrite <- IH.
Qed.

Lemma Writer_Write_cases w p :
  (Writer_Write w p = (Some (w_err w), w))
  ∨ (∃ b, Writer_Write w p = (None, mkWriter (w_out w ++ p) b (w_err w))).
Proof.
  unfold Writer_Write. destruct (w_budget w) as [[|k]|]; eauto.
Qed.

Lemma framer_Write_cases c w p :
  (∃ k w', (k ≤ length (frame c p))%nat ∧ framer_Write c w p = (Some (w_err w), w')
           ∧ w_out w' = w_out w ++ take k (frame c p) ∧ w_err w' = w_err w)
  ∨ (∃ b, framer_Write c w p = (None, mkWriter (w_out w ++ frame c p) b (w_err w))).
Proof.
  destruct c; cbn [framer_Write frame].
  - unfold framerV10_Write. destruct (Writer_Write_cases w p) as [->|[b ->]].
    + left. exists 0%nat, w. rewrite take_0, app_nil_r. split; [lia|done].
    + right. by exists b.
  - unfold framerV11_Write, frameV11. case_decide.
    + destruct (Writer_Write_cases w (chunk_header (Z.of_nat (length p)))) as [->|[b ->]].
      * left. exists 0%nat, w. rewrite take_0, app_nil_r. split; [lia|done].
      * destruct (Writer_Write_cases
                    (mkWriter (w_out w ++ chunk_header (Z.of_nat (length p))) b (w_err w)) p)
          as [->|[b' ->]]; cbn [w_out w_err].
        -- left. eexists (length (chunk_header (Z.of_nat (length p)))), _.
           split; [rewrite length_app; lia|]. split; [done|]. cbn [w_out w_err].
           rewrite take_app_length. done.
        -- right. exists b'. by rewrite <- app_assoc.
    + destruct (Writer_Write_cases w p) as [->|[b ->]].
      * left. exists 0%nat, w. rewrite take_0, app_nil_r. split; [lia|done].
      * right. by exists b.
Qed.

Lemma writeAll_cases c chunks : ∀ w,
  (∃ k w', (k ≤ length (concat (frame c <$> chunks)))%nat
           ∧ writeAll c w chunks = (Some (w_err w), w')
           ∧ w_out w' = w_out w ++ take k (concat (frame c <$> chunks))
           ∧ w_err w' = w_err w)
  ∨ (∃ b, writeAll c w chunks
          = (None, mkWriter (w_out w ++ concat (frame c <$> chunks)) b (w_err w))).
Proof.
  induction chunks as [|p ps IH]; intros w; cbn [writeAll fmap list_fmap concat].
  - right. exists (w_budget w). rewrite app_nil_r. by destruct w.
  - destruct (framer_Write_cases c w p) as [(k & w' & Hk & -> & Ho & He)|[b ->]].
    + left. exists k, w'. rewrite length_app. split; [lia|]. split; [done|].
      rewrite take_app_le by lia. done.
    + destruct (IH (mkWriter (w_out w ++ frame c p) b (w_err w)))
        as [(k & w' & Hk & -> & Ho & He)|[b' ->]]; cbn [w_out w_err] in *.
      * left. exists (length (frame c p) + k)%nat, w'. rewrite length_app.
        split; [lia|]. split; [done|]. split; [|done].
        rewrite take_app_ge by lia. rewrite Ho, <- app_assoc.
        do 3 f_equal. lia.
      * right. exists b'. by rewrite <- app_assoc.
Qed.

Lemma framer_Close_cases c w :
  framer_Close c w = (Some (w_err w), w)
  ∨ (∃ b, framer_Close c w = (None, mkWriter (w_out w ++ terminator c) b (w_err w))).
Proof. destruct c; apply Writer_Write_cases. Qed.

Lemma length_terminator c : (0 < length (terminator c))%nat.
Proof. destruct c; cbn; lia. Qed.

Lemma sendMessage_cases c w chunks :
  (∃ k w', (k < length (wire c chunks))%nat
           ∧ sendMessage c w chunks = (Some (w_err w), w')
           ∧ w_out w' = w_out w ++ take k (wire c chunks) ∧ w_err w' = w_err w)
  ∨ (∃ b, sendMessage c w chunks
          = (None, mkWriter (w_out w ++ wire c chunks) b (w_err w))).
Proof.
  unfold sendMessage. rewrite wire_frames. pose proof (length_terminator c).
  destruct (writeAll_cases c chunks w) as [(k & w' & Hk & -> & Ho & He)|[b ->]].
  - left. exists k, w'. rewrite length_app. split; [lia|]. split; [done|].
    rewrite take_app_le by lia. done.
  - destruct (framer_Close_cases c (mkWriter (w_out w ++ concat (frame c <$> chunks)) b (w_err w)))
      as [->|[b' ->]]; cbn [w_out w_err].
    + left. eexists (length (concat (frame c <$> chunks))), _. rewrite length_app.
      split; [lia|]. split; [done|]. cbn [w_out w_err]. by rewrite take_app_length.
    + right. exists b'. by rewrite <- app_assoc.
Qed.

(** X9.  What a message sent through a framer puts on the transport,
    whichever of the transport's writes fail: if no write fails, the output
    grows by exactly the frame of the message (the chunks and the marker
    under v1.0, the chunk headers, chunks and end-of-chunks marker under
    v1.1); if a write fails, the error is the transport's and the output
    has grown by a proper prefix of that frame. *)
Theorem sendMessage_wire c w chunks :
  match sendMessage c w chunks with
  | (None, w') => w_out w' = w_out w ++ wire c chunks
  | (Some e, w') =>
      e = w_err w
      ∧ ∃ k, (k < length (wire c chunks))%nat
             ∧ w_out w' = w_out w ++ take k (wire c chunks)
  end.
Proof.
  destruct (sendMessage_cases c w chunks) as [(k & w' & Hk & -> & Ho & He)|[b ->]].
  - split; [done|]. by exists k.
  - done.
Qed.

(** * The two halves of [Call] *)

Lemma Session_Call_send `{XML} fuel s request response :
  Session_Call fuel s request response
  = '(err', response', r) ←
      replyLoop fuel (newUnframer s) false (Call_send s request).1 response
        (t_in (transport s));
    Some {| call_err := err';
            call_response := response';
            call_session :=
              mkSession (SessionID s) (Capabilities s)
                (mkTransport r (Call_send s request).2 (t_closed (transport s)))
                (newFramer s) (newUnframer s) (wrap64 (messageID s + 1));
            call_element := rpc_element (wrap64 (messageID s + 1)) |}.
Proof.
  unfold Session_Call, Call_send.
  destruct (encodeTo _ _ _) as [[e|] w]; [done|].
  by destruct (framer_Close (newFramer s) w) as [err w'].
Qed.

Lemma Call_send_cases `{XML} s request :
  match Marshal (OutRPC (rpc_element (wrap64 (messageID s + 1))) request) with
  | inl e => Call_send s request = (Some e, t_out (transport s))
  | inr chunks => Call_send s request = sendMessage (newFramer s) (t_out (transport s)) chunks
  end.
Proof.
  unfold Call_send, sendMessage. destruct (Marshal _) as [e|chunks]; [done|].
  cbn [encodeTo]. by destruct (writeAll _ _ _) as [[e|] w].
Qed.

Lemma replyLoop_stops `{XML} fuel c haveReply err response r :
  response = None ∨ err ≠ None ∨ haveReply = true →
  replyLoop fuel c haveReply err response r = Some (err, response, r).
Proof.
  intros Hstop. destruct fuel; cbn [replyLoop];
    destruct haveReply, err as [e|], response as [resp|]; try done;
    exfalso; destruct Hstop as [?|[?|?]]; done.
Qed.

(** X11.  What [Call] writes when the encoder encodes the request
    without error, as the slices [chunks] it hands to the framer: a
    prefix of the frame of [chunks] under the session's codec; the whole
    frame whenever [Call] returns [nil]; and whenever less than the whole
    frame was written, [Call] returns the error of the transport's
    write. *)
Theorem Call_writes_one_frame `{XML} fuel s request response res chunks :
  Session_Call fuel s request response = Some res →
  Marshal (OutRPC (rpc_element (wrap64 (messageID s + 1))) request) = inr chunks →
  let out := w_out (t_out (transport s)) in
  let out' := w_out (t_out (transport (call_session res))) in
  (∃ k, out' = out ++ take k (wire (newFramer s) chunks))
  ∧ (call_err res = None → out' = out ++ wire (newFramer s) chunks)
  ∧ (out' ≠ out ++ wire (newFramer s) chunks →
     call_err res = Some (w_err (t_out (transport s)))).
Proof.
  rewrite Session_Call_send. intros Hcall Hm.
  destruct (replyLoop _ _ _ _ _ _) as [[[err' response'] r]|] eqn:Hloop; [|done].
  cbn [mbind option_bind] in Hcall. simplify_eq. cbn.
  pose proof (Call_send_cases s request) as Hsend. rewrite Hm in Hsend.
  rewrite Hsend in *.
  destruct (sendMessage_cases (newFramer s) (t_out (transport s)) chunks)
    as [(k & w' & Hk & Hs & Ho & He)|[b Hs]]; rewrite Hs in *; cbn [fst snd] in *.
  - rewrite replyLoop_stops in Hloop by (right; left; done). simplify_eq.
    split; [by exists k|]. split; [done|]. done.
  - cbn [w_out]. split; [|split; [done|done]].
    exists (length (wire (newFramer s) chunks)). by rewrite take_ge.
Qed.

(** X12.  [Call] does not read when there is nothing to read for: with a
    [nil] response, or when sending the request failed, it returns the
    result of the sending at once, the response and the read half of the
    transport untouched, and the message counter incremented all the
    same. *)
Theorem Call_without_reading `{XML} fuel s request response :
  response = None ∨ (Call_send s request).1 ≠ None →
  ∃ res, Session_Call fuel s request response = Some res
    ∧ call_err res = (Call_send s request).1
    ∧ call_response res = response
    ∧ t_in (transport (call_session res)) = t_in (transport s)
    ∧ messageID (call_session res) = wrap64 (messageID s + 1).
Proof.
  intros Hstop. rewrite Session_Call_send.
  rewrite replyLoop_stops by tauto. cbn [mbind option_bind].
  eexists. split; [done|]. done.
Qed.

Lemma tokenLoop_cases `{XML} fuel : ∀ d resp u r err have resp' u' r',
  tokenLoop fuel d resp u r = Some (err, have, resp', u', r') →
  (have = false ∧ resp' = resp ∧ err ≠ None
   ∧ ∃ d', rootToken fuel d u r = Some (None, err, d', u', r'))
  ∨ (have = false ∧ resp' = resp
     ∧ ∃ element d', rootToken fuel d u r = Some (Some element, err, d', u', r')
                     ∧ Local (se_Name element) ≠ "rpc-reply")
  ∨ (have = true
     ∧ ∃ element err0 d0 u0 r0 d1,
         rootToken fuel d u r = Some (Some element, err0, d0, u0, r0)
         ∧ Local (se_Name element) = "rpc-reply"
         ∧ Decoder_DecodeElement d0 resp element u0 r0 = Some (err, resp', d1, u', r')).
Proof.
  intros d resp u r err have resp' u' r'. rewrite tokenLoop_rootToken.
  destruct (rootToken fuel d u r) as [[[[[root err0] d0] u0] r0]|] eqn:Hroot; [|done].
  cbn [mbind option_bind]. destruct root as [element|].
  - case_decide as Hname.
    + destruct (Decoder_DecodeElement d0 resp element u0 r0)
        as [[[[[err1 resp1] d1] u1] r1]|] eqn:Hdec; [|done].
      cbn [mbind option_bind]. intros ?; simplify_eq.
      right; right. split; [done|]. by exists element, err0, d0, u0, r0, d1.
    + intros ?; simplify_eq. right; left. split; [done|]. split; [done|].
      by exists element, d0.
  - intros ?; simplify_eq. left. split; [done|]. split; [done|].
    split; [|by exists d0].
    clear -Hroot. revert d u r Hroot.
    induction fuel as [|fuel IH]; intros d u r Hroot; [done|].
    cbn [rootToken] in Hroot.
    destruct (Decoder_Token d u r) as [[[[[tok e] d'] u1] r1]|]; [|done].
    cbn [mbind option_bind] in Hroot.
    destruct tok as [[]|]; destruct e; try (by simplify_eq); try (by eapply IH).
Qed.

Lemma replyLoop_nil `{XML} fuel : ∀ c resp r response' r',
  replyLoop fuel c false None (Some resp) r = Some (None, response', r') →
  ∃ element d0 u0 r0 resp' d1 u1 r1,
    Local (se_Name element) = "rpc-reply"
    ∧ Decoder_DecodeElement d0 resp element u0 r0 = Some (None, resp', d1, u1, r1)
    ∧ response' = Some resp'.
Proof.
  induction fuel as [|fuel IH]; intros c resp r response' r' Hloop; [done|].
  cbn [replyLoop] in Hloop.
  destruct (tokenLoop (S fuel) NewDecoder resp (newUnframer_of c) r)
    as [[[[[err have] resp1] u1] r1]|] eqn:Htok; [|done].
  cbn [mbind option_bind] in Hloop.
  destruct (unframer_Close u1 r1) as [[[errc uc] rc]|]; [|done].
  cbn [mbind option_bind] in Hloop.
  destruct (tokenLoop_cases _ _ _ _ _ _ _ _ _ _ Htok)
    as [(-> & -> & Herr & _)|[(-> & -> & _)|(-> & element & err0 & d0 & u0 & r0 & d1 & _ & Hname & Hdec)]].
  - destruct err as [e|]; [|done]. rewrite replyLoop_stops in Hloop by (right; left; done).
    by simplify_eq.
  - destruct err as [e|].
    + rewrite replyLoop_stops in Hloop by (right; left; done). by simplify_eq.
    + by apply IH in Hloop.
  - rewrite replyLoop_stops in Hloop by (right; right; done). simplify_eq.
    by exists element, d0, u0, r0, resp1, d1, u1, r1.
Qed.

(** X13.  [Call] with a response to fill returns [nil] only after the
    request was sent without error and [DecodeElement] was run on an
    element whose local name is rpc-reply and returned [nil]; the
    response handed back is the one it decoded. *)
Theorem Call_nil_means_reply_decoded `{XML} fuel s request resp res :
  Session_Call fuel s request (Some resp) = Some res → call_err res = None →
  (Call_send s request).1 = None
  ∧ ∃ element d0 u0 r0 resp' d1 u1 r1,
      Local (se_Name element) = "rpc-reply"
      ∧ Decoder_DecodeElement d0 resp element u0 r0 = Some (None, resp', d1, u1, r1)
      ∧ call_response res = Some resp'.
Proof.
  rewrite Session_Call_send. intros Hcall Hnil.
  destruct (replyLoop _ _ _ _ _ _) as [[[err' response'] r]|] eqn:Hloop; [|done].
  cbn [mbind option_bind] in Hcall. simplify_eq. cbn in Hnil. subst err'.
  destruct (Call_send s request).1 as [e|] eqn:Hsend.
  { rewrite replyLoop_stops in Hloop by (right; left; done). by simplify_eq. }
  split; [done|]. cbn [call_response]. by eapply replyLoop_nil.
Qed.

(** X14.  When the request was sent and the decoder fails before the
    root element of the next frame, [Call] closes the reader and returns
    the decoder's error, the response as it was given. *)
Theorem Call_returns_decoder_error `{XML} fuel s request resp e d u r :
  (Call_send s request).1 = None →
  rootToken (S fuel) NewDecoder (newUnframer_of (newUnframer s)) (t_in (transport s))
  = Some (None, Some e, d, u, r) →
  unframer_ok u →
  ∃ res, Session_Call (S fuel) s request (Some resp) = Some res
    ∧ call_err res = Some e ∧ call_response res = Some resp.
Proof.
  intros Hsend Hroot Hok. rewrite Session_Call_send, Hsend.
  cbn [replyLoop]. rewrite tokenLoop_rootToken, Hroot. cbn [mbind option_bind].
  destruct (closeLoop_returns (length (r_data r) + 7) u r Hok)
    as (errc & uc & rc & Hclose & _).
  { destruct u as [c|c]; cbn [unread]; [destruct Hok|]; lia. }
  unfold unframer_Close. rewrite Hclose. cbn [mbind option_bind].
  rewrite replyLoop_stops by (right; left; done). cbn [mbind option_bind].
  eexists. split; [done|]. done.
Qed.

(** X15.  Calls change nothing of a session but the message counter and
    the transport's position: after every call of a run the session id,
    the capabilities, the framer and the unframer are those of the start,
    the transport has not been closed, and what had been written before
    is a prefix of what has been written since. *)
Theorem Session_Calls_keep_the_session `{XML} fuel calls : ∀ s results,
  Session_Calls fuel s calls = Some results →
  length results = length calls
  ∧ Forall (λ res,
      SessionID (call_session res) = SessionID s
      ∧ Capabilities (call_session res) = Capabilities s
      ∧ newFramer (call_session res) = newFramer s
      ∧ newUnframer (call_session res) = newUnframer s
      ∧ t_closed (transport (call_session res)) = t_closed (transport s)
      ∧ w_out (t_out (transport s)) `prefix_of` w_out (t_out (transport (call_session res))))
    results.
Proof.
  induction calls as [|[request response] calls IH]; intros s results Hrun;
    cbn [Session_Calls] in Hrun.
  { simplify_eq. split; [done|]. constructor. }
  destruct (Session_Call fuel s request response) as [res|] eqn:Hcall; [|done].
  cbn [mbind option_bind] in Hrun.
  destruct (Session_Calls fuel (call_session res) calls) as [rest|] eqn:Hrest; [|done].
  cbn [mbind option_bind] in Hrun. simplify_eq.
  apply IH in Hrest as [Hlen Hall].
  pose proof (Call_send_cases s request) as Hsend.
  assert (Hres : SessionID (call_session res) = SessionID s
      ∧ Capabilities (call_session res) = Capabilities s
      ∧ newFramer (call_session res) = newFramer s
      ∧ newUnframer (call_session res) = newUnframer s
      ∧ t_closed (transport (call_session res)) = t_closed (transport s)
      ∧ w_out (t_out (transport s)) `prefix_of` w_out (t_out (transport (call_session res)))).
  { rewrite Session_Call_send in Hcall.
    destruct (replyLoop _ _ _ _ _ _) as [[[err' response'] r]|]; [|done].
    cbn [mbind option_bind] in Hcall. simplify_eq. cbn.
    repeat (split; [done|]).
    destruct (Marshal _) as [e|chunks]; rewrite Hsend; [done|].
    destruct (sendMessage_cases (newFramer s) (t_out (transport s)) chunks)
      as [(k & w' & Hk & Hs & Ho & He)|[b Hs]]; rewrite Hs; cbn [snd w_out];
      [rewrite Ho|]; by eexists. }
  split; [cbn; lia|]. constructor; [done|].
  destruct Hres as (H1 & H2 & H3 & H4 & H5 & H6).
  eapply Forall_impl; [exact Hall|]. cbn beta.
  intros res' (? & ? & ? & ? & ? & ?).
  repeat split; try congruence. by etrans.
Qed.

Lemma wire_filter_empty c chunks :
  wire c chunks = wire c (filter (λ p, p ≠ []) chunks).
Proof.
  rewrite !wire_frames. f_equal.
  induction chunks as [|p ps IH]; [done|].
  rewrite filter_cons. cbn [fmap list_fmap concat]. rewrite IH.
  destruct p as [|b p]; [|done].
  rewrite decide_False by (intros Hn; by apply Hn). by destruct c.
Qed.

(** X10.  Empty writes leave no trace on the wire: over a transport that
    accepts every write, a message sent with empty chunks among its
    chunks gives the same output as the message without them.  Under
    v1.1 no chunk of length zero is ever announced. *)
Theorem empty_writes_leave_no_trace c out e chunks :
  sendMessage c (mkWriter out None e) chunks
  = sendMessage c (mkWriter out None e) (filter (λ p, p ≠ []) chunks).
Proof.
  pose proof (wire_filter_empty c chunks) as Hw.
  destruct c; cbn [wire] in Hw.
  - rewrite !sendMessage_V10. by rewrite !app_assoc, <- !(app_assoc out), Hw.
  - rewrite !sendMessage_V11. by rewrite Hw.
Qed.

(** * Opening a session *)

Lemma helloExchange_success `{XML} t hello t' :
  helloExchange t = Some (inr (hello, t')) →
  t_closed t' = t_closed t
  ∧ ∃ chunks, Marshal (OutHello hello0) = inr chunks
      ∧ w_out (t_out t') = w_out (t_out t) ++ wire V10 chunks.
Proof.
  unfold helloExchange. destruct (Marshal (OutHello hello0)) as [e|chunks] eqn:Hm; [done|].
  cbn [encodeTo].
  destruct (writeAll_cases V10 chunks (t_out t)) as [(k & w' & Hk & -> & Ho & He)|[b ->]];
    [done|].
  destruct (framer_Close_cases V10
              (mkWriter (w_out (t_out t) ++ concat (frame V10 <$> chunks)) b (w_err (t_out t))))
    as [->|[b' ->]]; [done|]. cbn [w_out w_err].
  destruct (Decoder_DecodeHello _ _ _ _) as [[[[[err h] d] u] r]|]; [|done].
  cbn [mbind option_bind]. destruct err as [e|]; [done|].
  destruct (unframer_Close u r) as [[[err' u'] r']|]; [|done].
  cbn [mbind option_bind]. destruct err' as [e|]; [done|].
  intros ?; simplify_eq. cbn -[wire frame terminator]. split; [done|].
  exists chunks. split; [done|]. by rewrite wire_frames, app_assoc.
Qed.

(** X16.  A session that [newSession] returns: the hello exchange gave
    the server's hello; the session id is the hello's and is not zero; the
    capabilities are those of the hello; the message counter is zero; the
    client's hello went out under v1.0 framing, whatever codec the session
    then uses; the transport is not closed by the opening. *)
Theorem newSession_opened `{XML} t s :
  newSession t = Some (Opened s) →
  ∃ hello chunks,
    helloExchange t = Some (inr (hello, transport s))
    ∧ SessionID s = hello_SessionID hello ∧ SessionID s ≠ 0
    ∧ Capabilities s = parseCapabilities (hello_Capabilities hello)
    ∧ messageID s = 0
    ∧ Marshal (OutHello hello0) = inr chunks
    ∧ w_out (t_out (transport s)) = w_out (t_out t) ++ wire V10 chunks
    ∧ t_closed (transport s) = t_closed t.
Proof.
  unfold newSession. destruct (helloExchange t) as [[[e t']|[hello t']]|] eqn:Hx; [done| |done].
  cbn [mbind option_bind]. unfold negotiate.
  apply helloExchange_success in Hx as Hs. destruct Hs as (Hc & chunks & Hm & Ho).
  repeat case_decide; intros ?; simplify_eq; cbn -[wire];
    exists hello, chunks; done.
Qed.

(** * The capability map *)

Lemma parseCapability_params m c :
  parseCapability m c = <[capability_uri c := capability_params c]> m.
Proof.
  unfold parseCapability, capability_uri, capability_params.
  destruct (SplitN2_shape c) as [[k ->]|(k & v & ->)]; done.
Qed.

(** X17.  The capability map of a session: a URI is a key exactly when a
    capability of the hello has that URI, and its value is the parameter
    string of the last such capability. *)
Theorem Capabilities_last_wins caps uri :
  parseCapabilities caps !! uri
  = capability_params <$> last (filter (λ c, capability_uri c = uri) caps).
Proof.
  unfold parseCapabilities.
  induction caps as [|c caps IH] using rev_ind; [done|].
  rewrite foldl_app. cbn [foldl]. rewrite parseCapability_params.
  rewrite filter_app, filter_cons, filter_nil.
  case_decide as Huri.
  - rewrite Huri, lookup_insert_eq, last_snoc. done.
  - rewrite lookup_insert_ne by done. by rewrite app_nil_r.
Qed.

(** X18.  How a capability is split: into the URI before the first
    question mark, which holds none, and the parameters after it; a
    capability without a question mark is its own URI. *)
Theorem capability_split c :
  c = capability_uri c +:+ (if ContainsRune c "?" then "?" +:+ capability_params c else "")
  ∧ ContainsRune (capability_uri c) "?" = false.
Proof.
  unfold capability_uri, capability_params.
  induction c as [|a c [IH1 IH2]]; [done|].
  cbn [SplitN2 ContainsRune]. case_decide as Ha; [by subst|].
  destruct (SplitN2_shape c) as [[k Hk]|(k & v & Hk)]; rewrite Hk in *;
    cbn [head default ContainsRune] in *; unfold id in *;
    (split; [rewrite IH1 at 1; reflexivity|]);
    cbn [ContainsRune]; rewrite decide_False by done; exact IH2.
Qed.

(** * The SSH client *)

(** X19.  When [NewSession] of the SSH client returns a session, the SSH
    library gave an SSH session, both pipes and the subsystem request
    succeeded, the session is the one [newSession] opened on the channel,
    and the channel has not been closed. *)
Theorem sshClient_NewSession_opened `{XML} c s :
  sshClient_NewSession c = Some (NS_Session s) →
  ∃ sess, client_NewSession c = inl sess
    ∧ ssh_StdinPipe sess = None ∧ ssh_StdoutPipe sess = None
    ∧ ssh_RequestSubsystem sess = None
    ∧ newSession (ssh_channel sess) = Some (Opened s)
    ∧ t_closed (transport s) = t_closed (ssh_channel sess).
Proof.
  unfold sshClient_NewSession. destruct (client_NewSession c) as [sess|e]; [|done].
  destruct (sshSessionTransport_init sess) as [[s'|e t]|] eqn:Hinit; [|done|done].
  cbn [mbind option_bind]. intros ?; simplify_eq. exists sess. split; [done|].
  unfold sshSessionTransport_init in Hinit.
  destruct (ssh_StdinPipe sess); [done|]. destruct (ssh_StdoutPipe sess); [done|].
  destruct (ssh_RequestSubsystem sess); [done|].
  repeat (split; [done|]).
  unfold newSession in Hinit.
  destruct (helloExchange (ssh_channel sess)) as [[[e t']|[hello t']]|] eqn:Hx;
    [done| |done].
  cbn [mbind option_bind] in Hinit. apply helloExchange_success in Hx as [Hc _].
  unfold negotiate in Hinit. repeat case_decide; simplify_eq; done.
Qed.

(** * The operation catalog *)

(** X21.  Two operations of the catalog are encoded under the same
    element name exactly when they are the same operation or one of the
    pairs lock and unlock, commit and confirmed commit, validate and
    validate with a configuration. *)
Theorem encoded_name_collisions op1 op2 :
  let pair a b := (op1 = a ∧ op2 = b) ∨ (op1 = b ∧ op2 = a) in
  Ops.encoded_name op1 = Ops.encoded_name op2
  ↔ op1 = op2
    ∨ pair Ops.Lock Ops.Unlock
    ∨ pair Ops.Commit Ops.CommitConfirmed
    ∨ pair Ops.Validate Ops.ValidateConfig.
Proof.
  cbv zeta. split.
  - intros Heq.
    destruct op1, op2; try (left; reflexivity);
      try (exfalso; vm_compute in Heq; discriminate Heq); auto 10.
  - intros [->|[H|[H|H]]]; [done| | |];
      destruct H as [[-> ->]|[-> ->]]; reflexivity.
Qed.

(** * Datastores *)

(** X22.  A datastore that is an XML name of ASCII characters without
    a colon is emitted as an element that no other such datastore and no
    datastore holding a colon is emitted as: the names read back differ,
    and the [url] element of the latter does not read as an empty
    element. *)
Theorem Datastore_names_do_not_collide (d1 d2 : Datastore) :
  is_name d1 = true →
  is_name d2 = true ∨ ContainsRune d2 ":"%char = true →
  d1 ≠ d2 →
  read_empty_element (Datastore_bytes d1) ≠ read_empty_element (Datastore_bytes d2)
  ∧ Datastore_bytes d1 ≠ Datastore_bytes d2.
Proof.
  intros H1 H2 Hne.
  destruct (Datastore_bytes_name d1 (is_name_no_colon d1 H1) H1) as [_ Hr1].
  assert (read_empty_element (Datastore_bytes d1)
          ≠ read_empty_element (Datastore_bytes d2)) as Hread.
  { rewrite Hr1. destruct H2 as [H2|H2].
    - destruct (Datastore_bytes_name d2 (is_name_no_colon d2 H2) H2) as [_ ->].
      intros ?; by simplify_eq.
    - destruct (Datastore_bytes_url d2 H2) as [_ ->]. done. }
  split; [done|]. intros Heq. apply Hread. by rewrite Heq.
Qed.

(** * Closing a session *)

(** X20.  [Close] of a session, whatever the outcome of the
    close-session call: the transport is closed and the message counter
    was incremented by the call.  The error returned is that of [Call] if
    it returned one, else the first rpc-error of the reply if there is
    one, else the answer of the transport's [Close]. *)
Theorem Session_Close_closes `{XML} RPCReply0 reply_RPCError closeSession
    fuel s answer err s' :
  Session_Close RPCReply0 reply_RPCError closeSession fuel s answer = Some (err, s') →
  t_closed (transport s') = true
  ∧ messageID s' = wrap64 (messageID s + 1)
  ∧ ∃ res, Session_Call fuel s closeSession (Some RPCReply0) = Some res
      ∧ (∀ e, call_err res = Some e → err = Some (CallError e))
      ∧ (call_err res = None →
         ∃ reply, call_response res = Some reply
           ∧ (∀ e, head (reply_RPCError reply) = Some e → err = Some (ReplyError e))
           ∧ (reply_RPCError reply = [] → err = CallError <$> answer)).
Proof.
  unfold Session_Close, Session_CallSimple, sshSessionTransport_Close.
  destruct (Session_Call fuel s closeSession (Some RPCReply0)) as [res|] eqn:Hcall; [|done].
  cbn [mbind option_bind]. intros ?; simplify_eq. cbn [with_transport transport].
  split; [done|]. cbn [messageID].
  split; [by apply Session_Call_messageID in Hcall as [? _]|].
  exists res. split; [done|]. split.
  - intros e ->. done.
  - intros Hnil. rewrite Hnil.
    destruct (call_response res) as [reply|] eqn:Hresp.
    + exists reply. split; [done|].
      destruct (reply_RPCError reply) as [|e errs]; cbn [head].
      * split; [done|]. done.
      * split; [intros e' ?; by simplify_eq|done].
    + exfalso. rewrite Session_Call_send in Hcall.
      destruct (replyLoop _ _ _ _ _ _) as [[[err' response'] r]|] eqn:Hloop; [|done].
      cbn [mbind option_bind] in Hcall. simplify_eq. cbn in *. subst.
      destruct (Call_send s closeSession).1 as [e|] eqn:Hsend.
      { rewrite replyLoop_stops in Hloop by (right; left; done). by simplify_eq. }
      apply replyLoop_nil in Hloop as (? & ? & ? & ? & ? & ? & ? & ? & _ & _ & ?). done.
Qed.

(** * The properties at concrete inputs *)

(** X1 at the first read of a reply sent as one v1.1 chunk. *)
Lemma unframer_Read_contract_witness :
  ∃ bs err u' r',
    unframer_Read (U11 newUnframerV11) (stream (chunked reply_doc)) 16
    = Some (bs, err, u', r')
    ∧ (length bs ≤ 16)%nat
    ∧ (err = None → (1 ≤ length bs)%nat ∧ unframer_err u' = None)
    ∧ (err ≠ None → bs = [] ∧ unframer_err u' = err).
Proof.
  cbv zeta. do 4 eexists. split; [vm_compute; reflexivity|].
  eapply (unframer_Read_contract (U11 newUnframerV11) (stream (chunked reply_doc)) 16).
  - cbn. lia.
  - lia.
  - vm_compute. reflexivity.
Defined.

(** X2 at a v1.1 unframer that has failed with [ErrFraming]. *)
Lemma failed_unframer_witness :
  let u := U11 (mkU11 0 (Some ErrFraming)) in
  let r := stream (chunked reply_doc) in
  unframer_Read u r 16 = Some ([], Some ErrFraming, u, r)
  ∧ unframer_Close u r
    = Some (if decide (ErrFraming = EOF) then None else Some ErrFraming, u, r).
Proof.
  cbv zeta.
  apply (failed_unframer_is_inert (U11 (mkU11 0 (Some ErrFraming))) ErrFraming).
  reflexivity.
Defined.

(** X3 at an end-of-chunks marker followed by a newline. *)
Lemma EOF_only_at_a_terminator_witness :
  let r := stream ([NL; HASH; HASH; NL] ++ [NL]) in
  ∃ bs u' r',
    unframer_Read (U11 newUnframerV11) r 16 = Some (bs, Some EOF, u', r')
    ∧ u11_len newUnframerV11 = 0
    ∧ ∃ ds, r_data r = [NL; HASH] ++ ds ++ [HASH; NL] ++ r_data r'
            ∧ Forall (λ b, is_digit b = true) ds.
Proof.
  cbv zeta. do 3 eexists. split; [vm_compute; reflexivity|].
  eapply (EOF_only_at_a_terminator (U11 newUnframerV11)
           (stream ([NL; HASH; HASH; NL] ++ [NL])) 16).
  - cbn. lia.
  - reflexivity.
  - vm_compute. reflexivity.
Defined.

(** X5 at a v1.0 stream cut inside the marker: the four bytes before
    it are delivered, then [ErrFraming]. *)
Lemma readAll_V10_sound_witness :
  let r := stream (bytes "<a/>]]>") in
  ∃ bs e u' r',
    readAll 5 (U10 newUnframerV10) r 16 = Some (bs, e, u', r')
    ∧ bs = bytes "<a/>" ∧ e = ErrFraming
    ∧ ∃ c', u' = U10 c'
        ∧ pendingV10 newUnframerV10 r = bs ++ pendingV10 c' r'
        ∧ (e = EOF → pendingV10 c' r' = eom ++ r_data r')
        ∧ (e ≠ EOF → (length (pendingV10 c' r') < 6)%nat
                      ∧ e = eof_is_framing (r_err r)).
Proof.
  cbv zeta. do 4 eexists. split; [vm_compute; reflexivity|].
  split; [reflexivity|]. split; [reflexivity|].
  eapply (readAll_V10_sound 5 newUnframerV10 (stream (bytes "<a/>]]>")) 16).
  - repeat split; cbn; lia.
  - lia.
  - vm_compute. reflexivity.
Defined.

(** X4 at a transport that fails after a single newline. *)
Lemma unframer_Read_error_set_witness :
  let r := mkReader [NL] [] (ErrOther "connection reset") in
  ∃ bs e u' r',
    unframer_Read (U11 newUnframerV11) r 16 = Some (bs, Some e, u', r')
    ∧ (e = EOF ∨ e = ErrFraming ∨ (e = r_err r ∧ r_err r ≠ EOF)).
Proof.
  cbv zeta. do 4 eexists. split; [vm_compute; reflexivity|].
  eapply (unframer_Read_error_set (U11 newUnframerV11)
           (mkReader [NL] [] (ErrOther "connection reset")) 16 []).
  - cbn. lia.
  - reflexivity.
  - lia.
  - vm_compute. reflexivity.
Defined.

(** X6 at a fresh unframer over a four-byte message, read with short
    reads. *)
Lemma unframerV10_Close_drains_witness :
  let r := mkReader (bytes "<a/>" ++ eom ++ [NL]) [0%nat; 2%nat] EOF in
  ∃ lim', unframer_Close (U10 newUnframerV10) r
          = Some (None, U10 (mkU10 eom 6 (Some EOF)), mkReader [NL] lim' EOF).
Proof.
  cbv zeta.
  apply (unframerV10_Close_drains newUnframerV10
           (mkReader (bytes "<a/>" ++ eom ++ [NL]) [0%nat; 2%nat] EOF) (bytes "<a/>") [NL]).
  - repeat split; cbn; lia.
  - reflexivity.
  - apply marker_free_intro.
    + intros (pre & post & H). apply (f_equal length) in H.
      rewrite !length_app in H. cbn in H. lia.
    + intros [k H]. apply (f_equal reverse) in H.
      rewrite reverse_app in H. vm_compute in H. discriminate.
Defined.

(** X7 with two bytes left of the open chunk, then two chunks and an
    empty write. *)
Lemma unframerV11_Close_drains_witness :
  ∃ lim', unframer_Close (U11 (mkU11 (Z.of_nat (length [x61; x3e])) None))
            (mkReader ([x61; x3e] ++ wireV11 [[x3c; x62]; []; [x2f; x3e]] ++ [NL])
                      [0%nat; 0%nat] EOF)
          = Some (None, U11 (mkU11 0 (Some EOF)), mkReader [NL] lim' EOF).
Proof.
  apply (unframerV11_Close_drains [x61; x3e] [[x3c; x62]; []; [x2f; x3e]] [NL]).
  repeat constructor; cbn; lia.
Defined.

(** X8 at a v1.0 stream cut inside the marker. *)
Lemma unframer_Close_returns_witness :
  ∃ err u' r',
    unframer_Close (U10 newUnframerV10) (stream (bytes "<a/>]]>")) = Some (err, u', r')
    ∧ err ≠ Some EOF ∧ unframer_err u' ≠ None.
Proof.
  apply (unframer_Close_returns (U10 newUnframerV10) (stream (bytes "<a/>]]>"))).
  split; cbn; lia.
Defined.

(** X11 at a call on a v1.1 session whose reply is waiting. *)
Lemma Call_writes_one_frame_witness :
  let s := session11 (chunked reply_doc) in
  let request := bytes "<get/>" in
  ∃ res chunks,
    Session_Call 3 s request (Some []) = Some res
    ∧ Marshal (OutRPC (rpc_element (wrap64 (messageID s + 1))) request) = inr chunks
    ∧ let out := w_out (t_out (transport s)) in
      let out' := w_out (t_out (transport (call_session res))) in
      (∃ k, out' = out ++ take k (wire (newFramer s) chunks))
      ∧ (call_err res = None → out' = out ++ wire (newFramer s) chunks)
      ∧ (out' ≠ out ++ wire (newFramer s) chunks →
         call_err res = Some (w_err (t_out (transport s)))).
Proof.
  cbv zeta.
  assert (call_err <$> Session_Call 3 (session11 (chunked reply_doc)) (bytes "<get/>") (Some [])
          = Some None) as Hrun' by (vm_compute; reflexivity).
  destruct (Session_Call (H := miniXML) 3 (session11 (chunked reply_doc)) (bytes "<get/>")
              (Some [])) as [res|] eqn:Hrun; [|discriminate].
  exists res. eexists. split; [reflexivity|]. split; [reflexivity|].
  exact (Call_writes_one_frame (H := miniXML) 3 (session11 (chunked reply_doc))
           (bytes "<get/>") (Some []) res _ Hrun eq_refl).
Defined.

(** X12 at a call with a [nil] response and no fuel at all. *)
Lemma Call_without_reading_witness :
  let s := session11 (chunked reply_doc) in
  let request := bytes "<get/>" in
  ∃ res, Session_Call 0 s request None = Some res
    ∧ call_err res = (Call_send s request).1
    ∧ call_response res = None
    ∧ t_in (transport (call_session res)) = t_in (transport s)
    ∧ messageID (call_session res) = wrap64 (messageID s + 1).
Proof.
  cbv zeta.
  apply (Call_without_reading (H := miniXML) 0 (session11 (chunked reply_doc))
           (bytes "<get/>") None).
  left. reflexivity.
Defined.

(** X13 at a call whose reply comes after a notification. *)
Lemma Call_nil_means_reply_decoded_witness :
  let s := session11 (chunked notification_doc ++ chunked reply_doc) in
  let request := bytes "<get/>" in
  ∃ res,
    Session_Call 3 s request (Some []) = Some res
    ∧ call_err res = None
    ∧ (Call_send s request).1 = None
    ∧ ∃ element d0 u0 r0 resp' d1 u1 r1,
        Local (se_Name element) = "rpc-reply"
        ∧ Decoder_DecodeElement d0 [] element u0 r0 = Some (None, resp', d1, u1, r1)
        ∧ call_response res = Some resp'.
Proof.
  cbv zeta.
  assert (call_err <$> Session_Call 3
            (session11 (chunked notification_doc ++ chunked reply_doc)) (bytes "<get/>")
            (Some []) = Some None) as Hrun' by (vm_compute; reflexivity).
  destruct (Session_Call (H := miniXML) 3
              (session11 (chunked notification_doc ++ chunked reply_doc)) (bytes "<get/>")
              (Some [])) as [res|] eqn:Hrun; [|discriminate].
  injection Hrun' as Hnil.
  exists res. split; [reflexivity|]. split; [exact Hnil|].
  exact (Call_nil_means_reply_decoded (H := miniXML) 3
           (session11 (chunked notification_doc ++ chunked reply_doc))
           (bytes "<get/>") [] res Hrun Hnil).
Defined.

(** X14 at a transport that ends inside the first chunk header. *)
Lemma Call_returns_decoder_error_witness :
  ∃ res, Session_Call 3 (session11 [NL; HASH]) (bytes "<get/>") (Some []) = Some res
    ∧ call_err res = Some ErrFraming ∧ call_response res = Some [].
Proof.
  eapply (Call_returns_decoder_error (H := miniXML) 2 (session11 [NL; HASH])
            (bytes "<get/>") []).
  - vm_compute. reflexivity.
  - vm_compute. reflexivity.
  - cbn. intros H. discriminate H.
Defined.

(** X15 at two calls on a v1.1 session. *)
Lemma Session_Calls_keep_the_session_witness :
  let s := session11 (chunked reply_doc ++ chunked reply_doc) in
  ∃ results,
    Session_Calls 3 s two_calls = Some results
    ∧ length results = length two_calls
    ∧ Forall (λ res,
        SessionID (call_session res) = SessionID s
        ∧ Capabilities (call_session res) = Capabilities s
        ∧ newFramer (call_session res) = newFramer s
        ∧ newUnframer (call_session res) = newUnframer s
        ∧ t_closed (transport (call_session res)) = t_closed (transport s)
        ∧ w_out (t_out (transport s))
            `prefix_of` w_out (t_out (transport (call_session res))))
      results.
Proof.
  cbv zeta.
  assert (length <$> Session_Calls 3 (session11 (chunked reply_doc ++ chunked reply_doc))
                       two_calls = Some 2%nat) as Hlen by (vm_compute; reflexivity).
  destruct (Session_Calls (H := miniXML) 3
              (session11 (chunked reply_doc ++ chunked reply_doc)) two_calls)
    as [results|] eqn:Hrun; [|discriminate].
  exists results. split; [reflexivity|].
  exact (Session_Calls_keep_the_session (H := miniXML) 3 two_calls
           (session11 (chunked reply_doc ++ chunked reply_doc)) results Hrun).
Defined.

(** X16 at a server hello with session id 42 and both base
    capabilities. *)
Lemma newSession_opened_witness :
  let t := pipe hello_v11 in
  ∃ s hello chunks,
    newSession t = Some (Opened s)
    ∧ helloExchange t = Some (inr (hello, transport s))
    ∧ SessionID s = hello_SessionID hello ∧ SessionID s ≠ 0
    ∧ Capabilities s = parseCapabilities (hello_Capabilities hello)
    ∧ messageID s = 0
    ∧ Marshal (OutHello hello0) = inr chunks
    ∧ w_out (t_out (transport s)) = w_out (t_out t) ++ wire V10 chunks
    ∧ t_closed (transport s) = t_closed t.
Proof.
  cbv zeta.
  assert ((λ o, match o with Opened s => SessionID s | Failed _ _ => 0 end)
            <$> newSession (pipe hello_v11) = Some 42) as Hid by (vm_compute; reflexivity).
  destruct (newSession (H := miniXML) (pipe hello_v11)) as [[s|e t]|] eqn:Hrun;
    [|discriminate|discriminate].
  destruct (newSession_opened (H := miniXML) (pipe hello_v11) s Hrun)
    as (hello & chunks & Hopen).
  exists s, hello, chunks. split; [reflexivity|exact Hopen].
Defined.

(** X19 at an SSH session whose steps all succeed and the same server
    hello. *)
Lemma sshClient_NewSession_opened_witness :
  let c := ssh_client hello_v11 in
  ∃ s sess,
    sshClient_NewSession c = Some (NS_Session s)
    ∧ client_NewSession c = inl sess
    ∧ ssh_StdinPipe sess = None ∧ ssh_StdoutPipe sess = None
    ∧ ssh_RequestSubsystem sess = None
    ∧ newSession (ssh_channel sess) = Some (Opened s)
    ∧ t_closed (transport s) = t_closed (ssh_channel sess).
Proof.
  cbv zeta.
  assert ((λ o, match o with NS_Session s => SessionID s | _ => 0 end)
            <$> sshClient_NewSession (ssh_client hello_v11) = Some 42) as Hid
    by (vm_compute; reflexivity).
  destruct (sshClient_NewSession (H := miniXML) (ssh_client hello_v11))
    as [[s|e t|e]|] eqn:Hrun; [|discriminate|discriminate|discriminate].
  destruct (sshClient_NewSession_opened (H := miniXML) (ssh_client hello_v11) s Hrun)
    as (sess & Hopen).
  exists s, sess. split; [reflexivity|exact Hopen].
Defined.

(** X20 at a session whose close-session call is answered with an
    rpc-error, and whose transport fails to close. *)
Lemma Session_Close_closes_witness :
  let s := session11 (chunked error_reply_doc) in
  let closeSession := bytes "<close-session></close-session>" in
  ∃ err s',
    Session_Close [] token_errors closeSession 3 s (Some (ErrOther "ssh: close")) = Some (err, s')
    ∧ t_closed (transport s') = true
    ∧ messageID s' = wrap64 (messageID s + 1)
    ∧ ∃ res, Session_Call 3 s closeSession (Some []) = Some res
        ∧ (∀ e, call_err res = Some e → err = Some (CallError e))
        ∧ (call_err res = None →
           ∃ reply, call_response res = Some reply
             ∧ (∀ e, head (token_errors reply) = Some e → err = Some (ReplyError e))
             ∧ (token_errors reply = [] → err = CallError <$> Some (ErrOther "ssh: close"))).
Proof.
  cbv zeta.
  assert (is_Some (fst <$> Session_Close (H := miniXML) [] token_errors
            (bytes "<close-session></close-session>") 3
            (session11 (chunked error_reply_doc)) (Some (ErrOther "ssh: close")))) as Hsome
    by (vm_compute; eexists; reflexivity).
  destruct (Session_Close (H := miniXML) [] token_errors
              (bytes "<close-session></close-session>") 3
              (session11 (chunked error_reply_doc)) (Some (ErrOther "ssh: close")))
    as [[err s']|] eqn:Hrun; [|destruct Hsome as [? Hsome]; discriminate Hsome].
  exists err, s'. split; [reflexivity|].
  exact (Session_Close_closes (H := miniXML) [] token_errors
           (bytes "<close-session></close-session>") 3
           (session11 (chunked error_reply_doc)) (Some (ErrOther "ssh: close")) err s' Hrun).
Defined.

(** X22 at the running and the candidate datastore. *)
Lemma Datastore_names_do_not_collide_witness :
  is_name Running = true
  ∧ read_empty_element (Datastore_bytes Running)
    ≠ read_empty_element (Datastore_bytes Candidate)
  ∧ Datastore_bytes Running ≠ Datastore_bytes Candidate.
Proof.
  split; [reflexivity|].
  apply Datastore_names_do_not_collide; [reflexivity|left; reflexivity|discriminate].
Defined.
